(** * Decoupled weight decay optimizers and their metric reduction protocol

    A shallow embedding of [composer/optim/decoupled_weight_decay.py]:
    the functional update rules [sgdw] and [adamw], the two [step]
    orchestrators, the per-parameter metric catalogue of [DecoupledAdamW]
    and its [pre_reduce_metrics] / [dist_reduce_metrics] passes.

    Conventions of the embedding.
    - Python floats and zero-dimensional tensors are idealised as real
      numbers: rounding, overflow, infinities and NaN are not represented.
      The functions of the [math] module and the division of two Python
      floats keep their exceptions ([math_sqrt], [float_div]); arithmetic
      on tensors is total, as in torch.
    - A tensor is the list of its elements (the flattened tensor).  The
      tensors combined by one element-wise operation have the same shape.
    - An exception leaves every mutation made before it in place: a
      computation is a function from the mutable store to the store it
      leaves behind and either a value or the exception raised. *)

From Stdlib Require Import Reals Lra Lia Ascii.
From stdpp Require Import gmap strings list.

Open Scope R_scope.

(** ** Exceptions and stateful computations *)

Inductive exn : Type :=
  | KeyError | ValueError | IndexError | TypeError | AttributeError | RuntimeError
  | ZeroDivisionError.

Inductive result (A : Type) : Type :=
  | Ok (a : A)
  | Raise (e : exn).
Arguments Ok {A} a.
Arguments Raise {A} e.

Definition M (S A : Type) : Type := S -> S * result A.

Definition ret {S A} (a : A) : M S A := fun s => (s, Ok a).
Definition raise {S A} (e : exn) : M S A := fun s => (s, Raise e).
Definition bind {S A B} (c : M S A) (k : A -> M S B) : M S B :=
  fun s => match c s with
           | (s1, Ok a) => k a s1
           | (s1, Raise e) => (s1, Raise e)
           end.
Definition lift {S A} (r : result A) : M S A := fun s => (s, r).
Definition get {S} : M S S := fun s => (s, Ok s).
Definition modify {S} (f : S -> S) : M S unit := fun s => (f s, Ok tt).

Arguments ret {S A} a /.
Arguments raise {S A} e /.
Arguments bind {S A B} c k /.
Arguments lift {S A} r /.
Arguments get {S} /.
Arguments modify {S} f /.

Notation "'let!' x ':=' c 'in' k" := (bind c (fun x => k))
  (at level 10, x name, c at level 100, k at level 200).
Notation "'let!' ' p ':=' c 'in' k" := (bind c (fun x => match x with p => k end))
  (at level 10, p pattern, c at level 100, k at level 200).
Notation "c1 ';;;' c2" := (bind c1 (fun _ => c2))
  (at level 100, c2 at level 200, right associativity).

(** [for x in xs: body x] *)
Fixpoint for_each {S A} (xs : list A) (body : A -> M S unit) : M S unit :=
  match xs with
  | [] => ret tt
  | x :: xs' => body x ;;; for_each xs' body
  end.

(** ** Python scalars *)

(** [math.sqrt x]: a negative argument is a [ValueError]. *)
Definition math_sqrt (x : R) : result R :=
  if Rlt_dec x 0 then Raise ValueError else Ok (sqrt x).

(** [x / y] on two Python floats: a zero divisor is a [ZeroDivisionError]. *)
Definition float_div (x y : R) : result R :=
  if Req_dec_T y 0 then Raise ZeroDivisionError else Ok (x / y).

(** [(lr / initial_lr) if initial_lr else 1.0] *)
Definition decay_factor (lr initial_lr : R) : R :=
  if Req_dec_T initial_lr 0 then 1 else lr / initial_lr.

(** ** Python strings *)

Definition startswith (s p : string) : bool := String.prefix p s.

(** [sub in s] *)
Fixpoint contains (sub s : string) : bool :=
  String.prefix sub s ||
  match s with
  | EmptyString => false
  | String _ s' => contains sub s'
  end.

(** [s.split(sep)] for a one-character separator. *)
Fixpoint split (sep : Ascii.ascii) (s : string) : list string :=
  match s with
  | EmptyString => [EmptyString]
  | String c s' =>
      if Ascii.eqb c sep then EmptyString :: split sep s'
      else match split sep s' with
           | [] => [String c EmptyString]
           | w :: ws => String c w :: ws
           end
  end.

Arguments split sep%_char s%_string.

(** [a, b = tuple(l)] and [_, b, c = tuple(l)] *)
Definition unpack2 (l : list string) : result (string * string) :=
  match l with
  | [a; b] => Ok (a, b)
  | _ => Raise ValueError
  end.
Definition unpack3 (l : list string) : result (string * string * string) :=
  match l with
  | [a; b; c] => Ok (a, b, c)
  | _ => Raise ValueError
  end.

(** [sorted(l, key=key)]: a stable sort, here by insertion from the right. *)
Fixpoint insert_sorted (key : string -> nat) (x : string) (l : list string) : list string :=
  match l with
  | [] => [x]
  | y :: l' => if (key x <=? key y)%nat then x :: y :: l' else y :: insert_sorted key x l'
  end.
Fixpoint sorted (key : string -> nat) (l : list string) : list string :=
  match l with
  | [] => []
  | x :: l' => insert_sorted key x (sorted key l')
  end.

(** ** Tensors *)

Definition tensor : Type := list R.

Definition zeros_like (t : tensor) : tensor := map (fun _ => 0) t.
(** [t.mul_(c)] *)
Definition mul_ (t : tensor) (c : R) : tensor := map (fun x => x * c) t.
(** [t.add_(u, alpha=alpha)] and the out-of-place [t.add(u, alpha=alpha)] *)
Definition add_ (t u : tensor) (alpha : R) : tensor := zip_with (fun x y => x + alpha * y) t u.
(** [t.addcmul_(u, v, value=value)] *)
Definition addcmul_ (t u v : tensor) (value : R) : tensor :=
  zip_with (fun x yz => x + value * (yz.1 * yz.2)) t (zip u v).
(** [t.addcdiv_(u, v, value=value)] *)
Definition addcdiv_ (t u v : tensor) (value : R) : tensor :=
  zip_with (fun x yz => x + value * (yz.1 / yz.2)) t (zip u v).
(** [torch.maximum(t, u)] *)
Definition maximum (t u : tensor) : tensor := zip_with Rmax t u.
(** [t.sqrt()] *)
Definition tsqrt (t : tensor) : tensor := map sqrt t.
(** [t / c] and [t.add_(c)] for a scalar [c], [c * t], [t.div(u)] *)
Definition div_scalar (t : tensor) (c : R) : tensor := map (fun x => x / c) t.
Definition add_scalar (t : tensor) (c : R) : tensor := map (fun x => x + c) t.
Definition scalar_mul (c : R) (t : tensor) : tensor := map (fun x => c * x) t.
Definition tdiv (t u : tensor) : tensor := zip_with Rdiv t u.

Definition sum_list (l : list R) : R := foldr Rplus 0 l.
Definition dot (t u : tensor) : R := sum_list (zip_with Rmult t u).
(** [torch.linalg.vector_norm(t)] *)
Definition vector_norm (t : tensor) : R := sqrt (dot t t).

(** [torch.nn.functional.cosine_similarity(t, u, dim=0)], whose denominator
    torch clamps from below by [eps] (1e-8 by default). *)
Definition cosine_similarity (eps : R) (t u : tensor) : R :=
  dot t u / Rmax (vector_norm t * vector_norm u) eps.

(** ** The metric record: a dict from string keys to scalars

    A Python dict iterates in insertion order and assigning to a key that is
    present keeps its position, so the record is an association list with
    distinct keys. *)

Definition metrics : Type := list (string * R).

Definition keys (m : metrics) : list string := map fst m.

Fixpoint lookup_metric (k : string) (m : metrics) : option R :=
  match m with
  | [] => None
  | (k', v) :: m' => if String.eqb k k' then Some v else lookup_metric k m'
  end.

(** [m[k] = v] *)
Fixpoint assign (k : string) (v : R) (m : metrics) : metrics :=
  match m with
  | [] => [(k, v)]
  | (k', v') :: m' => if String.eqb k k' then (k', v) :: m' else (k', v') :: assign k v m'
  end.

Definition getitem (k : string) : M metrics R :=
  fun m => match lookup_metric k m with
           | Some v => (m, Ok v)
           | None => (m, Raise KeyError)
           end.
Definition setitem (k : string) (v : R) : M metrics unit := modify (assign k v).
Arguments getitem k /.
Arguments setitem k v /.

(** f'l2_norm/{A}/{layer}' *)
Definition norm_key (A layer : string) : string :=
  "l2_norm/" +:+ A +:+ "/" +:+ layer.
Arguments norm_key : simpl never.

(** ** DecoupledAdamW.pre_reduce_metrics *)

Definition l2_first (metric : string) : nat := if contains "l2_norm" metric then 0 else 1.

Definition pre_reduce_metric (metric : string) : M metrics unit :=
  if startswith metric "l2_norm" then
    let! v := getitem metric in
    setitem metric (v ^ 2)
  else if startswith metric "cosine" then
    let! '(_, vectors, layer) := lift (unpack3 (split "/" metric)) in
    let! '(A, B) := lift (unpack2 (split "_" vectors)) in
    let! a := getitem (norm_key A layer) in
    let! A_rank_subset_norm := lift (math_sqrt a) in
    let! b := getitem (norm_key B layer) in
    let! B_rank_subset_norm := lift (math_sqrt b) in
    let! c := getitem metric in
    setitem metric (c * (A_rank_subset_norm * B_rank_subset_norm))
  else ret tt.

Definition pre_reduce_metrics : M metrics unit :=
  fun optimizer_metrics =>
    for_each (sorted l2_first (keys optimizer_metrics)) pre_reduce_metric optimizer_metrics.

(** ** DecoupledAdamW.dist_reduce_metrics

    The process group is an external collaborator.  [world_size] is
    [dist.get_world_size()].  Every rank runs the pass over the same keys in
    the same order, so the collective call a rank makes for a key meets the
    calls the other ranks make for that key: [peer_sum metric] is the sum of
    the values the other ranks contribute to it, and [all_reduce], which
    works in place on the scalar held by the dict, adds it to the local one. *)

Section Collective.
Variable world_size : nat.
Variable peer_sum : string -> R.

Definition all_reduce (metric : string) : M metrics R :=
let! reduced := getitem metric in
if (1 <? world_size)%nat then
setitem metric (reduced + peer_sum metric) ;;;
ret (reduced + peer_sum metric)
else ret reduced.

Definition dist_reduce_metric (metric : string) : M metrics unit :=
if startswith metric "l2_norm" then
let! reduced := all_reduce metric in
let! r := lift (math_sqrt reduced) in
setitem metric r
else if startswith metric "cosine" then
let! reduced := all_reduce metric in
let! '(_, vectors, layer) := lift (unpack3 (split "/" metric)) in
let! '(A, B) := lift (unpack2 (split "_" vectors)) in
let! A_reduced_norm := getitem (norm_key A layer) in
let! B_reduced_norm := getitem (norm_key B layer) in
setitem metric (reduced / (A_reduced_norm * B_reduced_norm))
else
let! reduced := all_reduce metric in
setitem metric (reduced / INR world_size).

Definition dist_reduce_metrics : M metrics unit :=
fun optimizer_metrics =>
for_each (keys optimizer_metrics) dist_reduce_metric optimizer_metrics.
End Collective.


(** ** Parameters and the host's memory

    A parameter is a tensor object of the host model, known by its identity
    (a number); [memory] gives the current content of every tensor object.
    Optimizer state is kept beside it, in a dict keyed by that identity.

    The functional cores [sgdw] and [adamw] receive Python lists of tensor
    objects and mutate them in place.  They are embedded as computations on
    the contents of those lists; the orchestrator then stores the contents
    back in the objects the lists alias.  A parameter group lists a parameter
    once and state tensors are not shared between parameters, so a list entry
    is the only alias of its tensor during the call. *)

Record gradient : Type := { is_sparse : bool; values : tensor }.
Record parameter : Type := { data : tensor; grad : option gradient; requires_grad : bool }.

Definition memory : Type := nat -> parameter.

Definition set_data (p : nat) (t : tensor) (mem : memory) : memory :=
  fun q => if (q =? p)%nat
           then {| data := t; grad := grad (mem q); requires_grad := requires_grad (mem q) |}
           else mem q.

(** [l[i]] *)
Definition index {S A} (l : list A) (i : nat) : M S A :=
  match l !! i with
  | Some x => ret x
  | None => raise IndexError
  end.
Arguments index {S A} l i /.

(** a loop that threads an accumulator (the lists a [step] appends to) *)
Fixpoint fold_each {S A B} (xs : list A) (body : A -> B -> M S B) (acc : B) : M S B :=
  match xs with
  | [] => ret acc
  | x :: xs' => let! acc' := body x acc in fold_each xs' body acc'
  end.

(** [closure]: re-evaluates the model, which may replace gradients, and
    returns the loss. *)
Definition closure_t : Type := memory -> memory * R.

(** ** DecoupledSGDW *)

Module DecoupledSGDW.

Record group : Type := {
params : list nat;
lr : R;
momentum : R;
dampening : R;
weight_decay : R;
nesterov : bool;
initial_lr : option R  (* [None]: the group dict has no 'initial_lr' key *)
}.

(** [self.state[p]], a dict with at most the key 'momentum_buffer':
[None] when the key is absent, [Some None] when it maps to Python's
[None], [Some (Some b)] when it maps to a tensor. *)
Record pstate : Type := { momentum_buffer : option (option tensor) }.

Record world : Type := { mem : memory; state : gmap nat pstate }.

(** [__init__]: every group remembers its learning rate. *)
Definition init (groups : list group) : list group :=
map (fun g => {| params := params g; lr := lr g; momentum := momentum g;
         dampening := dampening g; weight_decay := weight_decay g;
         nesterov := nesterov g; initial_lr := Some (lr g) |}) groups.

(** The lists [sgdw] mutates. *)
Record lists : Type := { l_params : list tensor; l_momentum_buffer_list : list (option tensor) }.

Definition set_param (i : nat) (t : tensor) : M lists unit :=
modify (fun a => {| l_params := <[i := t]> (l_params a);
            l_momentum_buffer_list := l_momentum_buffer_list a |}).
Definition set_buf (i : nat) (b : tensor) : M lists unit :=
modify (fun a => {| l_params := l_params a;
            l_momentum_buffer_list := <[i := Some b]> (l_momentum_buffer_list a) |}).
Definition param_at (i : nat) : M lists tensor := fun a => index (l_params a) i a.
Definition buf_at (i : nat) : M lists (option tensor) :=
fun a => index (l_momentum_buffer_list a) i a.

Section sgdw.
Variable d_p_list : list tensor.
Variables weight_decay momentum lr initial_lr dampening : R.
Variable nesterov : bool.

(** [d_p = d_p_list[i]] and [if momentum != 0: ...]: the descent
direction, the buffer being created or updated on the way *)
Definition direction_at (i : nat) : M lists tensor :=
let! d_p := index d_p_list i in
if Req_dec_T momentum 0 then ret d_p
else
let! buf := buf_at i in
let! buf :=
match buf with
| None => set_buf i d_p ;;; ret d_p
| Some b =>
let b' := add_ (mul_ b momentum) d_p (1 - dampening) in
set_buf i b' ;;; ret b'
end in
ret (if nesterov then add_ d_p buf momentum else buf).

(** [if weight_decay != 0: ...] *)
Definition decay_at (i : nat) : M lists unit :=
if Req_dec_T weight_decay 0 then ret tt
else
let! param := param_at i in
set_param i (mul_ param (1 - decay_factor lr initial_lr * weight_decay)).

(** the body of [for i, param in enumerate(params)] *)
Definition sgdw_at (i : nat) : M lists unit :=
let! d_p := direction_at i in
decay_at i ;;;
let! param := param_at i in
set_param i (add_ param d_p (- lr)).

Definition sgdw : M lists unit :=
fun a => for_each (seq 0 (length (l_params a))) sgdw_at a.
End sgdw.

(** The three lists a group's loop over its parameters builds. *)
Record collected : Type := {
params_with_grad : list nat;
c_d_p_list : list tensor;
momentum_buffer_list : list (option tensor)
}.

(** [self.state[p]] on the defaultdict: a missing entry is created empty. *)
Definition state_entry (p : nat) (st : gmap nat pstate) : pstate :=
default {| momentum_buffer := None |} (st !! p).

Definition collect (p : nat) (acc : collected) : M world collected :=
let! w := get in
match grad (mem w p) with
| None => ret acc
| Some g =>
let entry := state_entry p (state w) in
modify (fun w => {| mem := mem w; state := <[p := entry]> (state w) |}) ;;;
ret {| params_with_grad := params_with_grad acc ++ [p];
   c_d_p_list := c_d_p_list acc ++ [values g];
   momentum_buffer_list :=
     momentum_buffer_list acc ++
     [match momentum_buffer entry with
      | None => None
      | Some b => b
      end] |}
end.

(** What [sgdw] did in place, seen through the objects its lists alias:
the parameters, and the buffers that already were in the state. *)
Fixpoint store_from (i : nat) (ids : list nat) (before after : lists) (w : world) : world :=
match ids with
| [] => w
| p :: ids' =>
let mem1 := match l_params after !! i with
        | Some t => set_data p t (mem w)
        | None => mem w
        end in
let st1 := match l_momentum_buffer_list before !! i, l_momentum_buffer_list after !! i with
       | Some (Some _), Some b => <[p := {| momentum_buffer := Some b |}]> (state w)
       | _, _ => state w
       end in
store_from (S i) ids' before after {| mem := mem1; state := st1 |}
end.

(** [state['momentum_buffer'] = momentum_buffer] *)
Definition attach (pb : nat * option tensor) : M world unit :=
modify (fun w => {| mem := mem w;
            state := <[pb.1 := {| momentum_buffer := Some pb.2 |}]> (state w) |}).

Definition step_group (g : group) : M world unit :=
let! initial_lr := (match initial_lr g with
            | Some x => ret x
            | None => raise KeyError
            end) in
let! c := fold_each (params g) collect
    {| params_with_grad := []; c_d_p_list := []; momentum_buffer_list := [] |} in
let! w := get in
let before := {| l_params := map (fun p => data (mem w p)) (params_with_grad c);
         l_momentum_buffer_list := momentum_buffer_list c |} in
let run := sgdw (c_d_p_list c) (weight_decay g) (momentum g) (lr g) initial_lr
        (dampening g) (nesterov g) before in
modify (store_from 0 (params_with_grad c) before run.1) ;;;
lift run.2 ;;;
for_each (zip (params_with_grad c) (l_momentum_buffer_list run.1)) attach.

Definition run_closure (closure : option closure_t) : M world (option R) :=
match closure with
| None => ret None
| Some f =>
fun w => let '(mem1, loss) := f (mem w) in
     ({| mem := mem1; state := state w |}, Ok (Some loss))
end.

Definition step (param_groups : list group) (closure : option closure_t) : M world (option R) :=
let! loss := run_closure closure in
for_each param_groups step_group ;;;
ret loss.

End DecoupledSGDW.

(** ** DecoupledAdamW *)

Module DecoupledAdamW.

Record group : Type := {
params : list nat;
lr : R;
betas : R * R;
eps : R;
weight_decay : R;
amsgrad : bool;
initial_lr : option R  (* [None]: the group dict has no 'initial_lr' key *)
}.

(** [self.state[p]] once initialised; ['step'] is [steps]. *)
Record pstate : Type := {
steps : nat;
exp_avg : tensor;
exp_avg_sq : tensor;
max_exp_avg_sq : option tensor  (* [None]: no 'max_exp_avg_sq' key *)
}.

Record world : Type := {
mem : memory;
param_groups : list group;
state : gmap nat pstate
}.

Definition with_initial_lr (x : R) (g : group) : group :=
{| params := params g; lr := lr g; betas := betas g; eps := eps g;
weight_decay := weight_decay g; amsgrad := amsgrad g; initial_lr := Some x |}.

(** [__init__]: every group remembers its learning rate. *)
Definition init (groups : list group) : list group :=
map (fun g => with_initial_lr (lr g) g) groups.

(** The lists [adamw] mutates. *)
Record lists : Type := {
l_params : list tensor;
l_exp_avgs : list tensor;
l_exp_avg_sqs : list tensor;
l_max_exp_avg_sqs : list tensor
}.

Definition set_param (i : nat) (t : tensor) : M lists unit :=
modify (fun a => {| l_params := <[i := t]> (l_params a); l_exp_avgs := l_exp_avgs a;
            l_exp_avg_sqs := l_exp_avg_sqs a;
            l_max_exp_avg_sqs := l_max_exp_avg_sqs a |}).
Definition set_exp_avg (i : nat) (t : tensor) : M lists unit :=
modify (fun a => {| l_params := l_params a; l_exp_avgs := <[i := t]> (l_exp_avgs a);
            l_exp_avg_sqs := l_exp_avg_sqs a;
            l_max_exp_avg_sqs := l_max_exp_avg_sqs a |}).
Definition set_exp_avg_sq (i : nat) (t : tensor) : M lists unit :=
modify (fun a => {| l_params := l_params a; l_exp_avgs := l_exp_avgs a;
            l_exp_avg_sqs := <[i := t]> (l_exp_avg_sqs a);
            l_max_exp_avg_sqs := l_max_exp_avg_sqs a |}).
Definition set_max_exp_avg_sq (i : nat) (t : tensor) : M lists unit :=
modify (fun a => {| l_params := l_params a; l_exp_avgs := l_exp_avgs a;
            l_exp_avg_sqs := l_exp_avg_sqs a;
            l_max_exp_avg_sqs := <[i := t]> (l_max_exp_avg_sqs a) |}).
Definition param_at (i : nat) : M lists tensor := fun a => index (l_params a) i a.
Definition exp_avg_at (i : nat) : M lists tensor := fun a => index (l_exp_avgs a) i a.
Definition exp_avg_sq_at (i : nat) : M lists tensor := fun a => index (l_exp_avg_sqs a) i a.
Definition max_exp_avg_sq_at (i : nat) : M lists tensor :=
fun a => index (l_max_exp_avg_sqs a) i a.

Section adamw.
Variable grads : list tensor.
Variable state_steps : list nat.
Variable amsgrad : bool.
Variables beta1 beta2 lr initial_lr weight_decay eps : R.

(** Perform stepweight decay *)
Definition decay_at (i : nat) : M lists unit :=
if Req_dec_T weight_decay 0 then ret tt
else
let! param := param_at i in
set_param i (mul_ param (1 - decay_factor lr initial_lr * weight_decay)).

(** The update of the two moments, then [denom] and [step_size]; returns
the new first moment with them. *)
Definition moments_at (grad exp_avg exp_avg_sq : tensor) (step : nat) (i : nat)
: M lists (tensor * tensor * R) :=
let bias_correction1 := 1 - beta1 ^ step in
let bias_correction2 := 1 - beta2 ^ step in
(* Decay the first and second moment running average coefficient *)
let exp_avg := add_ (mul_ exp_avg beta1) grad (1 - beta1) in
set_exp_avg i exp_avg ;;;
let exp_avg_sq := addcmul_ (mul_ exp_avg_sq beta2) grad grad (1 - beta2) in
set_exp_avg_sq i exp_avg_sq ;;;
let! denom :=
(if amsgrad then
(* Maintains the maximum of all 2nd moment running avg. till now *)
let! m := max_exp_avg_sq_at i in
let m := maximum m exp_avg_sq in
set_max_exp_avg_sq i m ;;;
(* Use the max. for normalizing running avg. of gradient *)
let! s := lift (math_sqrt bias_correction2) in
ret (add_scalar (div_scalar (tsqrt m) s) eps)
else
let! s := lift (math_sqrt bias_correction2) in
ret (add_scalar (div_scalar (tsqrt exp_avg_sq) s) eps)) in
let! step_size := lift (float_div lr bias_correction1) in
ret (exp_avg, denom, step_size).

(** the body of [for i, param in enumerate(params)] *)
Definition adamw_at (i : nat) : M lists unit :=
let! grad := index grads i in
let! exp_avg := exp_avg_at i in
let! exp_avg_sq := exp_avg_sq_at i in
let! step := index state_steps i in
decay_at i ;;;
let! '(exp_avg, denom, step_size) := moments_at grad exp_avg exp_avg_sq step i in
let! param := param_at i in
set_param i (addcdiv_ param exp_avg denom (- step_size)).

Definition adamw : M lists unit :=
fun a => for_each (seq 0 (length (l_params a))) adamw_at a.
End adamw.

(** The lists a group's loop over its parameters builds. *)
Record collected : Type := {
params_with_grad : list nat;
c_grads : list tensor;
exp_avgs : list tensor;
exp_avg_sqs : list tensor;
max_exp_avg_sqs : list tensor;
c_state_steps : list nat
}.

Definition no_lists : collected :=
{| params_with_grad := []; c_grads := []; exp_avgs := []; exp_avg_sqs := [];
max_exp_avg_sqs := []; c_state_steps := [] |}.

Definition set_state (p : nat) (s : pstate) : M world unit :=
modify (fun w => {| mem := mem w; param_groups := param_groups w;
            state := <[p := s]> (state w) |}).

(** State initialization, [if 'step' not in state] *)
Definition state_entry (amsgrad : bool) (p : nat) : M world pstate :=
let! w := get in
match state w !! p with
| Some s => ret s
| None =>
let z := zeros_like (data (mem w p)) in
let s := {| steps := 0; exp_avg := z; exp_avg_sq := z;
        max_exp_avg_sq := if amsgrad then Some z else None |} in
set_state p s ;;; ret s
end.

Definition collect (amsgrad : bool) (p : nat) (acc : collected) : M world collected :=
let! w := get in
match grad (mem w p) with
| None => ret acc
| Some g =>
if negb (requires_grad (mem w p)) then ret acc
else if is_sparse g then raise RuntimeError
else
let! s := state_entry amsgrad p in
let! maxes :=
(if amsgrad then
   match max_exp_avg_sq s with
   | Some m => ret (max_exp_avg_sqs acc ++ [m])
   | None => raise KeyError
   end
 else ret (max_exp_avg_sqs acc)) in
(* Update the steps for each param group update *)
let s' := {| steps := S (steps s); exp_avg := exp_avg s; exp_avg_sq := exp_avg_sq s;
           max_exp_avg_sq := max_exp_avg_sq s |} in
set_state p s' ;;;
ret {| params_with_grad := params_with_grad acc ++ [p];
     c_grads := c_grads acc ++ [values g];
     exp_avgs := exp_avgs acc ++ [exp_avg s];
     exp_avg_sqs := exp_avg_sqs acc ++ [exp_avg_sq s];
     max_exp_avg_sqs := maxes;
     c_state_steps := c_state_steps acc ++ [S (steps s)] |}
end.

(** What [adamw] did in place, seen through the objects its lists alias. *)
Definition store_state (amsgrad : bool) (i : nat) (after : lists) (s : pstate) : pstate :=
{| steps := steps s;
exp_avg := default (exp_avg s) (l_exp_avgs after !! i);
exp_avg_sq := default (exp_avg_sq s) (l_exp_avg_sqs after !! i);
max_exp_avg_sq := if amsgrad
             then match l_max_exp_avg_sqs after !! i with
                  | Some m => Some m
                  | None => max_exp_avg_sq s
                  end
             else max_exp_avg_sq s |}.

Fixpoint store_from (amsgrad : bool) (i : nat) (ids : list nat) (after : lists) (w : world)
: world :=
match ids with
| [] => w
| p :: ids' =>
let mem1 := match l_params after !! i with
        | Some t => set_data p t (mem w)
        | None => mem w
        end in
store_from amsgrad (S i) ids' after
{| mem := mem1; param_groups := param_groups w;
 state := alter (store_state amsgrad i after) p (state w) |}
end.

Definition step_group (g : group) : M world unit :=
let '(beta1, beta2) := betas g in
let initial_lr := default (lr g) (initial_lr g) in
let! c := fold_each (params g) (collect (amsgrad g)) no_lists in
let! w := get in
let before := {| l_params := map (fun p => data (mem w p)) (params_with_grad c);
         l_exp_avgs := exp_avgs c;
         l_exp_avg_sqs := exp_avg_sqs c;
         l_max_exp_avg_sqs := max_exp_avg_sqs c |} in
let run := adamw (c_grads c) (c_state_steps c) (amsgrad g) beta1 beta2 (lr g) initial_lr
         (weight_decay g) (eps g) before in
modify (store_from (amsgrad g) 0 (params_with_grad c) run.1) ;;;
lift run.2.

(** [if 'initial_lr' not in group: group['initial_lr'] = lr] *)
Definition default_initial_lr (g : group) : group :=
match initial_lr g with
| Some _ => g
| None => with_initial_lr (lr g) g
end.

(** the body of [for group in self.param_groups], by position *)
Definition step_at (i : nat) : M world unit :=
let! w := get in
let! g := index (param_groups w) i in
modify (fun w => {| mem := mem w;
            param_groups := <[i := default_initial_lr g]> (param_groups w);
            state := state w |}) ;;;
step_group (default_initial_lr g).

Definition run_closure (closure : option closure_t) : M world (option R) :=
match closure with
| None => ret None
| Some f =>
fun w => let '(mem1, loss) := f (mem w) in
     ({| mem := mem1; param_groups := param_groups w; state := state w |},
      Ok (Some loss))
end.

Definition step (closure : option closure_t) : M world (option R) :=
let! loss := run_closure closure in
let! w := get in
for_each (seq 0 (length (param_groups w))) step_at ;;;
ret loss.

(** *** The metric catalogue *)

(** the default [eps] of [torch.nn.functional.cosine_similarity] *)
Definition cosine_eps : R := / 100000000.

Definition the_grad (e : exn) (param : parameter) : result tensor :=
match grad param with
| Some g => Ok (values g)
| None => Raise e
end.

Definition metric_functions : list (string * (parameter -> pstate -> tensor -> result R)) :=
[ ("l2_norm/moment",
fun param optim_state step_tensor => Ok (vector_norm (exp_avg optim_state)));
("l2_norm/param",
fun param optim_state step_tensor => Ok (vector_norm (data param)));
("l2_norm/second_moment_sqrt",
fun param optim_state step_tensor => Ok (sqrt (vector_norm (exp_avg_sq optim_state))));
("l2_norm/update",
fun param optim_state step_tensor => Ok (vector_norm step_tensor));
("l2_norm/grad",
fun param optim_state step_tensor =>
match the_grad TypeError param with
| Ok g => Ok (vector_norm g)
| Raise e => Raise e
end);
("cosine/update_grad",
fun param optim_state step_tensor =>
match the_grad AttributeError param with
| Ok g => Ok (cosine_similarity cosine_eps g step_tensor)
| Raise e => Raise e
end);
("cosine/moment_grad",
fun param optim_state step_tensor =>
match the_grad AttributeError param with
| Ok g => Ok (cosine_similarity cosine_eps g (exp_avg optim_state))
| Raise e => Raise e
end) ]%string.

(** The step tensor [report_per_parameter_metrics] derives for a parameter
from hyperparameters and the parameter's state. *)
Definition step_tensor_of (lr eps weight_decay initial_lr beta1 beta2 : R)
(param : parameter) (param_optim_state : pstate) : result tensor :=
let step := steps param_optim_state in
let bias_correction1 := 1 - beta1 ^ step in
let bias_correction2 := 1 - beta2 ^ step in
match math_sqrt bias_correction2 with
| Raise e => Raise e
| Ok s =>
let denom := add_scalar (div_scalar (tsqrt (exp_avg_sq param_optim_state)) s) eps in
match float_div lr bias_correction1 with
| Raise e => Raise e
| Ok step_size =>
let step_tensor := scalar_mul step_size (tdiv (exp_avg param_optim_state) denom) in
let decay_factor := decay_factor lr initial_lr in
Ok (add_ step_tensor (data param) (- weight_decay * decay_factor))
end
end.

Definition report_per_parameter_metrics (w : world) (param : nat) (name : string)
: M metrics unit :=
let! g0 := index (param_groups w) 0 in
let! initial_lr := (match initial_lr g0 with
            | Some x => ret x
            | None => raise KeyError
            end) in
let '(beta1, beta2) := betas g0 in
match state w !! param with
| Some param_optim_state =>
let! step_tensor :=
lift (step_tensor_of (lr g0) (eps g0) (weight_decay g0) initial_lr beta1 beta2
      (mem w param) param_optim_state) in
for_each metric_functions
(fun mf => let! v := lift (mf.2 (mem w param) param_optim_state step_tensor) in
         setitem (mf.1 +:+ "/" +:+ name) v)
| None => ret tt
end.

End DecoupledAdamW.

(** The value [all_reduce] leaves for a key that held [v]. *)
Definition summed (world_size : nat) (peer_sum : string -> R) (k : string) (v : R) : R :=
  if (1 <? world_size)%nat then v + peer_sum k else v.

(** The two [l2_norm] keys a [cosine/<A>_<B>/<layer>] key refers to, as both
    passes parse them. *)
Definition cosine_norm_keys (metric : string) : result (string * string) :=
  match unpack3 (split "/" metric) with
  | Ok (_, vectors, layer) =>
      match unpack2 (split "_" vectors) with
      | Ok (A, B) => Ok (norm_key A layer, norm_key B layer)
      | Raise e => Raise e
      end
  | Raise e => Raise e
  end.

(** A metric record as the data model describes it: distinct keys, norms
    that are not negative, and for every cosine entry the two norm entries
    it refers to. *)
Definition well_formed (m : metrics) : Prop :=
  NoDup (keys m) /\
  (forall k v, startswith k "l2_norm" = true -> lookup_metric k m = Some v -> 0 <= v) /\
  (forall k, k ∈ keys m -> startswith k "l2_norm" = false -> startswith k "cosine" = true ->
     exists a b, cosine_norm_keys k = Ok (a, b) /\ a ∈ keys m /\ b ∈ keys m).

(** What the other ranks contribute to the collective call for a key: the
    value each of them holds for it after its own pre-reduce pass. *)
Definition peer_sum_of (peers : list metrics) (k : string) : R :=
  sum_list (map (fun m => default 0 (lookup_metric k (pre_reduce_metrics m).1)) peers).

(** The passes in the order a rank runs them: the local transform, then the
    reduction with the other ranks and the reconstruction. *)
Definition reduce_metrics (peers : list metrics) : M metrics unit :=
  pre_reduce_metrics ;;;
  dist_reduce_metrics (S (length peers)) (peer_sum_of peers).

(** What the loops of the two passes keep true of the record they work on,
    [m0] being the record they started from. *)
Definition kept (m0 m : metrics) : Prop :=
  keys m = keys m0 /\
  (forall k v, startswith k "l2_norm" = true -> lookup_metric k m = Some v -> 0 <= v).

(** A record whose cosine entry comes before the norm entries it refers to:
    one rank holding the whole of the vectors a = [2] and b = [2]. *)
Definition cosine_first : metrics :=
  [ ("cosine/a_b/L", cosine_similarity DecoupledAdamW.cosine_eps [2] [2]);
    ("l2_norm/a/L", vector_norm [2]);
    ("l2_norm/b/L", vector_norm [2]) ]%string.

(** The same shape of record with plain numbers. *)
Definition cosine_before_norms : metrics :=
  [ ("cosine/u_v/fc", / 2); ("l2_norm/u/fc", 3); ("l2_norm/v/fc", 3) ]%string.



(** What a step of [DecoupledSGDW] may change between two worlds: the data
    and the state of parameters that have a gradient. *)
Definition sgd_frame (w0 w : DecoupledSGDW.world) : Prop :=
  (forall q, grad (DecoupledSGDW.mem w q) = grad (DecoupledSGDW.mem w0 q)) /\
  (forall q, grad (DecoupledSGDW.mem w0 q) = None ->
             DecoupledSGDW.mem w q = DecoupledSGDW.mem w0 q /\
             DecoupledSGDW.state w !! q = DecoupledSGDW.state w0 !! q).

(** Two readings of "the state holds no momentum buffer": no state dict has
    the key, or no state dict maps the key to a tensor. *)
Definition no_buffer_entry (st : gmap nat DecoupledSGDW.pstate) : Prop :=
  forall p s, st !! p = Some s -> DecoupledSGDW.momentum_buffer s = None.

Definition no_buffer_tensor (st : gmap nat DecoupledSGDW.pstate) : Prop :=
  forall p s b, st !! p = Some s -> DecoupledSGDW.momentum_buffer s <> Some (Some b).

(** Successive calls of [DecoupledSGDW.step], each with the parameter groups
    as they are configured at that call and with a closure, which also
    stands for the gradients the host computes between two calls. *)
Fixpoint sgd_steps (calls : list (list DecoupledSGDW.group * option closure_t))
    (w : DecoupledSGDW.world) : DecoupledSGDW.world :=
  match calls with
  | [] => w
  | (groups, closure) :: calls' => sgd_steps calls' (DecoupledSGDW.step groups closure w).1
  end.

(** One parameter, with a gradient, in one group without momentum. *)
Definition sgd_plain_group : DecoupledSGDW.group :=
  {| DecoupledSGDW.params := [0%nat]; DecoupledSGDW.lr := 1; DecoupledSGDW.momentum := 0;
     DecoupledSGDW.dampening := 0; DecoupledSGDW.weight_decay := 0;
     DecoupledSGDW.nesterov := false; DecoupledSGDW.initial_lr := Some 1 |}.

Definition sgd_plain_world : DecoupledSGDW.world :=
  {| DecoupledSGDW.mem := fun _ => {| data := [4];
                                      grad := Some {| is_sparse := false; values := [1] |};
                                      requires_grad := true |};
     DecoupledSGDW.state := ∅ |}.

(** A parameter the Adam variant passes over. *)
Definition adam_skipped (mem : memory) (q : nat) : Prop :=
  grad (mem q) = None \/ requires_grad (mem q) = false.

(** What a step of [DecoupledAdamW] may change between two worlds, apart
    from the groups' 'initial_lr': the data and the state of parameters that
    are not passed over. *)
Definition adam_frame (w0 w : DecoupledAdamW.world) : Prop :=
  (forall q, grad (DecoupledAdamW.mem w q) = grad (DecoupledAdamW.mem w0 q) /\
             requires_grad (DecoupledAdamW.mem w q) = requires_grad (DecoupledAdamW.mem w0 q)) /\
  (forall q, adam_skipped (DecoupledAdamW.mem w0) q ->
             DecoupledAdamW.mem w q = DecoupledAdamW.mem w0 q /\
             DecoupledAdamW.state w !! q = DecoupledAdamW.state w0 !! q).

(** The parameters a group's loop collects are not passed over. *)
Definition collected_ok (w0 : DecoupledAdamW.world) (ids : list nat) : Prop :=
  Forall (fun q => ~ adam_skipped (DecoupledAdamW.mem w0) q) ids.


(** A memory in which only parameter 0 has a gradient. *)
Definition one_gradient : memory :=
  fun q => if (q =? 0)%nat
           then {| data := [4]; grad := Some {| is_sparse := false; values := [1] |};
                   requires_grad := true |}
           else {| data := [2]; grad := None; requires_grad := true |}.


(** One group over the parameters 0 and 1, with lr = initial_lr = 1,
    betas = (0, 0), eps = 1 and weight_decay = 1/2. *)
Definition adam_group : DecoupledAdamW.group :=
  {| DecoupledAdamW.params := [0%nat; 1%nat]; DecoupledAdamW.lr := 1;
     DecoupledAdamW.betas := (0, 0); DecoupledAdamW.eps := 1;
     DecoupledAdamW.weight_decay := / 2; DecoupledAdamW.amsgrad := false;
     DecoupledAdamW.initial_lr := Some 1 |}.

Definition adam_world (mem : memory) : DecoupledAdamW.world :=
  {| DecoupledAdamW.mem := mem; DecoupledAdamW.param_groups := [adam_group];
     DecoupledAdamW.state := ∅ |}.



(** The world [adam_world one_gradient] one step later. *)
Definition adam_stepped : DecoupledAdamW.world :=
  {| DecoupledAdamW.mem := set_data 0 [3 / 2] one_gradient;
     DecoupledAdamW.param_groups := [adam_group];
     DecoupledAdamW.state :=
       {[ 0%nat := {| DecoupledAdamW.steps := 1; DecoupledAdamW.exp_avg := [1];
                      DecoupledAdamW.exp_avg_sq := [1];
                      DecoupledAdamW.max_exp_avg_sq := None |} ]} |}.

(** A parameter of two elements after a first step with betas = (0, 0) on
    the gradient [3; 4]: the second moment is the squared gradient. *)
Definition two_elements : DecoupledAdamW.world :=
  {| DecoupledAdamW.mem :=
       fun _ => {| data := [1; 1]; grad := Some {| is_sparse := false; values := [3; 4] |};
                   requires_grad := true |};
     DecoupledAdamW.param_groups := [adam_group];
     DecoupledAdamW.state :=
       {[ 0%nat := {| DecoupledAdamW.steps := 1; DecoupledAdamW.exp_avg := [3; 4];
                      DecoupledAdamW.exp_avg_sq := [9; 16];
                      DecoupledAdamW.max_exp_avg_sq := None |} ]} |}.

(** The order of keys that [report_per_parameter_metrics] produces: a cosine
    key does not contain "l2_norm" and comes after the two norm keys it
    refers to. *)
Definition norms_first (m : metrics) : Prop :=
  forall l1 c l2,
    keys m = l1 ++ c :: l2 -> startswith c "cosine" = true ->
    contains "l2_norm" c = false /\
    exists a b, cosine_norm_keys c = Ok (a, b) /\ a ∈ l1 /\ b ∈ l1.

(** What a rank holds for a pair of vectors of a layer, of which [A] and [B]
    are its shards: the two norms and the cosine similarity, torch's clamp of
    the denominator not being active. *)
Definition holds_shards (m : metrics) (a b c : string) (A B : tensor) : Prop :=
  lookup_metric a m = Some (vector_norm A) /\
  lookup_metric b m = Some (vector_norm B) /\
  lookup_metric c m = Some (cosine_similarity DecoupledAdamW.cosine_eps A B) /\
  length A = length B /\
  (DecoupledAdamW.cosine_eps <= vector_norm A * vector_norm B \/ dot A B = 0).

(** The record of one rank for one layer [L] and the pair of vectors [a]
    and [b], in the order [report_per_parameter_metrics] writes it: the norm
    entries, then the cosine entry. *)
Definition norms_then_cosine (A B : tensor) : metrics :=
  [ ("l2_norm/a/L", vector_norm A);
    ("l2_norm/b/L", vector_norm B);
    ("cosine/a_b/L", cosine_similarity DecoupledAdamW.cosine_eps A B) ]%string.

(** A record whose cosine entry refers to a norm that is missing, and whose
    only norm entry is negative. *)
Definition missing_norm : metrics :=
  [ ("cosine/a_b/L", / 2); ("l2_norm/a/L", - 3) ]%string.

(** What [sgdw] leaves at one position of its lists: the buffer (the first
    update with momentum copies the gradient) and the parameter after the
    decay and the step along the direction [d]. *)
Definition sgdw_buffer (momentum dampening : R) (buf : option tensor) (d_p : tensor) : tensor :=
  match buf with
  | None => d_p
  | Some b => add_ (mul_ b momentum) d_p (1 - dampening)
  end.

Definition decayed (weight_decay lr initial_lr : R) (p : tensor) : tensor :=
  if Req_dec_T weight_decay 0 then p
  else mul_ p (1 - decay_factor lr initial_lr * weight_decay).

(** What [adamw] leaves at one position of its lists: the two moments, and
    the denominator built from a second moment [v] at step [step]. *)
Definition adam_exp_avg (beta1 : R) (exp_avg grad : tensor) : tensor :=
  add_ (mul_ exp_avg beta1) grad (1 - beta1).

Definition adam_exp_avg_sq (beta2 : R) (exp_avg_sq grad : tensor) : tensor :=
  addcmul_ (mul_ exp_avg_sq beta2) grad grad (1 - beta2).

Definition adam_denom (beta2 eps : R) (step : nat) (v : tensor) : tensor :=
  add_scalar (div_scalar (tsqrt v) (sqrt (1 - beta2 ^ step))) eps.

(** A group that was given no 'initial_lr' (one added after construction,
    say), over a parameter without gradient. *)
Definition bare_group : DecoupledAdamW.group :=
  {| DecoupledAdamW.params := [0%nat]; DecoupledAdamW.lr := 3;
     DecoupledAdamW.betas := (0, 0); DecoupledAdamW.eps := 1;
     DecoupledAdamW.weight_decay := 0; DecoupledAdamW.amsgrad := false;
     DecoupledAdamW.initial_lr := None |}.

Definition bare_world : DecoupledAdamW.world :=
  {| DecoupledAdamW.mem := fun _ => {| data := [1]; grad := None; requires_grad := true |};
     DecoupledAdamW.param_groups := [bare_group];
     DecoupledAdamW.state := ∅ |}.

(** Conditions under which [DecoupledAdamW.step] has nothing to raise: the
    groups share the amsgrad flag and have betas in the usual range, every
    state entry has its 'max_exp_avg_sq' when the flag is set, and no
    parameter that requires gradients carries a sparse one. *)
Definition betas_ok (flag : bool) (g : DecoupledAdamW.group) : Prop :=
  DecoupledAdamW.amsgrad g = flag /\
  0 <= (DecoupledAdamW.betas g).1 < 1 /\ 0 <= (DecoupledAdamW.betas g).2 <= 1.

Definition adam_ready (flag : bool) (st : gmap nat DecoupledAdamW.pstate) : Prop :=
  flag = true -> forall p s, st !! p = Some s -> is_Some (DecoupledAdamW.max_exp_avg_sq s).

Definition dense (mem : memory) : Prop :=
  forall p gr, grad (mem p) = Some gr -> requires_grad (mem p) = true -> is_sparse gr = false.

(** The lists a group's loop has collected have one entry per collected
    parameter (the list of maxima with amsgrad only). *)
Definition collected_lengths (flag : bool) (c : DecoupledAdamW.collected) : Prop :=
  let n := length (DecoupledAdamW.params_with_grad c) in
  length (DecoupledAdamW.c_grads c) = n /\ length (DecoupledAdamW.exp_avgs c) = n /\
  length (DecoupledAdamW.exp_avg_sqs c) = n /\ length (DecoupledAdamW.c_state_steps c) = n /\
  (flag = true -> length (DecoupledAdamW.max_exp_avg_sqs c) = n).

(** What a step of [DecoupledSGDW] finds and leaves for one parameter: the
    buffer its state holds ([None] when the state has no entry, no
    'momentum_buffer' key, or the key maps to [None]), the buffer the step
    stores, and the direction the parameter moves along. *)
Definition old_buffer (st : gmap nat DecoupledSGDW.pstate) (p : nat) : option tensor :=
  match st !! p with
  | Some s => match DecoupledSGDW.momentum_buffer s with
              | Some b => b
              | None => None
              end
  | None => None
  end.

Definition sgd_new_buffer (g : DecoupledSGDW.group) (old : option tensor) (d_p : tensor)
  : option tensor :=
  if Req_dec_T (DecoupledSGDW.momentum g) 0 then old
  else Some (sgdw_buffer (DecoupledSGDW.momentum g) (DecoupledSGDW.dampening g) old d_p).

Definition sgd_direction (g : DecoupledSGDW.group) (old : option tensor) (d_p : tensor)
  : tensor :=
  if Req_dec_T (DecoupledSGDW.momentum g) 0 then d_p
  else
    let buf := sgdw_buffer (DecoupledSGDW.momentum g) (DecoupledSGDW.dampening g) old d_p in
    if DecoupledSGDW.nesterov g then add_ d_p buf (DecoupledSGDW.momentum g) else buf.

Definition has_grad (mem : memory) (p : nat) : bool :=
  match grad (mem p) with Some _ => true | None => false end.

Definition grad_values (mem : memory) (p : nat) : tensor :=
  match grad (mem p) with Some g => values g | None => [] end.

(** What a step of [DecoupledAdamW] finds and leaves for one parameter:
    whether the group's loop collects it, the state entry the loop works on
    (the one the state holds, or the zeros of the state initialization), and
    the entry and the value after the update. *)
Definition adam_collects (mem : memory) (q : nat) : bool :=
  match grad (mem q) with
  | Some _ => requires_grad (mem q)
  | None => false
  end.

Definition adam_entry (flag : bool) (w : DecoupledAdamW.world) (q : nat)
  : DecoupledAdamW.pstate :=
  default
    {| DecoupledAdamW.steps := 0;
       DecoupledAdamW.exp_avg := zeros_like (data (DecoupledAdamW.mem w q));
       DecoupledAdamW.exp_avg_sq := zeros_like (data (DecoupledAdamW.mem w q));
       DecoupledAdamW.max_exp_avg_sq :=
         if flag then Some (zeros_like (data (DecoupledAdamW.mem w q))) else None |}
    (DecoupledAdamW.state w !! q).

Definition bumped (s : DecoupledAdamW.pstate) : DecoupledAdamW.pstate :=
  {| DecoupledAdamW.steps := S (DecoupledAdamW.steps s);
     DecoupledAdamW.exp_avg := DecoupledAdamW.exp_avg s;
     DecoupledAdamW.exp_avg_sq := DecoupledAdamW.exp_avg_sq s;
     DecoupledAdamW.max_exp_avg_sq := DecoupledAdamW.max_exp_avg_sq s |}.

Definition adam_state_after (g : DecoupledAdamW.group) (s : DecoupledAdamW.pstate)
    (grad : tensor) : DecoupledAdamW.pstate :=
  let v' := adam_exp_avg_sq (DecoupledAdamW.betas g).2 (DecoupledAdamW.exp_avg_sq s) grad in
  {| DecoupledAdamW.steps := S (DecoupledAdamW.steps s);
     DecoupledAdamW.exp_avg :=
       adam_exp_avg (DecoupledAdamW.betas g).1 (DecoupledAdamW.exp_avg s) grad;
     DecoupledAdamW.exp_avg_sq := v';
     DecoupledAdamW.max_exp_avg_sq :=
       if DecoupledAdamW.amsgrad g
       then Some (maximum (default [] (DecoupledAdamW.max_exp_avg_sq s)) v')
       else DecoupledAdamW.max_exp_avg_sq s |}.

Definition adam_value_after (g : DecoupledAdamW.group) (initial_lr : R)
    (s : DecoupledAdamW.pstate) (p grad : tensor) : tensor :=
  let st := adam_state_after g s grad in
  addcdiv_
    (decayed (DecoupledAdamW.weight_decay g) (DecoupledAdamW.lr g) initial_lr p)
    (DecoupledAdamW.exp_avg st)
    (adam_denom (DecoupledAdamW.betas g).2 (DecoupledAdamW.eps g) (DecoupledAdamW.steps st)
       (if DecoupledAdamW.amsgrad g
        then default [] (DecoupledAdamW.max_exp_avg_sq st)
        else DecoupledAdamW.exp_avg_sq st))
    (- (DecoupledAdamW.lr g / (1 - (DecoupledAdamW.betas g).1 ^ DecoupledAdamW.steps st))).

(** The state dict of a parameter has the 'momentum_buffer' key, mapped to
    [None]. *)
Definition holds_none (st : gmap nat DecoupledSGDW.pstate) (p : nat) : Prop :=
  st !! p = Some {| DecoupledSGDW.momentum_buffer := Some None |}.

(** One group without weight decay over parameter 0, with lr = initial_lr = 1,
    betas = (0, 0) and eps = 1, on [one_gradient] with an empty state. *)
Definition adam_plain_group : DecoupledAdamW.group :=
  {| DecoupledAdamW.params := [0%nat]; DecoupledAdamW.lr := 1;
     DecoupledAdamW.betas := (0, 0); DecoupledAdamW.eps := 1;
     DecoupledAdamW.weight_decay := 0; DecoupledAdamW.amsgrad := false;
     DecoupledAdamW.initial_lr := Some 1 |}.

Definition adam_plain_world : DecoupledAdamW.world :=
  {| DecoupledAdamW.mem := one_gradient; DecoupledAdamW.param_groups := [adam_plain_group];
     DecoupledAdamW.state := ∅ |}.

Definition adam_plain_stepped : DecoupledAdamW.world :=
  (DecoupledAdamW.step None adam_plain_world).1.

(** * Properties *)

Example split_cosine_key :
  split "/" "cosine/update_grad/fc.weight" = ["cosine"; "update_grad"; "fc.weight"]%string.
Proof. reflexivity. Qed.

Example sorted_l2_first :
  sorted l2_first ["cosine/a_b/L"; "l2_norm/a/L"; "loss"; "l2_norm/b/L"]%string
  = ["l2_norm/a/L"; "l2_norm/b/L"; "cosine/a_b/L"; "loss"]%string.
Proof. reflexivity. Qed.

(** ** Stateful computations *)

Lemma bind_ok {S A B} (c : M S A) (k : A -> M S B) s s' b :
  bind c k s = (s', Ok b) -> exists s1 a, c s = (s1, Ok a) /\ k a s1 = (s', Ok b).
Proof.
  unfold bind. destruct (c s) as [s1 [a|e]]; intros H.
  - eauto.
  - discriminate.
Qed.

Lemma for_each_cons_ok {S A} (x : A) xs (body : A -> M S unit) s s' :
  for_each (x :: xs) body s = (s', Ok tt) ->
  exists s1, body x s = (s1, Ok tt) /\ for_each xs body s1 = (s', Ok tt).
Proof.
  intros H. apply bind_ok in H as (s1 & [] & H1 & H2). eauto.
Qed.

Lemma for_each_app {S A} (xs ys : list A) (body : A -> M S unit) s :
  for_each (xs ++ ys) body s =
  match for_each xs body s with
  | (s1, Ok _) => for_each ys body s1
  | (s1, Raise e) => (s1, Raise e)
  end.
Proof.
  revert s. induction xs as [|x xs IH]; intros s; [reflexivity|].
  simpl. destruct (body x s) as [s1 [[]|e]]; [apply IH | reflexivity].
Qed.

(** A property of the store that every iteration preserves, whatever its
    outcome, holds when the loop is left. *)
Lemma for_each_preserves {S A} (P : S -> Prop) (xs : list A) (body : A -> M S unit) :
  (forall x s, x ∈ xs -> P s -> P (body x s).1) ->
  forall s, P s -> P (for_each xs body s).1.
Proof.
  induction xs as [|x xs IH]; intros Hbody s Hs; [exact Hs|].
  simpl. pose proof (Hbody x s ltac:(left) Hs) as H1.
  destruct (body x s) as [s1 [[]|e]]; simpl in *; [|exact H1].
  apply IH; [|exact H1]. intros y t Hy. apply Hbody. by right.
Qed.

(** ** Scalars *)

Lemma math_sqrt_ok x : 0 <= x -> math_sqrt x = Ok (sqrt x).
Proof. intros H. unfold math_sqrt. destruct (Rlt_dec x 0); [lra | reflexivity]. Qed.

Lemma math_sqrt_inv x y : math_sqrt x = Ok y -> 0 <= x /\ y = sqrt x.
Proof.
  unfold math_sqrt. destruct (Rlt_dec x 0); [discriminate|].
  intros [= <-]. split; [lra | reflexivity].
Qed.

Lemma sqrt_pow2 x : 0 <= x -> sqrt (x ^ 2) = x.
Proof. intros H. replace (x ^ 2) with (x * x) by ring. by apply sqrt_square. Qed.



Lemma decay_factor_same lr : decay_factor lr lr = 1.
Proof.
  unfold decay_factor. destruct (Req_dec_T lr 0); [reflexivity|]. by field.
Qed.

(** ** The metric record *)

Lemma lookup_assign_eq k v m : lookup_metric k (assign k v m) = Some v.
Proof.
  induction m as [|[k' v'] m IH]; simpl.
  - by rewrite String.eqb_refl.
  - destruct (String.eqb k k') eqn:E; simpl; rewrite E; [reflexivity | exact IH].
Qed.

Lemma lookup_assign_ne k k' v m : k <> k' -> lookup_metric k' (assign k v m) = lookup_metric k' m.
Proof.
  intros Hne. induction m as [|[k0 v0] m IH]; simpl.
  - destruct (String.eqb k' k) eqn:E; [|reflexivity].
    apply String.eqb_eq in E. congruence.
  - destruct (String.eqb k k0) eqn:E; simpl.
    + apply String.eqb_eq in E as <-.
      destruct (String.eqb k' k) eqn:E'; [|reflexivity].
      apply String.eqb_eq in E'. congruence.
    + by rewrite IH.
Qed.

Lemma lookup_metric_Some k m v : lookup_metric k m = Some v -> k ∈ keys m.
Proof.
  induction m as [|[k' v'] m IH]; simpl; [discriminate|].
  destruct (String.eqb k k') eqn:E.
  - apply String.eqb_eq in E as <-. intros _. left.
  - intros H. right. by apply IH.
Qed.

Lemma lookup_metric_is_Some k m : k ∈ keys m -> is_Some (lookup_metric k m).
Proof.
  induction m as [|[k' v'] m IH]; simpl.
  - intros H. by apply elem_of_nil in H.
  - intros H. destruct (String.eqb k k') eqn:E; [by eexists|].
    apply IH. apply elem_of_cons in H as [->|H]; [|done].
    by rewrite String.eqb_refl in E.
Qed.

Lemma keys_assign k v m : k ∈ keys m -> keys (assign k v m) = keys m.
Proof.
  induction m as [|[k' v'] m IH]; simpl.
  - intros H. by apply elem_of_nil in H.
  - intros H. destruct (String.eqb k k') eqn:E; simpl; [reflexivity|].
    f_equal. apply IH. apply elem_of_cons in H as [->|H]; [|done].
    by rewrite String.eqb_refl in E.
Qed.

Lemma pre_reduce_metric_frame k m m' r k' :
  pre_reduce_metric k m = (m', r) -> k' <> k -> lookup_metric k' m' = lookup_metric k' m.
Proof.
  intros H Hne. unfold pre_reduce_metric in H.
  repeat case_match; cbn in H; repeat case_match; simplify_eq; try reflexivity.
  all: by rewrite lookup_assign_ne.
Qed.

Lemma pre_reduce_metric_keys k m m' r :
  k ∈ keys m -> pre_reduce_metric k m = (m', r) -> keys m' = keys m.
Proof.
  intros Hk H. unfold pre_reduce_metric in H.
  repeat case_match; cbn in H; repeat case_match; simplify_eq; try reflexivity.
  all: by rewrite keys_assign.
Qed.

Lemma pre_reduce_metric_l2 k m v :
  startswith k "l2_norm" = true -> lookup_metric k m = Some v ->
  pre_reduce_metric k m = (assign k (v ^ 2) m, Ok tt).
Proof.
  intros Hk Hv. unfold pre_reduce_metric. rewrite Hk. cbn. by rewrite Hv.
Qed.

Lemma sorted_perm key l : sorted key l ≡ₚ l.
Proof.
  induction l as [|x l IH]; simpl; [done|].
  rewrite <- IH at 2. generalize (sorted key l). clear.
  intros l. induction l as [|y l IH]; simpl; [done|].
  destruct (key x <=? key y)%nat; [done|].
  rewrite IH. apply Permutation_swap.
Qed.

Section LoopOverKeys.
Variable body : string -> M metrics unit.
Hypothesis body_frame : forall k m m' r k',
body k m = (m', r) -> k' <> k -> lookup_metric k' m' = lookup_metric k' m.

Lemma loop_frame ks m m' r k' :
for_each ks body m = (m', r) -> k' ∉ ks -> lookup_metric k' m' = lookup_metric k' m.
Proof.
revert m. induction ks as [|k ks IH]; intros m H Hk'.
- by injection H as <- _.
- apply not_elem_of_cons in Hk' as [Hne Hk'].
simpl in H. destruct (body k m) as [m1 [[]|e]] eqn:E.
+ rewrite (IH _ H Hk'). eauto.
+ injection H as <- _. eauto.
Qed.

(** With distinct keys, the entry of [k] is the one its own iteration
wrote, computed from the value the entry had at the start. *)
Lemma loop_entry ks m m' k (f : R -> R) v :
NoDup ks -> k ∈ ks ->
(forall m0 m1, lookup_metric k m0 = Some v -> body k m0 = (m1, Ok tt) ->
       lookup_metric k m1 = Some (f v)) ->
for_each ks body m = (m', Ok tt) ->
lookup_metric k m = Some v ->
lookup_metric k m' = Some (f v).
Proof.
intros Hnd Hk Hbody. revert m. induction ks as [|k0 ks IH]; intros m H Hv.
- by apply elem_of_nil in Hk.
- apply NoDup_cons in Hnd as [Hk0 Hnd].
apply for_each_cons_ok in H as (m1 & H1 & H2).
apply elem_of_cons in Hk as [->|Hk].
+ rewrite (loop_frame _ _ _ _ _ H2 Hk0). eauto.
+ apply (IH Hnd Hk m1 H2).
rewrite (body_frame _ _ _ _ _ H1); [done|]. set_solver.
Qed.
End LoopOverKeys.

Lemma dist_reduce_metric_frame ws ps k m m' r k' :
  dist_reduce_metric ws ps k m = (m', r) -> k' <> k -> lookup_metric k' m' = lookup_metric k' m.
Proof.
  intros H Hne. unfold dist_reduce_metric, all_reduce in H.
  repeat case_match; cbn in H; repeat case_match; simplify_eq; try reflexivity.
  all: by rewrite ?lookup_assign_ne.
Qed.

Lemma dist_reduce_metric_l2 ws ps k m m' v :
  startswith k "l2_norm" = true -> lookup_metric k m = Some v ->
  dist_reduce_metric ws ps k m = (m', Ok tt) ->
  lookup_metric k m' = Some (sqrt (summed ws ps k v)).
Proof.
  intros Hk Hv H. unfold dist_reduce_metric, all_reduce, summed in *. rewrite Hk in H.
  cbn -[Nat.ltb] in H. rewrite Hv in H.
  destruct (1 <? ws)%nat; cbn in H;
    (destruct (math_sqrt _) as [y|] eqn:E in H; cbn in H; simplify_eq);
    apply math_sqrt_inv in E as [_ ->]; by rewrite lookup_assign_eq.
Qed.

Lemma pre_reduce_l2 m m1 k v :
  NoDup (keys m) ->
  pre_reduce_metrics m = (m1, Ok tt) ->
  startswith k "l2_norm" = true -> lookup_metric k m = Some v ->
  lookup_metric k m1 = Some (v ^ 2).
Proof.
  intros Hnd H Hk Hv. unfold pre_reduce_metrics in H.
  eapply (loop_entry _ pre_reduce_metric_frame _ _ _ _ (fun x => x ^ 2)); [| |..|exact H|exact Hv].
  - by rewrite sorted_perm.
  - rewrite sorted_perm. by eapply lookup_metric_Some.
  - intros m0 m2 Hv0 Hb. rewrite (pre_reduce_metric_l2 _ _ _ Hk Hv0) in Hb.
    injection Hb as <-. apply lookup_assign_eq.
Qed.

Lemma dist_reduce_l2 ws ps m m2 k v :
  NoDup (keys m) ->
  dist_reduce_metrics ws ps m = (m2, Ok tt) ->
  startswith k "l2_norm" = true -> lookup_metric k m = Some v ->
  lookup_metric k m2 = Some (sqrt (summed ws ps k v)).
Proof.
  intros Hnd H Hk Hv. unfold dist_reduce_metrics in H.
  eapply (loop_entry _ (dist_reduce_metric_frame ws ps) _ _ _ _
            (fun x => sqrt (summed ws ps k x))); [done| |..|exact H|exact Hv].
  - by eapply lookup_metric_Some.
  - intros m0 m3 Hv0 Hb. by eapply dist_reduce_metric_l2.
Qed.

Lemma for_each_total {S A} (I : S -> Prop) (xs : list A) (body : A -> M S unit) :
  (forall x s, x ∈ xs -> I s -> exists s', body x s = (s', Ok tt) /\ I s') ->
  forall s, I s -> exists s', for_each xs body s = (s', Ok tt) /\ I s'.
Proof.
  induction xs as [|x xs IH]; intros Hbody s Hs; [by exists s|].
  destruct (Hbody x s ltac:(left) Hs) as (s1 & E1 & H1).
  destruct (IH (fun y t Hy => Hbody y t ltac:(by right)) s1 H1) as (s2 & E2 & H2).
  exists s2. split; [|done]. simpl. by rewrite E1.
Qed.

Lemma cosine_norm_keys_l2 k a b :
  cosine_norm_keys k = Ok (a, b) ->
  startswith a "l2_norm" = true /\ startswith b "l2_norm" = true.
Proof.
  unfold cosine_norm_keys. intros H. repeat case_match; simplify_eq. done.
Qed.

Lemma pre_reduce_metric_cosine k a b m va vb vc :
  startswith k "l2_norm" = false -> startswith k "cosine" = true ->
  cosine_norm_keys k = Ok (a, b) ->
  lookup_metric a m = Some va -> lookup_metric b m = Some vb -> lookup_metric k m = Some vc ->
  0 <= va -> 0 <= vb ->
  pre_reduce_metric k m = (assign k (vc * (sqrt va * sqrt vb)) m, Ok tt).
Proof.
  intros H1 H2 Hp Ha Hb Hc Hva Hvb. unfold pre_reduce_metric, cosine_norm_keys in *.
  rewrite H1, H2.
  destruct (unpack3 (split "/" k)) as [[[x vectors] layer]|] eqn:E3; [|discriminate].
  destruct (unpack2 (split "_" vectors)) as [[A B]|] eqn:E2; [|discriminate].
  simplify_eq. cbn -[math_sqrt]. rewrite E2. cbn -[math_sqrt]. rewrite Ha, (math_sqrt_ok _ Hva). cbn -[math_sqrt].
  rewrite Hb, (math_sqrt_ok _ Hvb). cbn. by rewrite Hc.
Qed.

Lemma dist_reduce_metric_cosine ws ps k a b m va vb vc :
  startswith k "l2_norm" = false -> startswith k "cosine" = true ->
  cosine_norm_keys k = Ok (a, b) ->
  lookup_metric a m = Some va -> lookup_metric b m = Some vb -> lookup_metric k m = Some vc ->
  exists m', dist_reduce_metric ws ps k m = (m', Ok tt) /\
             keys m' = keys m /\
             lookup_metric k m' = Some (summed ws ps k vc / (va * vb)).
Proof.
  intros H1 H2 Hp Ha Hb Hc.
  assert (Hk : k ∈ keys m) by (by eapply lookup_metric_Some).
  assert (Hka : k <> a).
  { intros <-. apply cosine_norm_keys_l2 in Hp as [? _]. congruence. }
  assert (Hkb : k <> b).
  { intros <-. apply cosine_norm_keys_l2 in Hp as [_ ?]. congruence. }
  unfold dist_reduce_metric, all_reduce, summed, cosine_norm_keys in *.
  rewrite H1, H2.
  destruct (unpack3 (split "/" k)) as [[[x vectors] layer]|] eqn:E3; [|discriminate].
  destruct (unpack2 (split "_" vectors)) as [[A B]|] eqn:E2; [|discriminate].
  simplify_eq. cbn -[Nat.ltb]. rewrite Hc. destruct (1 <? ws)%nat; cbn; rewrite E2; cbn.
  - rewrite lookup_assign_ne, Ha by done. cbn.
    rewrite lookup_assign_ne, Hb by done. cbn.
    eexists. split; [reflexivity|]. rewrite lookup_assign_eq, !keys_assign; [done|done|].
    by rewrite keys_assign.
  - rewrite Ha. cbn. rewrite Hb. cbn.
    eexists. split; [reflexivity|]. by rewrite lookup_assign_eq, !keys_assign.
Qed.
Lemma kept_assign m0 m k v :
  kept m0 m -> k ∈ keys m0 -> (startswith k "l2_norm" = true -> 0 <= v) ->
  kept m0 (assign k v m).
Proof.
  intros [Hkeys Hpos] Hk Hv. split.
  - rewrite keys_assign; [done|]. by rewrite Hkeys.
  - intros k' v' Hk' Hl. destruct (decide (k = k')) as [<-|Hne].
    + rewrite lookup_assign_eq in Hl. injection Hl as <-. auto.
    + rewrite lookup_assign_ne in Hl by done. eauto.
Qed.

Lemma kept_lookup m0 m k : kept m0 m -> k ∈ keys m0 -> is_Some (lookup_metric k m).
Proof. intros [Hkeys _] Hk. apply lookup_metric_is_Some. by rewrite Hkeys. Qed.

Lemma pre_reduce_metric_total m0 m k :
  well_formed m0 -> kept m0 m -> k ∈ keys m0 ->
  exists m', pre_reduce_metric k m = (m', Ok tt) /\ kept m0 m'.
Proof.
  intros (_ & _ & Hcos) Hkept Hk.
  destruct (kept_lookup _ _ _ Hkept Hk) as [vc Hc].
  destruct (startswith k "l2_norm") eqn:Hl2.
  - rewrite (pre_reduce_metric_l2 _ _ _ Hl2 Hc). eexists. split; [done|].
    apply kept_assign; [done..|]. intros _. apply pow2_ge_0.
  - destruct (startswith k "cosine") eqn:Hc2.
    + destruct (Hcos k Hk Hl2 Hc2) as (a & b & Hp & Ha & Hb).
      destruct (kept_lookup _ _ _ Hkept Ha) as [va Hva].
      destruct (kept_lookup _ _ _ Hkept Hb) as [vb Hvb].
      pose proof (cosine_norm_keys_l2 _ _ _ Hp) as [Hla Hlb].
      rewrite (pre_reduce_metric_cosine _ _ _ _ _ _ _ Hl2 Hc2 Hp Hva Hvb Hc);
        [|exact (proj2 Hkept _ _ Hla Hva)|exact (proj2 Hkept _ _ Hlb Hvb)].
      eexists. split; [done|]. apply kept_assign; [done..|]. congruence.
    + exists m. split; [|done]. unfold pre_reduce_metric. by rewrite Hl2, Hc2.
Qed.

Lemma dist_reduce_metric_total ws ps m0 m k :
  well_formed m0 -> (forall k, startswith k "l2_norm" = true -> 0 <= ps k) ->
  kept m0 m -> k ∈ keys m0 ->
  exists m', dist_reduce_metric ws ps k m = (m', Ok tt) /\ kept m0 m'.
Proof.
  intros (_ & _ & Hcos) Hps Hkept Hk.
  destruct (kept_lookup _ _ _ Hkept Hk) as [vc Hc].
  destruct (startswith k "l2_norm") eqn:Hl2.
  - assert (0 <= vc) by exact (proj2 Hkept _ _ Hl2 Hc). specialize (Hps k Hl2).
    unfold dist_reduce_metric, all_reduce. rewrite Hl2. cbn -[Nat.ltb]. rewrite Hc.
    destruct (1 <? ws)%nat; cbn -[math_sqrt]; rewrite math_sqrt_ok by lra; cbn;
      (eexists; split; [done|]); repeat apply kept_assign; try done; intros _;
      try apply sqrt_pos; lra.
  - destruct (startswith k "cosine") eqn:Hc2.
    + destruct (Hcos k Hk Hl2 Hc2) as (a & b & Hp & Ha & Hb).
      destruct (kept_lookup _ _ _ Hkept Ha) as [va Hva].
      destruct (kept_lookup _ _ _ Hkept Hb) as [vb Hvb].
      destruct (dist_reduce_metric_cosine ws ps _ _ _ _ _ _ _ Hl2 Hc2 Hp Hva Hvb Hc)
        as (m' & E & Hkeys & Hv).
      exists m'. split; [done|]. split; [by rewrite Hkeys, (proj1 Hkept)|].
      intros k' v' Hk' Hl. assert (k' <> k) by congruence.
      rewrite (dist_reduce_metric_frame _ _ _ _ _ _ _ E) in Hl by done.
      exact (proj2 Hkept _ _ Hk' Hl).
    + unfold dist_reduce_metric, all_reduce. rewrite Hl2, Hc2. cbn -[Nat.ltb]. rewrite Hc.
      destruct (1 <? ws)%nat; cbn; (eexists; split; [done|]);
        repeat apply kept_assign; try done; congruence.
Qed.

Lemma kept_refl m :
  well_formed m -> kept m m.
Proof. intros (_ & Hpos & _). by split. Qed.

Lemma pre_reduce_metrics_total m :
  well_formed m -> exists m1, pre_reduce_metrics m = (m1, Ok tt) /\ kept m m1.
Proof.
  intros Hwf. unfold pre_reduce_metrics.
  apply (for_each_total (kept m)); [|by apply kept_refl].
  intros k s Hk Hs. apply pre_reduce_metric_total; [done..|]. by rewrite sorted_perm in Hk.
Qed.

Lemma dist_reduce_metrics_total ws ps m0 m :
  well_formed m0 -> (forall k, startswith k "l2_norm" = true -> 0 <= ps k) ->
  kept m0 m ->
  exists m2, dist_reduce_metrics ws ps m = (m2, Ok tt) /\ kept m0 m2.
Proof.
  intros Hwf Hps Hkept. unfold dist_reduce_metrics.
  apply (for_each_total (kept m0)); [|done].
  intros k s Hk Hs. apply dist_reduce_metric_total; [done..|]. by rewrite <- (proj1 Hkept).
Qed.

Lemma sum_list_nonneg l : Forall (fun x => 0 <= x) l -> 0 <= sum_list l.
Proof. induction 1; simpl; lra. Qed.

Lemma peer_sum_of_nonneg peers k :
  Forall well_formed peers -> startswith k "l2_norm" = true -> 0 <= peer_sum_of peers k.
Proof.
  intros Hwf Hk. unfold peer_sum_of. apply sum_list_nonneg.
  apply Forall_map. eapply Forall_impl; [exact Hwf|].
  intros m Hm. cbn. destruct (pre_reduce_metrics_total m Hm) as (m1 & -> & _ & Hpos).
  cbn. destruct (lookup_metric k m1) as [v|] eqn:E; cbn; [eauto | lra].
Qed.

(** ** Vectors *)

Lemma sum_list_app l1 l2 : sum_list (l1 ++ l2) = sum_list l1 + sum_list l2.
Proof. induction l1 as [|x l1 IH]; simpl; [lra | rewrite IH; lra]. Qed.

Lemma dot_app t1 t2 u1 u2 :
  length t1 = length u1 -> dot (t1 ++ t2) (u1 ++ u2) = dot t1 u1 + dot t2 u2.
Proof.
  intros H. unfold dot. rewrite zip_with_app by done. apply sum_list_app.
Qed.

Lemma dot_self_nonneg t : 0 <= dot t t.
Proof.
  unfold dot. induction t as [|x t IH]; simpl; [lra|]. nra.
Qed.

Lemma vector_norm_nonneg t : 0 <= vector_norm t.
Proof. apply sqrt_pos. Qed.

Lemma vector_norm_pow2 t : vector_norm t ^ 2 = dot t t.
Proof.
  unfold vector_norm. replace (sqrt (dot t t) ^ 2) with (sqrt (dot t t) * sqrt (dot t t)) by ring.
  apply sqrt_sqrt, dot_self_nonneg.
Qed.

Lemma dot_concat_self ts :
  dot (concat ts) (concat ts) = sum_list (map (fun t => vector_norm t ^ 2) ts).
Proof.
  induction ts as [|t ts IH]; [reflexivity|].
  cbn [concat map]. rewrite dot_app, IH, <- (vector_norm_pow2 t) by done. reflexivity.
Qed.

(** ** The reduction of [l2_norm] entries *)

Lemma summed_peer_sum_of peers k v :
  summed (S (length peers)) (peer_sum_of peers) k v = v + peer_sum_of peers k.
Proof.
  unfold summed. destruct peers as [|p peers]; [|reflexivity].
  cbn. lra.
Qed.

Lemma peer_sum_of_shards peers shards k :
  Forall well_formed peers -> startswith k "l2_norm" = true ->
  Forall2 (fun p s => lookup_metric k p = Some (vector_norm s)) peers shards ->
  peer_sum_of peers k = sum_list (map (fun t => vector_norm t ^ 2) shards).
Proof.
  intros Hwf Hk H. unfold peer_sum_of. induction H as [|p s peers shards Hp H IH]; [reflexivity|].
  apply Forall_cons in Hwf as [Hwfp Hwf]. simpl. rewrite (IH Hwf). f_equal.
  destruct (pre_reduce_metrics_total p Hwfp) as (p1 & E & _). rewrite E. cbn.
  by rewrite (pre_reduce_l2 _ _ _ _ (proj1 Hwfp) E Hk Hp).
Qed.

(** C2.  On every well-formed metric record the pre-reduce pass replaces each
    [l2_norm] scalar by its square and the post-reduce pass replaces the sum
    of the squares over the ranks by its square root; both passes return.
    When the entry of each rank is the norm of its shard of a vector, the
    result is the norm of the whole vector. *)
Theorem l2_norm_squared_summed_rooted (local : metrics) (peers : list metrics) :
  well_formed local -> Forall well_formed peers ->
  exists m1 m2,
    pre_reduce_metrics local = (m1, Ok tt) /\
    reduce_metrics peers local = (m2, Ok tt) /\
    forall k v, startswith k "l2_norm" = true -> lookup_metric k local = Some v ->
      lookup_metric k m1 = Some (v ^ 2) /\
      lookup_metric k m2 = Some (sqrt (v ^ 2 + peer_sum_of peers k)) /\
      forall shard shards,
        v = vector_norm shard ->
        Forall2 (fun p s => lookup_metric k p = Some (vector_norm s)) peers shards ->
        lookup_metric k m2 = Some (vector_norm (shard ++ concat shards)).
Proof.
  intros Hwf Hpeers.
  destruct (pre_reduce_metrics_total local Hwf) as (m1 & E1 & Hkept).
  destruct (dist_reduce_metrics_total (S (length peers)) (peer_sum_of peers) local m1 Hwf
              (fun k => peer_sum_of_nonneg peers k Hpeers) Hkept) as (m2 & E2 & _).
  exists m1, m2. split; [done|]. split.
  { unfold reduce_metrics. cbn. by rewrite E1. }
  intros k v Hk Hv.
  pose proof (pre_reduce_l2 _ _ _ _ (proj1 Hwf) E1 Hk Hv) as Hv1.
  assert (Hnd1 : NoDup (keys m1)) by (rewrite (proj1 Hkept); apply Hwf).
  pose proof (dist_reduce_l2 _ _ _ _ _ _ Hnd1 E2 Hk Hv1) as Hv2.
  rewrite summed_peer_sum_of in Hv2. split; [done|]. split; [done|].
  intros shard shards -> Hshards. rewrite Hv2. f_equal. unfold vector_norm at 2.
  rewrite dot_app, dot_concat_self by done.
  by rewrite (peer_sum_of_shards _ _ _ Hpeers Hk Hshards), vector_norm_pow2.
Qed.

Ltac py_compute :=
  lazy -[pow sqrt IZR Rdiv Rminus INR Rmax Rabs Rplus Rmult Ropp Rinv Rlt_dec Req_dec_T
         math_sqrt float_div decay_factor vector_norm dot cosine_similarity].

Lemma vector_norm_singleton x : 0 <= x -> vector_norm [x] = x.
Proof.
  intros H. unfold vector_norm, dot. cbn. replace (x * x + 0) with (x * x) by ring.
  by apply sqrt_square.
Qed.

Lemma well_formed_singleton k v :
  startswith k "l2_norm" = true -> 0 <= v -> well_formed [(k, v)].
Proof.
  intros Hk Hv. split; [|split].
  - cbn. apply NoDup_singleton.
  - intros k' v' _. cbn. destruct (String.eqb k' k); [|discriminate]. by intros [= <-].
  - intros k' Hk' Hl. cbn in Hk'. apply list_elem_of_singleton in Hk' as ->. congruence.
Qed.

Lemma l2_norm_squared_summed_rooted_witness :
  exists m2,
    reduce_metrics [[("l2_norm/v", vector_norm [4])]]%string
                   [("l2_norm/v", vector_norm [3])]%string = (m2, Ok tt) /\
    lookup_metric "l2_norm/v" m2 = Some 5 /\
    vector_norm [3] = 3 /\ vector_norm [4] = 4.
Proof.
  destruct (l2_norm_squared_summed_rooted
              [("l2_norm/v", vector_norm [3])]%string
              [[("l2_norm/v", vector_norm [4])]]%string)
    as (m1 & m2 & _ & E & H).
  - apply well_formed_singleton; [reflexivity | apply vector_norm_nonneg].
  - apply Forall_singleton, well_formed_singleton; [reflexivity | apply vector_norm_nonneg].
  - exists m2. split; [exact E|].
    destruct (H "l2_norm/v"%string (vector_norm [3]) eq_refl eq_refl) as (_ & _ & Hshards).
    specialize (Hshards [3] [[4]] eq_refl).
    rewrite Hshards.
    + split; [|split; apply vector_norm_singleton; lra].
      f_equal. unfold vector_norm, dot. cbn.
      replace (3 * 3 + (4 * 4 + 0)) with (5 * 5) by lra. apply sqrt_square. lra.
    + by repeat constructor.
Defined.

Lemma cosine_similarity_self_2 : cosine_similarity DecoupledAdamW.cosine_eps [2] [2] = 1.
Proof.
  unfold cosine_similarity. rewrite vector_norm_singleton by lra.
  unfold dot, DecoupledAdamW.cosine_eps. cbn.
  rewrite Rmax_left by lra. field.
Qed.

(** C1, at a record that lists the cosine entry before its norms.  One rank
    holds the vectors a = [2] and b = [2], whose cosine similarity is 1; the
    passes return 1/4 for it, the post-reduce pass having divided by the
    norm entries while they still held the squares. *)
Theorem cosine_first_not_global_cosine :
  reduce_metrics [] cosine_first =
    ([("cosine/a_b/L", / 4); ("l2_norm/a/L", 2); ("l2_norm/b/L", 2)]%string, Ok tt) /\
  lookup_metric "cosine/a_b/L" cosine_first =
    Some (cosine_similarity DecoupledAdamW.cosine_eps [2] [2]) /\
  cosine_similarity DecoupledAdamW.cosine_eps [2] [2] = 1 /\
  lookup_metric "cosine/a_b/L" (reduce_metrics [] cosine_first).1 <> Some 1.
Proof.
  assert (E : reduce_metrics [] cosine_first =
    ([("cosine/a_b/L", / 4); ("l2_norm/a/L", 2); ("l2_norm/b/L", 2)]%string, Ok tt)).
  { unfold cosine_first. rewrite cosine_similarity_self_2, vector_norm_singleton by lra.
    unfold reduce_metrics, pre_reduce_metrics, dist_reduce_metrics. py_compute.
    rewrite !math_sqrt_ok by (simpl; lra). py_compute.
    rewrite !sqrt_pow2 by lra. repeat f_equal; field. }
  split; [exact E|]. split; [reflexivity|]. split; [apply cosine_similarity_self_2|].
  rewrite E. cbn. intros [= H]. lra.
Qed.

(** C7, at a record that lists a cosine entry before its norms, with one
    rank: the two passes do not give the record back. *)
Theorem single_rank_not_identity (peer_sum : string -> R) :
  bind pre_reduce_metrics (fun _ => dist_reduce_metrics 1 peer_sum) cosine_before_norms =
    ([("cosine/u_v/fc", / 18); ("l2_norm/u/fc", 3); ("l2_norm/v/fc", 3)]%string, Ok tt) /\
  (bind pre_reduce_metrics (fun _ => dist_reduce_metrics 1 peer_sum) cosine_before_norms).1
    <> cosine_before_norms.
Proof.
  assert (E : bind pre_reduce_metrics (fun _ => dist_reduce_metrics 1 peer_sum)
                cosine_before_norms =
    ([("cosine/u_v/fc", / 18); ("l2_norm/u/fc", 3); ("l2_norm/v/fc", 3)]%string, Ok tt)).
  { unfold cosine_before_norms, pre_reduce_metrics, dist_reduce_metrics. py_compute.
    rewrite !math_sqrt_ok by (simpl; lra). py_compute.
    rewrite !sqrt_pow2 by lra. repeat f_equal; field. }
  split; [exact E|]. rewrite E. unfold cosine_before_norms. cbn. intros [= H]. lra.
Qed.

(** ** The decoupled decay of [sgdw] *)

Section SgdwDecay.
Import DecoupledSGDW.
Variable d_p_list : list tensor.
Variables weight_decay momentum lr initial_lr dampening : R.
Variable nesterov : bool.
Hypothesis decays : weight_decay <> 0.
Variable N : nat.

Abbreviation scale := (1 - decay_factor lr initial_lr * weight_decay).
Abbreviation with_decay :=
(sgdw_at d_p_list weight_decay momentum lr initial_lr dampening nesterov).
Abbreviation without := (sgdw_at d_p_list 0 momentum lr initial_lr dampening nesterov).





End SgdwDecay.


Lemma sgdw_returns d_p_list weight_decay momentum lr initial_lr dampening nesterov a :
  length d_p_list = length (DecoupledSGDW.l_params a) ->
  length (DecoupledSGDW.l_momentum_buffer_list a) = length (DecoupledSGDW.l_params a) ->
  exists a', DecoupledSGDW.sgdw d_p_list weight_decay momentum lr initial_lr dampening
               nesterov a = (a', Ok tt).
Proof.
  intros Hd Hb. unfold DecoupledSGDW.sgdw.
  set (n := length (DecoupledSGDW.l_params a)) in *.
  cut (exists a', for_each (seq 0 n)
          (DecoupledSGDW.sgdw_at d_p_list weight_decay momentum lr initial_lr dampening
             nesterov) a = (a', Ok tt) /\
          (length (DecoupledSGDW.l_params a') = n /\
           length (DecoupledSGDW.l_momentum_buffer_list a') = n)).
  { intros (a' & E & _). by exists a'. }
  apply (for_each_total
    (fun s => length (DecoupledSGDW.l_params s) = n /\
              length (DecoupledSGDW.l_momentum_buffer_list s) = n)); [|done].
  intros i s Hi [Hp Hs]. apply elem_of_seq in Hi as [_ Hi]. cbn in Hi.
  destruct (lookup_lt_is_Some_2 d_p_list i ltac:(lia)) as [d Ed].
  destruct (lookup_lt_is_Some_2 (DecoupledSGDW.l_params s) i ltac:(lia)) as [p Ep].
  destruct (lookup_lt_is_Some_2 (DecoupledSGDW.l_momentum_buffer_list s) i ltac:(lia))
    as [b Eb].
  unfold DecoupledSGDW.sgdw_at, DecoupledSGDW.direction_at, DecoupledSGDW.decay_at,
    DecoupledSGDW.buf_at, DecoupledSGDW.param_at, DecoupledSGDW.set_buf,
    DecoupledSGDW.set_param.
  cbn. rewrite Ed. cbn.
  destruct (Req_dec_T momentum 0); cbn.
  - destruct (Req_dec_T weight_decay 0); cbn; rewrite Ep; cbn.
    all: rewrite ?list_lookup_insert_eq by lia; cbn.
    all: eexists; (split; [reflexivity|]); cbn; by rewrite ?length_insert.
  - rewrite Eb; destruct b; cbn.
    all: destruct (Req_dec_T weight_decay 0); cbn; rewrite Ep; cbn.
    all: rewrite ?list_lookup_insert_eq by lia; cbn.
    all: eexists; (split; [reflexivity|]); cbn; by rewrite ?length_insert.
Qed.

(** ** The decoupled decay of [adamw] *)

Section AdamwDecay.
Import DecoupledAdamW.
Variable grads : list tensor.
Variable state_steps : list nat.
Variable amsgrad : bool.
Variables beta1 beta2 lr initial_lr weight_decay eps : R.
Hypothesis decays : weight_decay <> 0.
Variable N : nat.

Abbreviation ascale := (1 - decay_factor lr initial_lr * weight_decay).
Abbreviation awith_decay :=
(adamw_at grads state_steps amsgrad beta1 beta2 lr initial_lr weight_decay eps).
Abbreviation awithout :=
(adamw_at grads state_steps amsgrad beta1 beta2 lr initial_lr 0 eps).




End AdamwDecay.


Lemma float_div_ok x y : y <> 0 -> float_div x y = Ok (x / y).
Proof. intros H. unfold float_div. destruct (Req_dec_T y 0); [done | reflexivity]. Qed.

Lemma adamw_returns grads state_steps amsgrad beta1 beta2 lr initial_lr weight_decay eps a :
  let n := length (DecoupledAdamW.l_params a) in
  length grads = n -> length state_steps = n ->
  length (DecoupledAdamW.l_exp_avgs a) = n -> length (DecoupledAdamW.l_exp_avg_sqs a) = n ->
  (amsgrad = true -> length (DecoupledAdamW.l_max_exp_avg_sqs a) = n) ->
  Forall (fun step => 0 <= 1 - beta2 ^ step /\ 1 - beta1 ^ step <> 0) state_steps ->
  exists a', DecoupledAdamW.adamw grads state_steps amsgrad beta1 beta2 lr initial_lr
               weight_decay eps a = (a', Ok tt).
Proof.
  intros n Hg Hst He Hs Hm Hbias. unfold DecoupledAdamW.adamw. fold n.
  cut (exists a', for_each (seq 0 n)
          (DecoupledAdamW.adamw_at grads state_steps amsgrad beta1 beta2 lr initial_lr
             weight_decay eps) a = (a', Ok tt) /\
          (length (DecoupledAdamW.l_params a') = n /\
           length (DecoupledAdamW.l_exp_avgs a') = n /\
           length (DecoupledAdamW.l_exp_avg_sqs a') = n /\
           (amsgrad = true -> length (DecoupledAdamW.l_max_exp_avg_sqs a') = n))).
  { intros (a' & E & _). by exists a'. }
  apply (for_each_total
    (fun s => length (DecoupledAdamW.l_params s) = n /\
              length (DecoupledAdamW.l_exp_avgs s) = n /\
              length (DecoupledAdamW.l_exp_avg_sqs s) = n /\
              (amsgrad = true -> length (DecoupledAdamW.l_max_exp_avg_sqs s) = n))); [|done].
  intros i s Hi (Hp' & He' & Hs' & Hm'). apply elem_of_seq in Hi as [_ Hi]. cbn in Hi.
  destruct (lookup_lt_is_Some_2 grads i ltac:(lia)) as [g Eg].
  destruct (lookup_lt_is_Some_2 state_steps i ltac:(lia)) as [st Est].
  destruct (lookup_lt_is_Some_2 (DecoupledAdamW.l_params s) i ltac:(lia)) as [p Ep].
  destruct (lookup_lt_is_Some_2 (DecoupledAdamW.l_exp_avgs s) i ltac:(lia)) as [ea Eea].
  destruct (lookup_lt_is_Some_2 (DecoupledAdamW.l_exp_avg_sqs s) i ltac:(lia)) as [es Ees].
  destruct (proj1 (Forall_lookup _ _) Hbias i st Est) as [Hb2 Hb1].
  unfold DecoupledAdamW.adamw_at, DecoupledAdamW.decay_at, DecoupledAdamW.moments_at,
    DecoupledAdamW.exp_avg_at, DecoupledAdamW.exp_avg_sq_at, DecoupledAdamW.max_exp_avg_sq_at,
    DecoupledAdamW.param_at, DecoupledAdamW.set_param, DecoupledAdamW.set_exp_avg,
    DecoupledAdamW.set_exp_avg_sq, DecoupledAdamW.set_max_exp_avg_sq.
  cbn -[math_sqrt float_div]. rewrite Eg. cbn -[math_sqrt float_div].
  rewrite Eea. cbn -[math_sqrt float_div]. rewrite Ees. cbn -[math_sqrt float_div].
  rewrite Est. cbn -[math_sqrt float_div].
  destruct amsgrad.
  - destruct (lookup_lt_is_Some_2 (DecoupledAdamW.l_max_exp_avg_sqs s) i
                ltac:(rewrite Hm' by done; lia)) as [mx Emx].
    destruct (Req_dec_T weight_decay 0); cbn -[math_sqrt float_div]; rewrite ?Ep;
      cbn -[math_sqrt float_div]; rewrite Emx; cbn -[math_sqrt float_div];
      rewrite math_sqrt_ok by done; cbn -[math_sqrt float_div];
      rewrite float_div_ok by done; cbn; rewrite ?Ep, ?list_lookup_insert_eq by lia; cbn;
      (eexists; split; [reflexivity|]); cbn; rewrite ?length_insert; auto.
  - destruct (Req_dec_T weight_decay 0); cbn -[math_sqrt float_div]; rewrite ?Ep;
      cbn -[math_sqrt float_div];
      rewrite math_sqrt_ok by done; cbn -[math_sqrt float_div];
      rewrite float_div_ok by done; cbn; rewrite ?Ep, ?list_lookup_insert_eq by lia; cbn;
      (eexists; split; [reflexivity|]); cbn; rewrite ?length_insert; auto.
Qed.

(** ** Loops that build lists *)

Lemma fold_each_ind {S A B} (I : S -> B -> Prop) (J : S -> Prop)
    (xs : list A) (body : A -> B -> M S B) :
  (forall x acc s, x ∈ xs -> I s acc ->
     match body x acc s with
     | (s', Ok acc') => I s' acc'
     | (s', Raise _) => J s'
     end) ->
  forall acc s, I s acc ->
    match fold_each xs body acc s with
    | (s', Ok acc') => I s' acc'
    | (s', Raise _) => J s'
    end.
Proof.
  induction xs as [|x xs IH]; intros Hbody acc s Hs; [exact Hs|].
  cbn. pose proof (Hbody x acc s ltac:(left) Hs) as H1.
  destruct (body x acc s) as [s1 [acc1|e]]; [|exact H1].
  apply IH; [|exact H1]. intros y acc' t Hy. apply Hbody. by right.
Qed.

Lemma for_each_ind {S A} (I : S -> Prop) (xs : list A) (body : A -> M S unit) :
  (forall x s, x ∈ xs -> I s -> I (body x s).1) ->
  forall s, I s -> I (for_each xs body s).1.
Proof. apply for_each_preserves. Qed.

(** ** The memory *)

Lemma set_data_other p t mem q : q <> p -> set_data p t mem q = mem q.
Proof. intros H. unfold set_data. by rewrite (proj2 (Nat.eqb_neq q p) H). Qed.

Lemma set_data_grad p t mem q : grad (set_data p t mem q) = grad (mem q).
Proof. unfold set_data. by destruct (q =? p)%nat. Qed.

Lemma set_data_requires_grad p t mem q :
  requires_grad (set_data p t mem q) = requires_grad (mem q).
Proof. unfold set_data. by destruct (q =? p)%nat. Qed.

(** ** DecoupledSGDW.step leaves parameters without gradient alone *)

Section SgdFrame.
Import DecoupledSGDW.

Lemma sgd_frame_refl w : sgd_frame w w.
Proof. by split. Qed.

Lemma sgd_frame_trans w0 w1 w2 : sgd_frame w0 w1 -> sgd_frame w1 w2 -> sgd_frame w0 w2.
Proof.
intros [Hg1 Hf1] [Hg2 Hf2]. split.
- intros q. by rewrite Hg2.
- intros q Hq. destruct (Hf1 q Hq) as [Hm1 Hs1].
destruct (Hf2 q) as [Hm2 Hs2]; [by rewrite Hg1|]. split; congruence.
Qed.

Lemma collect_frame w0 ps acc :
match fold_each ps collect acc w0 with
| (w, Ok c) =>
mem w = mem w0 /\ sgd_frame w0 w /\
(Forall (fun q => grad (mem w0 q) <> None) (params_with_grad acc) ->
Forall (fun q => grad (mem w0 q) <> None) (params_with_grad c))
| (w, Raise _) => False
end.
Proof.
apply (fold_each_ind
(fun w c => mem w = mem w0 /\ sgd_frame w0 w /\
      (Forall (fun q => grad (mem w0 q) <> None) (params_with_grad acc) ->
       Forall (fun q => grad (mem w0 q) <> None) (params_with_grad c)))
(fun _ => False)); [|by split; [|split; [apply sgd_frame_refl|]]].
intros p c w _ (Hmem & [Hg Hf] & Hids). unfold collect. cbn.
destruct (grad (mem w p)) as [g|] eqn:Egp; cbn; [|done].
split; [done|]. split; [split|].
- done.
- intros q Hq. destruct (Hf q Hq) as [Hm Hs]. split; [done|].
rewrite <- Hs. apply lookup_insert_ne. intros ->. rewrite Hmem in Egp. congruence.
- intros H. apply Forall_app. split; [auto|]. apply Forall_singleton.
rewrite Hmem in Egp. congruence.
Qed.

Lemma store_from_frame w0 before after ids : forall i w,
Forall (fun q => grad (mem w0 q) <> None) ids -> sgd_frame w0 w ->
sgd_frame w0 (store_from i ids before after w).
Proof.
induction ids as [|p ids IH]; intros i w Hids Hw; [done|].
apply Forall_cons in Hids as [Hp Hids]. cbn [store_from]. apply IH; [done|].
destruct Hw as [Hg Hf]. split; cbn.
- intros q. rewrite <- Hg. destruct (l_params after !! i); [apply set_data_grad | done].
- intros q Hq. assert (q <> p) by congruence. destruct (Hf q Hq) as [Hm Hs]. split.
+ destruct (l_params after !! i); [by rewrite set_data_other | done].
+ rewrite <- Hs. repeat case_match; try done; by apply lookup_insert_ne.
Qed.

Lemma attach_frame w0 ids (bufs : list (option tensor)) w :
Forall (fun q => grad (mem w0 q) <> None) ids -> sgd_frame w0 w ->
sgd_frame w0 (for_each (zip ids bufs) attach w).1.
Proof.
intros Hids. apply for_each_ind. intros [q b] s Hin [Hg Hf].
apply elem_of_zip_l in Hin. cbn in Hin.
pose proof (proj1 (Forall_forall _ _) Hids q Hin) as Hq.
split; [done|]. intros q' Hq'. destruct (Hf q' Hq') as [Hm Hs]. split; [done|].
cbn. rewrite <- Hs. apply lookup_insert_ne. congruence.
Qed.

Lemma step_group_frame g w : sgd_frame w (step_group g w).1.
Proof.
unfold step_group. cbn -[sgdw fold_each store_from for_each].
destruct (initial_lr g) as [ilr|]; cbn -[sgdw fold_each store_from for_each];
[|apply sgd_frame_refl].
pose proof (collect_frame w (params g)
      {| params_with_grad := []; c_d_p_list := []; momentum_buffer_list := [] |})
as Hc.
destruct (fold_each _ _ _ w) as [w1 [c|e]]; [|done].
destruct Hc as (Hmem & Hfr & Hids). specialize (Hids (Forall_nil_2 _)).
cbn -[sgdw fold_each store_from for_each].
destruct (sgdw _ _ _ _ _ _ _ _) as [after r]. cbn -[sgdw fold_each store_from for_each].
assert (Hids1 : Forall (fun q => grad (mem w1 q) <> None) (params_with_grad c)).
{ eapply Forall_impl; [exact Hids|]. intros q. cbn. by rewrite Hmem. }
eapply sgd_frame_trans; [exact Hfr|].
destruct r as [[]|e]; cbn -[sgdw fold_each store_from for_each].
- apply attach_frame; [done|]. apply store_from_frame; [done | apply sgd_frame_refl].
- apply store_from_frame; [done | apply sgd_frame_refl].
Qed.

Lemma step_groups_frame groups w : sgd_frame w (for_each groups step_group w).1.
Proof.
revert w. induction groups as [|g groups IH]; intros w; [apply sgd_frame_refl|].
cbn. pose proof (step_group_frame g w) as H1.
destruct (step_group g w) as [w1 [[]|e]]; cbn in *; [|done].
eapply sgd_frame_trans; [exact H1 | apply IH].
Qed.

End SgdFrame.

(** ** DecoupledSGDW without momentum creates no buffer *)

Section SgdNoMomentum.
Import DecoupledSGDW.

Lemma sgdw_no_momentum d_p_list weight_decay lr initial_lr dampening nesterov a :
l_momentum_buffer_list
(sgdw d_p_list weight_decay 0 lr initial_lr dampening nesterov a).1
= l_momentum_buffer_list a.
Proof.
unfold sgdw.
apply (for_each_ind (fun s => l_momentum_buffer_list s = l_momentum_buffer_list a));
[|done].
intros i s _ Hs. rewrite <- Hs.
unfold sgdw_at, direction_at, decay_at, param_at, set_param. cbn.
destruct (Req_dec_T 0 0) as [_|]; [|done].
destruct (d_p_list !! i); cbn; [|done].
destruct (Req_dec_T weight_decay 0); cbn.
- by destruct (l_params s !! i).
- destruct (l_params s !! i); cbn; [|done].
by destruct (<[i:=_]> (l_params s) !! i).
Qed.

Lemma collect_no_tensor w0 ps :
no_buffer_tensor (state w0) ->
match fold_each ps collect
{| params_with_grad := []; c_d_p_list := []; momentum_buffer_list := [] |} w0 with
| (w, Ok c) => no_buffer_tensor (state w) /\ Forall (fun b => b = None) (momentum_buffer_list c)
| (w, Raise _) => no_buffer_tensor (state w)
end.
Proof.
intros H0.
apply (fold_each_ind
(fun w c => no_buffer_tensor (state w) /\
      Forall (fun b => b = None) (momentum_buffer_list c))
(fun w => no_buffer_tensor (state w))); [|by split].
intros p c w _ [Hst Hc]. unfold collect. cbn.
destruct (grad (mem w p)) as [g|]; cbn; [|done].
assert (Hentry : forall b, momentum_buffer (state_entry p (state w)) <> Some (Some b)).
{ intros b. unfold state_entry. destruct (state w !! p) as [s|] eqn:E; cbn; [|done].
by eapply Hst. }
split.
- intros q s b Hq. destruct (decide (p = q)) as [<-|Hne].
+ rewrite lookup_insert_eq in Hq. injection Hq as <-. apply Hentry.
+ rewrite lookup_insert_ne in Hq by done. by eapply Hst.
- apply Forall_app. split; [done|]. apply Forall_singleton.
destruct (momentum_buffer (state_entry p (state w))) as [[b|]|] eqn:E; [|done..].
by destruct (Hentry b).
Qed.

Lemma store_from_no_tensor before after ids : forall i w,
Forall (fun b => b = None) (l_momentum_buffer_list after) ->
no_buffer_tensor (state w) ->
no_buffer_tensor (state (store_from i ids before after w)).
Proof.
induction ids as [|p ids IH]; intros i w Hafter Hw; [done|].
cbn [store_from]. apply IH; [done|]. cbn.
destruct (l_momentum_buffer_list before !! i) as [[b'|]|]; [|done..].
destruct (l_momentum_buffer_list after !! i) as [b|] eqn:E; [|done].
pose proof (proj1 (Forall_lookup _ _) Hafter i b E) as ->.
intros q s b Hq. destruct (decide (p = q)) as [<-|Hne].
- rewrite lookup_insert_eq in Hq. by injection Hq as <-.
- rewrite lookup_insert_ne in Hq by done. by eapply Hw.
Qed.

Lemma attach_no_tensor ids (bufs : list (option tensor)) w :
Forall (fun b => b = None) bufs -> no_buffer_tensor (state w) ->
no_buffer_tensor (state (for_each (zip ids bufs) attach w).1).
Proof.
intros Hbufs. apply (for_each_ind (fun w => no_buffer_tensor (state w))).
intros [p b] s Hin Hs. apply elem_of_zip_r in Hin. cbn in Hin.
pose proof (proj1 (Forall_forall _ _) Hbufs b Hin) as ->. cbn.
intros q s' b Hq. destruct (decide (p = q)) as [<-|Hne].
- rewrite lookup_insert_eq in Hq. by injection Hq as <-.
- rewrite lookup_insert_ne in Hq by done. by eapply Hs.
Qed.

Lemma step_group_no_tensor g w :
momentum g = 0 -> no_buffer_tensor (state w) ->
no_buffer_tensor (state (step_group g w).1).
Proof.
intros Hm Hw. unfold step_group. cbn -[sgdw fold_each store_from for_each].
destruct (initial_lr g) as [ilr|]; cbn -[sgdw fold_each store_from for_each]; [|done].
pose proof (collect_no_tensor w (params g) Hw) as Hc.
destruct (fold_each _ _ _ w) as [w1 [c|e]]; [|done].
destruct Hc as [Hw1 Hc]. cbn -[sgdw fold_each store_from for_each].
rewrite Hm.
pose proof (sgdw_no_momentum (c_d_p_list c) (weight_decay g) (lr g) ilr (dampening g)
      (nesterov g)
      {| l_params := map (fun p => data (mem w1 p)) (params_with_grad c);
         l_momentum_buffer_list := momentum_buffer_list c |}) as Hb.
destruct (sgdw _ _ _ _ _ _ _ _) as [after r]. cbn in Hb.
cbn -[sgdw fold_each store_from for_each]. rewrite <- Hb in Hc.
destruct r as [[]|e]; cbn -[sgdw fold_each store_from for_each].
- apply attach_no_tensor; [done|]. by apply store_from_no_tensor.
- by apply store_from_no_tensor.
Qed.

Lemma sgd_step_no_tensor groups closure w :
Forall (fun g => momentum g = 0) groups -> no_buffer_tensor (state w) ->
no_buffer_tensor (state (step groups closure w).1).
Proof.
intros Hg Hw. unfold step. cbn -[for_each].
assert (Hw1 : no_buffer_tensor (state (run_closure closure w).1)).
{ unfold run_closure. destruct closure as [f|]; [|done]. by destruct (f (mem w)). }
destruct (run_closure closure w) as [w1 [loss|e]]; cbn -[for_each] in *; [|done].
assert (H : no_buffer_tensor (state (for_each groups step_group w1).1)).
{ apply (for_each_ind (fun w => no_buffer_tensor (state w))); [|done].
intros g s Hin Hs. apply step_group_no_tensor; [|done].
exact (proj1 (Forall_forall _ _) Hg g Hin). }
by destruct (for_each groups step_group w1) as [w2 [[]|e]].
Qed.
End SgdNoMomentum.

(** Steps without momentum never put a tensor in the state. *)
Lemma sgd_steps_no_tensor
    (calls : list (list DecoupledSGDW.group * option closure_t)) (w : DecoupledSGDW.world) :
  Forall (fun call => Forall (fun g => DecoupledSGDW.momentum g = 0) call.1) calls ->
  no_buffer_tensor (DecoupledSGDW.state w) ->
  no_buffer_tensor (DecoupledSGDW.state (sgd_steps calls w)).
Proof.
  revert w. induction calls as [|[groups closure] calls IH]; intros w Hcalls Hw; [done|].
  apply Forall_cons in Hcalls as [Hg Hcalls]. cbn [sgd_steps]. apply IH; [done|].
  by apply sgd_step_no_tensor.
Qed.

Ltac decide_real :=
  match goal with
  | |- context [Req_dec_T ?a ?b] =>
      destruct (Req_dec_T a b); [try (exfalso; lra) | try (exfalso; lra)]
  | |- context [Rlt_dec ?a ?b] =>
      destruct (Rlt_dec a b); [try (exfalso; lra) | try (exfalso; lra)]
  end.

Ltac sgd_unfold :=
  unfold DecoupledSGDW.step, DecoupledSGDW.run_closure, DecoupledSGDW.step_group,
    DecoupledSGDW.collect, DecoupledSGDW.state_entry, DecoupledSGDW.attach,
    DecoupledSGDW.sgdw, DecoupledSGDW.sgdw_at, DecoupledSGDW.direction_at,
    DecoupledSGDW.decay_at, DecoupledSGDW.param_at, DecoupledSGDW.buf_at,
    DecoupledSGDW.set_param, DecoupledSGDW.set_buf.

Ltac map_lookups :=
  repeat first
    [ rewrite lookup_empty
    | rewrite lookup_insert_eq
    | rewrite lookup_insert_ne by done
    | rewrite lookup_alter_eq
    | rewrite lookup_alter_ne by done ].

Lemma sgd_plain_step :
  DecoupledSGDW.step [sgd_plain_group] None sgd_plain_world =
    ({| DecoupledSGDW.mem := set_data 0 [3] (DecoupledSGDW.mem sgd_plain_world);
        DecoupledSGDW.state := {[ 0%nat := {| DecoupledSGDW.momentum_buffer := Some None |} ]} |},
     Ok None).
Proof.
  unfold sgd_plain_group, sgd_plain_world. sgd_unfold. cbn. map_lookups. cbn.
  repeat decide_real. cbn. rewrite insert_insert_eq, insert_empty.
  do 3 f_equal. f_equal. lra.
Qed.

Lemma no_buffer_tensor_empty : no_buffer_tensor ∅.
Proof. intros p s b H. by rewrite lookup_empty in H. Qed.

(** C9 as it is worded fails: one step without momentum on a parameter that
    has a gradient leaves a [momentum_buffer] entry, holding [None]. *)
Lemma momentum_buffer_entry_without_momentum :
  Forall (fun g => DecoupledSGDW.momentum g = 0) [sgd_plain_group] /\
  no_buffer_entry (DecoupledSGDW.state sgd_plain_world) /\
  DecoupledSGDW.state (sgd_steps [([sgd_plain_group], None)] sgd_plain_world) !! 0%nat
    = Some {| DecoupledSGDW.momentum_buffer := Some None |} /\
  ~ no_buffer_entry
      (DecoupledSGDW.state (sgd_steps [([sgd_plain_group], None)] sgd_plain_world)).
Proof.
  assert (E : DecoupledSGDW.state (sgd_steps [([sgd_plain_group], None)] sgd_plain_world)
              !! 0%nat = Some {| DecoupledSGDW.momentum_buffer := Some None |}).
  { cbn [sgd_steps]. rewrite sgd_plain_step. cbn. apply lookup_singleton_eq. }
  split; [repeat constructor|]. split.
  { intros p s H. cbn in H. by rewrite lookup_empty in H. }
  split; [exact E|]. intros H. by specialize (H _ _ E).
Qed.

(** ** DecoupledAdamW.step leaves the parameters it passes over alone *)

Section AdamFrame.
Import DecoupledAdamW.

Lemma adam_frame_refl w : adam_frame w w.
Proof. by split. Qed.

Lemma adam_frame_trans w0 w1 w2 : adam_frame w0 w1 -> adam_frame w1 w2 -> adam_frame w0 w2.
Proof.
intros [Hg1 Hf1] [Hg2 Hf2]. split.
- intros q. destruct (Hg1 q), (Hg2 q). split; congruence.
- intros q Hq. destruct (Hf1 q Hq) as [Hm1 Hs1].
destruct (Hf2 q) as [Hm2 Hs2]; [|split; congruence].
destruct (Hg1 q) as [Hgr Hrq]. unfold adam_skipped in *. by rewrite Hgr, Hrq.
Qed.

(** The loop over a group's parameters, whatever its outcome: the memory
is as it was, and only the state of collected parameters changed. *)
Lemma collect_frame_adam amsgrad w0 ps :
match fold_each ps (collect amsgrad) no_lists w0 with
| (w, Ok c) =>
mem w = mem w0 /\ param_groups w = param_groups w0 /\ adam_frame w0 w /\
collected_ok w0 (params_with_grad c)
| (w, Raise _) => mem w = mem w0 /\ param_groups w = param_groups w0 /\ adam_frame w0 w
end.
Proof.
apply (fold_each_ind
(fun w c => mem w = mem w0 /\ param_groups w = param_groups w0 /\ adam_frame w0 w /\
      collected_ok w0 (params_with_grad c))
(fun w => mem w = mem w0 /\ param_groups w = param_groups w0 /\ adam_frame w0 w));
[|split; [done|]; split; [done|]; split; [apply adam_frame_refl | constructor]].
intros p c w _ (Hmem & Hgroups & Hfr & Hids). pose proof Hfr as [Hg Hf].
unfold collect, state_entry, set_state.
cbn. destruct (grad (mem w p)) as [g|] eqn:Egp; cbn; [|done].
destruct (requires_grad (mem w p)) eqn:Erq; cbn; [|done].
assert (Hp : ~ adam_skipped (mem w0) p).
{ rewrite <- Hmem. unfold adam_skipped. rewrite Egp, Erq. by intros [|]. }
assert (Hother : forall q, adam_skipped (mem w0) q -> p <> q) by (by intros q Hq ->).
destruct (is_sparse g); cbn; [done|].
destruct (state w !! p) as [s|] eqn:Es; cbn.
- destruct amsgrad; cbn; [destruct (max_exp_avg_sq s); cbn; [|done]|].
all: repeat (split; [done|]); split; [split; [done|]|].
all: try (apply Forall_app; split; [done|by apply Forall_singleton]).
all: intros q Hq; destruct (Hf q Hq) as [Hm Hs]; split; [done|]; cbn.
all: rewrite <- Hs; apply lookup_insert_ne; auto.
- destruct amsgrad; cbn.
all: repeat (split; [done|]); split; [split; [done|]|].
all: try (apply Forall_app; split; [done|by apply Forall_singleton]).
all: intros q Hq; destruct (Hf q Hq) as [Hm Hs]; split; [done|]; cbn.
all: rewrite <- Hs, !lookup_insert_ne; auto.
Qed.

Lemma store_from_frame_adam w0 amsgrad after ids : forall i w,
collected_ok w0 ids -> adam_frame w0 w ->
adam_frame w0 (store_from amsgrad i ids after w).
Proof.
induction ids as [|p ids IH]; intros i w Hids Hw; [done|].
apply Forall_cons in Hids as [Hp Hids]. cbn [store_from]. apply IH; [done|].
destruct Hw as [Hg Hf]. split; cbn.
- intros q. destruct (Hg q) as [<- <-].
destruct (l_params after !! i); [|done].
by rewrite set_data_grad, set_data_requires_grad.
- intros q Hq. assert (q <> p) by (by intros ->). destruct (Hf q Hq) as [Hm Hs]. split.
+ destruct (l_params after !! i); [by rewrite set_data_other | done].
+ rewrite <- Hs. by apply lookup_alter_ne.
Qed.

Lemma step_group_frame_adam g w : adam_frame w (step_group g w).1.
Proof.
unfold step_group. destruct (betas g) as [beta1 beta2].
cbn -[adamw fold_each store_from].
pose proof (collect_frame_adam (amsgrad g) w (params g)) as Hc.
destruct (fold_each _ _ _ w) as [w1 [c|e]]; [|apply Hc].
destruct Hc as (Hmem & _ & Hfr & Hids). cbn -[adamw fold_each store_from].
destruct (adamw _ _ _ _ _ _ _ _ _ _) as [after r]. cbn -[adamw fold_each store_from].
assert (Hids1 : collected_ok w1 (params_with_grad c)).
{ unfold collected_ok. by rewrite Hmem. }
eapply adam_frame_trans; [exact Hfr|].
destruct r as [[]|e]; cbn; (apply store_from_frame_adam; [done | apply adam_frame_refl]).
Qed.

Lemma step_at_frame_adam i w : adam_frame w (step_at i w).1.
Proof.
unfold step_at. cbn -[step_group].
destruct (param_groups w !! i) as [g|]; cbn -[step_group]; [|apply adam_frame_refl].
match goal with |- context [step_group ?g' ?w'] =>
pose proof (step_group_frame_adam g' w') as H;
destruct (step_group g' w') as [w2 [[]|e]] end; exact H.
Qed.


End AdamFrame.

(** ** Passing over a parameter raises nothing *)

Lemma sgd_collect_skips p acc w :
  grad (DecoupledSGDW.mem w p) = None -> DecoupledSGDW.collect p acc w = (w, Ok acc).
Proof. intros H. unfold DecoupledSGDW.collect. cbn. by rewrite H. Qed.

Lemma adam_collect_skips amsgrad p acc w :
  adam_skipped (DecoupledAdamW.mem w) p -> DecoupledAdamW.collect amsgrad p acc w = (w, Ok acc).
Proof.
  intros [H|H]; unfold DecoupledAdamW.collect; cbn.
  - by rewrite H.
  - rewrite H. by destruct (grad (DecoupledAdamW.mem w p)).
Qed.

Lemma fold_each_skips {S A B} (xs : list A) (body : A -> B -> M S B) acc s :
  Forall (fun x => body x acc s = (s, Ok acc)) xs -> fold_each xs body acc s = (s, Ok acc).
Proof.
  induction 1 as [|x xs Hx _ IH]; [done|]. cbn. by rewrite Hx.
Qed.

Lemma sgd_step_group_skips g w :
  is_Some (DecoupledSGDW.initial_lr g) ->
  Forall (fun q => grad (DecoupledSGDW.mem w q) = None) (DecoupledSGDW.params g) ->
  DecoupledSGDW.step_group g w = (w, Ok tt).
Proof.
  intros [ilr Hilr] Hps. unfold DecoupledSGDW.step_group. rewrite Hilr.
  cbn -[fold_each DecoupledSGDW.sgdw]. rewrite fold_each_skips.
  - cbn. by destruct w.
  - eapply Forall_impl; [exact Hps|]. intros q Hq. by apply sgd_collect_skips.
Qed.

Lemma sgd_step_skips groups closure w :
  Forall (fun g => is_Some (DecoupledSGDW.initial_lr g)) groups ->
  Forall (fun g => Forall
            (fun q => grad (DecoupledSGDW.mem (DecoupledSGDW.run_closure closure w).1 q) = None)
            (DecoupledSGDW.params g)) groups ->
  exists loss,
    DecoupledSGDW.step groups closure w = ((DecoupledSGDW.run_closure closure w).1, Ok loss).
Proof.
  intros Hilr Hps. unfold DecoupledSGDW.step. cbn -[for_each].
  assert (exists w1 loss, DecoupledSGDW.run_closure closure w = (w1, Ok loss))
    as (w1 & loss & E).
  { unfold DecoupledSGDW.run_closure. destruct closure as [f|]; cbn; [|by eauto].
    destruct (f (DecoupledSGDW.mem w)). eauto. }
  rewrite E in *. cbn -[for_each] in *. exists loss.
  assert (for_each groups DecoupledSGDW.step_group w1 = (w1, Ok tt)) as ->; [|done].
  induction groups as [|g groups IH]; [done|].
  apply Forall_cons in Hilr as [? ?]. apply Forall_cons in Hps as [? ?].
  cbn. rewrite sgd_step_group_skips by done. by apply IH.
Qed.

Lemma adam_step_group_skips g w :
  Forall (adam_skipped (DecoupledAdamW.mem w)) (DecoupledAdamW.params g) ->
  DecoupledAdamW.step_group g w = (w, Ok tt).
Proof.
  intros Hps. unfold DecoupledAdamW.step_group. destruct (DecoupledAdamW.betas g).
  cbn -[fold_each DecoupledAdamW.adamw]. rewrite fold_each_skips.
  - cbn. by destruct w.
  - eapply Forall_impl; [exact Hps|]. intros q Hq. by apply adam_collect_skips.
Qed.

Lemma adam_step_loop_skips l : forall w,
  Forall (fun g => Forall (adam_skipped (DecoupledAdamW.mem w)) (DecoupledAdamW.params g))
    (DecoupledAdamW.param_groups w) ->
  Forall (fun i => (i < length (DecoupledAdamW.param_groups w))%nat) l ->
  exists w', for_each l DecoupledAdamW.step_at w = (w', Ok tt) /\
             DecoupledAdamW.mem w' = DecoupledAdamW.mem w /\
             DecoupledAdamW.state w' = DecoupledAdamW.state w.
Proof.
  induction l as [|i l IH]; intros w Hps Hl; [by exists w|].
  apply Forall_cons in Hl as [Hi Hl].
  destruct (lookup_lt_is_Some_2 _ _ Hi) as [g Hg].
  cbn -[DecoupledAdamW.step_group]. rewrite Hg. cbn -[DecoupledAdamW.step_group].
  rewrite adam_step_group_skips.
  - destruct (IH {| DecoupledAdamW.mem := DecoupledAdamW.mem w;
                    DecoupledAdamW.param_groups :=
                      <[i := DecoupledAdamW.default_initial_lr g]> (DecoupledAdamW.param_groups w);
                    DecoupledAdamW.state := DecoupledAdamW.state w |})
      as (w' & E & Hm & Hs).
    + cbn. apply Forall_insert; [done|].
      unfold DecoupledAdamW.default_initial_lr. destruct (DecoupledAdamW.initial_lr g); cbn;
        exact (proj1 (Forall_lookup _ _) Hps i g Hg).
    + cbn. by rewrite length_insert.
    + exists w'. by rewrite E.
  - cbn. unfold DecoupledAdamW.default_initial_lr. destruct (DecoupledAdamW.initial_lr g); cbn;
      exact (proj1 (Forall_lookup _ _) Hps i g Hg).
Qed.

Lemma adam_step_skips closure w :
  Forall (fun g => Forall (adam_skipped (DecoupledAdamW.mem (DecoupledAdamW.run_closure closure w).1))
                     (DecoupledAdamW.params g)) (DecoupledAdamW.param_groups w) ->
  exists w' loss,
    DecoupledAdamW.step closure w = (w', Ok loss) /\
    DecoupledAdamW.mem w' = DecoupledAdamW.mem (DecoupledAdamW.run_closure closure w).1 /\
    DecoupledAdamW.state w' = DecoupledAdamW.state w.
Proof.
  intros Hps. unfold DecoupledAdamW.step. cbn -[for_each].
  assert (exists w1 loss, DecoupledAdamW.run_closure closure w = (w1, Ok loss) /\
            DecoupledAdamW.param_groups w1 = DecoupledAdamW.param_groups w /\
            DecoupledAdamW.state w1 = DecoupledAdamW.state w)
    as (w1 & loss & E & Hg & Hs).
  { unfold DecoupledAdamW.run_closure. destruct closure as [f|]; cbn; [|by eauto].
    destruct (f (DecoupledAdamW.mem w)). eauto. }
  rewrite E in *. cbn -[for_each] in *. rewrite <- Hg in Hps.
  destruct (adam_step_loop_skips (seq 0 (length (DecoupledAdamW.param_groups w1))) w1 Hps)
    as (w' & E' & Hm' & Hs').
  { apply Forall_forall. intros i Hi. apply elem_of_seq in Hi. lia. }
  exists w', loss. rewrite E'. split; [done|]. split; [done|]. congruence.
Qed.



(** ** A sparse gradient stops DecoupledAdamW.step *)


Section AdamSparse.
Import DecoupledAdamW.


Lemma store_from_groups amsgrad after ids : forall i w,
param_groups (store_from amsgrad i ids after w) = param_groups w.
Proof.
induction ids as [|p ids IH]; intros i w; [done|]. cbn [store_from]. by rewrite IH.
Qed.

Lemma step_group_groups g w : param_groups (step_group g w).1 = param_groups w.
Proof.
unfold step_group. destruct (betas g) as [beta1 beta2].
cbn -[adamw fold_each store_from].
pose proof (collect_frame_adam (amsgrad g) w (params g)) as Hc.
destruct (fold_each _ _ _ w) as [w1 [c|e]]; [|apply Hc].
destruct Hc as (_ & Hgr & _). cbn -[adamw fold_each store_from].
destruct (adamw _ _ _ _ _ _ _ _ _ _) as [after r]. cbn -[adamw fold_each store_from].
destruct r as [[]|e]; cbn -[store_from]; by rewrite store_from_groups.
Qed.

End AdamSparse.

Section AdamSparseStep.
Import DecoupledAdamW.


End AdamSparseStep.

Ltac adam_unfold :=
  unfold DecoupledAdamW.step, DecoupledAdamW.run_closure, DecoupledAdamW.step_at,
    DecoupledAdamW.step_group, DecoupledAdamW.collect, DecoupledAdamW.state_entry,
    DecoupledAdamW.set_state, DecoupledAdamW.adamw, DecoupledAdamW.adamw_at,
    DecoupledAdamW.decay_at, DecoupledAdamW.moments_at, DecoupledAdamW.param_at,
    DecoupledAdamW.exp_avg_at, DecoupledAdamW.exp_avg_sq_at,
    DecoupledAdamW.max_exp_avg_sq_at, DecoupledAdamW.set_param, DecoupledAdamW.set_exp_avg,
    DecoupledAdamW.set_exp_avg_sq, DecoupledAdamW.set_max_exp_avg_sq,
    DecoupledAdamW.default_initial_lr, DecoupledAdamW.no_lists.





Ltac run_python :=
  repeat first
    [ progress cbn -[math_sqrt float_div]
    | progress map_lookups
    | decide_real
    | rewrite math_sqrt_ok by (simpl; lra)
    | rewrite float_div_ok by (simpl; lra) ].

Lemma adam_one_step :
  DecoupledAdamW.step None (adam_world one_gradient) = (adam_stepped, Ok None).
Proof.
  unfold adam_world, adam_group, one_gradient, adam_stepped. adam_unfold.
  run_python.
  rewrite insert_insert_eq, alter_insert_eq, insert_empty. cbn.
  rewrite decay_factor_same.
  replace (0 * 0 + (1 - 0) * (1 * 1)) with 1 by lra.
  replace (0 * 0 + (1 - 0) * 1) with 1 by lra.
  replace (1 - 0 * 1) with 1 by lra. rewrite sqrt_1.
  replace (4 * (1 - 1 * / 2) + - (1 / 1) * (1 / (1 / 1 + 1))) with (3 / 2) by field.
  reflexivity.
Qed.

Lemma adam_stepped_step_tensor :
  DecoupledAdamW.step_tensor_of 1 1 (/ 2) 1 0 0 (DecoupledAdamW.mem adam_stepped 0%nat)
    {| DecoupledAdamW.steps := 1; DecoupledAdamW.exp_avg := [1];
       DecoupledAdamW.exp_avg_sq := [1]; DecoupledAdamW.max_exp_avg_sq := None |}
  = Ok [- / 4].
Proof.
  unfold DecoupledAdamW.step_tensor_of. cbn -[math_sqrt float_div].
  rewrite math_sqrt_ok, float_div_ok by lra. cbn.
  rewrite decay_factor_same. replace (1 - 0 * 1) with 1 by lra. rewrite !sqrt_1.
  do 2 f_equal. field.
Qed.

Lemma adam_stepped_report :
  exists m,
    DecoupledAdamW.report_per_parameter_metrics adam_stepped 0 "w" [] = (m, Ok tt) /\
    lookup_metric "l2_norm/update/w" m = Some (vector_norm [- / 4]).
Proof.
  unfold DecoupledAdamW.report_per_parameter_metrics, adam_stepped.
  cbn -[DecoupledAdamW.step_tensor_of DecoupledAdamW.metric_functions for_each].
  rewrite lookup_singleton_eq.
  cbn -[DecoupledAdamW.step_tensor_of DecoupledAdamW.metric_functions for_each].
  change {| data := [3 / 2]; grad := Some {| is_sparse := false; values := [1] |};
            requires_grad := true |} with (DecoupledAdamW.mem adam_stepped 0%nat).
  rewrite adam_stepped_step_tensor.
  eexists. split; [py_compute; reflexivity | reflexivity].
Qed.

(** C5, at a step taken from [adam_world one_gradient].  The step takes the
    parameter from [4] to [3/2], so it subtracts [5/2]; the step tensor that
    [report_per_parameter_metrics] then derives from the first group and the
    parameter's state is [-1/4] (the decay term enters with a minus sign and
    is taken on the updated parameter), and this is the tensor whose norm is
    reported as l2_norm/update. *)
Theorem step_tensor_is_not_the_update :
  DecoupledAdamW.step None (adam_world one_gradient) = (adam_stepped, Ok None) /\
  data (DecoupledAdamW.mem (adam_world one_gradient) 0%nat) = [4] /\
  data (DecoupledAdamW.mem adam_stepped 0%nat) = [3 / 2] /\
  (exists st step_tensor m,
     DecoupledAdamW.state adam_stepped !! 0%nat = Some st /\
     DecoupledAdamW.step_tensor_of 1 1 (/ 2) 1 0 0 (DecoupledAdamW.mem adam_stepped 0%nat) st
       = Ok step_tensor /\
     step_tensor = [- / 4] /\
     DecoupledAdamW.report_per_parameter_metrics adam_stepped 0 "w" [] = (m, Ok tt) /\
     lookup_metric "l2_norm/update/w" m = Some (vector_norm step_tensor) /\
     add_ (data (DecoupledAdamW.mem (adam_world one_gradient) 0%nat)) step_tensor (- 1)
       <> data (DecoupledAdamW.mem adam_stepped 0%nat)).
Proof.
  split; [apply adam_one_step|]. split; [reflexivity|]. split; [reflexivity|].
  destruct adam_stepped_report as (m & Hm & Hupdate).
  eexists _, [- / 4], m. split; [apply lookup_singleton_eq|].
  split; [apply adam_stepped_step_tensor|]. split; [reflexivity|].
  split; [exact Hm|]. split; [exact Hupdate|].
  cbn. intros [= H]. lra.
Qed.

(** C4, at a parameter of two elements whose second moment is [9; 16].  The
    norm of the element-wise square root [3; 4] is 5; the entry
    l2_norm/second_moment_sqrt is the square root of the norm of [9; 16],
    the fourth root of 337. *)
Theorem second_moment_sqrt_is_sqrt_of_norm :
  exists st m,
    DecoupledAdamW.state two_elements !! 0%nat = Some st /\
    DecoupledAdamW.report_per_parameter_metrics two_elements 0 "w" [] = (m, Ok tt) /\
    lookup_metric "l2_norm/second_moment_sqrt/w" m = Some (sqrt (sqrt 337)) /\
    vector_norm (tsqrt (DecoupledAdamW.exp_avg_sq st)) = 5 /\
    sqrt (sqrt 337) <> 5.
Proof.
  assert (Hnorm : vector_norm [9; 16] = sqrt 337).
  { unfold vector_norm, dot. cbn. f_equal. lra. }
  assert (H3 : sqrt 9 = 3) by (replace 9 with (3 * 3) by lra; apply sqrt_square; lra).
  assert (H4 : sqrt 16 = 4) by (replace 16 with (4 * 4) by lra; apply sqrt_square; lra).
  eexists _, _. split; [apply lookup_singleton_eq|]. split; [|split; [|split]].
  - unfold DecoupledAdamW.report_per_parameter_metrics, two_elements.
    cbn -[DecoupledAdamW.step_tensor_of DecoupledAdamW.metric_functions for_each].
    rewrite lookup_singleton_eq.
    cbn -[DecoupledAdamW.step_tensor_of DecoupledAdamW.metric_functions for_each].
    unfold DecoupledAdamW.step_tensor_of. cbn -[math_sqrt float_div for_each
      DecoupledAdamW.metric_functions].
    rewrite math_sqrt_ok, float_div_ok by lra.
    py_compute. reflexivity.
  - cbn. by rewrite Hnorm.
  - cbn [DecoupledAdamW.exp_avg_sq tsqrt map]. rewrite H3, H4.
    unfold vector_norm, dot. cbn. replace (3 * 3 + (4 * 4 + 0)) with (5 * 5) by lra.
    apply sqrt_square. lra.
  - intros H. assert (H' : sqrt 337 = 25).
    { rewrite <- (sqrt_sqrt (sqrt 337)) by apply sqrt_pos. rewrite H. lra. }
    assert (H'' : 337 = 625).
    { rewrite <- (sqrt_sqrt 337) by lra. rewrite H'. lra. }
    lra.
Qed.

(** C10.  [report_per_parameter_metrics] reads lr, eps, weight_decay,
    initial_lr and betas from the first parameter group: its result does
    not depend on the other groups, whichever of them lists the parameter,
    and for a parameter with state it runs the catalogue on the step tensor
    built from the first group's values.  For a parameter without state it
    returns the record as it was given. *)
Theorem report_reads_first_group (w : DecoupledAdamW.world) (param : nat) (name : string)
    (m : metrics) (g0 : DecoupledAdamW.group) (rest : list DecoupledAdamW.group)
    (initial_lr : R) :
  DecoupledAdamW.param_groups w = g0 :: rest ->
  DecoupledAdamW.initial_lr g0 = Some initial_lr ->
  (forall rest',
     DecoupledAdamW.report_per_parameter_metrics
       {| DecoupledAdamW.mem := DecoupledAdamW.mem w;
          DecoupledAdamW.param_groups := g0 :: rest';
          DecoupledAdamW.state := DecoupledAdamW.state w |} param name m
     = DecoupledAdamW.report_per_parameter_metrics w param name m) /\
  (forall st,
     DecoupledAdamW.state w !! param = Some st ->
     DecoupledAdamW.report_per_parameter_metrics w param name m =
       match DecoupledAdamW.step_tensor_of
               (DecoupledAdamW.lr g0) (DecoupledAdamW.eps g0) (DecoupledAdamW.weight_decay g0)
               initial_lr (DecoupledAdamW.betas g0).1 (DecoupledAdamW.betas g0).2
               (DecoupledAdamW.mem w param) st with
       | Ok step_tensor =>
           for_each DecoupledAdamW.metric_functions
             (fun mf => let! v := lift (mf.2 (DecoupledAdamW.mem w param) st step_tensor) in
                        setitem (mf.1 +:+ "/" +:+ name) v) m
       | Raise e => (m, Raise e)
       end) /\
  (DecoupledAdamW.state w !! param = None ->
   DecoupledAdamW.report_per_parameter_metrics w param name m = (m, Ok tt)).
Proof.
  intros Hgroups Hilr. unfold DecoupledAdamW.report_per_parameter_metrics.
  rewrite Hgroups. cbn -[for_each DecoupledAdamW.metric_functions DecoupledAdamW.step_tensor_of].
  rewrite Hilr. cbn -[for_each DecoupledAdamW.metric_functions DecoupledAdamW.step_tensor_of].
  destruct (DecoupledAdamW.betas g0) as [beta1 beta2].
  split; [done|]. split.
  - intros st ->. cbn -[for_each DecoupledAdamW.metric_functions DecoupledAdamW.step_tensor_of].
    by destruct (DecoupledAdamW.step_tensor_of _ _ _ _ _ _ _ _).
  - by intros ->.
Qed.

Lemma report_reads_first_group_witness :
  DecoupledAdamW.report_per_parameter_metrics (adam_world one_gradient) 1 "w"
    [("loss", 1)]%string = ([("loss", 1)]%string, Ok tt) /\
  DecoupledAdamW.report_per_parameter_metrics
    {| DecoupledAdamW.mem := one_gradient;
       DecoupledAdamW.param_groups := [adam_group; adam_group];
       DecoupledAdamW.state := ∅ |} 1 "w" [("loss", 1)]%string
  = DecoupledAdamW.report_per_parameter_metrics (adam_world one_gradient) 1 "w"
      [("loss", 1)]%string.
Proof.
  destruct (report_reads_first_group (adam_world one_gradient) 1 "w" [("loss", 1)]%string
              adam_group [] 1 eq_refl eq_refl) as (Hrest & _ & Hnone).
  split.
  - apply Hnone. reflexivity.
  - apply (Hrest [adam_group]).
Defined.

(** ** The order in which the passes visit the keys *)

Lemma startswith_contains p s : startswith s p = true -> contains p s = true.
Proof. unfold startswith. intros H. destruct s; cbn [contains]; by rewrite H. Qed.

Lemma insert_sorted_first key x l : key x = 0%nat -> insert_sorted key x l = x :: l.
Proof. intros H. destruct l as [|y l]; cbn; [done|]. by rewrite H. Qed.

Lemma insert_sorted_last x (zeros ones : list string) :
  l2_first x = 1%nat ->
  Forall (fun k => l2_first k = 0%nat) zeros -> Forall (fun k => l2_first k = 1%nat) ones ->
  insert_sorted l2_first x (zeros ++ ones) = zeros ++ x :: ones.
Proof.
  intros Hx Hz Ho. induction Hz as [|z zeros Hz _ IH]; cbn.
  - destruct Ho as [|o ones Ho _]; cbn; [done|]. by rewrite Hx, Ho.
  - by rewrite Hx, Hz, IH.
Qed.

(** The stable sort by [l2_first]: the keys that contain "l2_norm", in
    their order, then the others, in their order. *)
Lemma sorted_l2_first_split l :
  sorted l2_first l =
  List.filter (fun k => contains "l2_norm" k) l ++
  List.filter (fun k => negb (contains "l2_norm" k)) l.
Proof.
  induction l as [|x l IH]; [done|]. cbn [sorted List.filter]. rewrite IH.
  destruct (contains "l2_norm" x) eqn:E; cbn [negb].
  - apply insert_sorted_first. unfold l2_first. by rewrite E.
  - apply insert_sorted_last.
    + unfold l2_first. by rewrite E.
    + apply Forall_forall. intros k Hk. apply list_elem_of_In, filter_In in Hk as [_ Hk].
      unfold l2_first. by rewrite Hk.
    + apply Forall_forall. intros k Hk. apply list_elem_of_In, filter_In in Hk as [_ Hk].
      unfold l2_first. by destruct (contains "l2_norm" k).
Qed.

(** ** The reduction of [cosine] entries that come after their norms *)

Section LoopWithInvariant.
Variable body : string -> M metrics unit.
Variable P : metrics -> Prop.

(** [P] holds throughout a loop whose iterations keep it. *)
Lemma loop_entry_inv ks m m' k (f : R -> R) v :
NoDup ks -> k ∈ ks ->
(forall k' m0 m1 r k'', body k' m0 = (m1, r) -> k'' <> k' ->
                  lookup_metric k'' m1 = lookup_metric k'' m0) ->
(forall k' m0 m1 r, k' ∈ ks -> P m0 -> body k' m0 = (m1, r) -> P m1) ->
(forall m0 m1, P m0 -> lookup_metric k m0 = Some v -> body k m0 = (m1, Ok tt) ->
         lookup_metric k m1 = Some (f v)) ->
for_each ks body m = (m', Ok tt) -> P m ->
lookup_metric k m = Some v ->
lookup_metric k m' = Some (f v).
Proof.
intros Hnd Hk Hframe Hkeep Hbody. revert m.
induction ks as [|k0 ks IH]; intros m H HP Hv.
- by apply elem_of_nil in Hk.
- apply NoDup_cons in Hnd as [Hk0 Hnd].
apply for_each_cons_ok in H as (m1 & H1 & H2).
assert (HP1 : P m1) by (eapply Hkeep; [left | exact HP | exact H1]).
apply elem_of_cons in Hk as [->|Hk].
+ rewrite (loop_frame body Hframe _ _ _ _ _ H2 Hk0). eauto.
+ apply (IH Hnd Hk (fun k' m0 m2 r Hk' => Hkeep k' m0 m2 r ltac:(by right)) m1 H2 HP1).
rewrite (Hframe _ _ _ _ _ H1); [done|]. set_solver.
Qed.
End LoopWithInvariant.

Lemma NoDup_filter_In (l : list string) (f : string -> bool) :
  NoDup l -> NoDup (List.filter f l).
Proof. intros H. rewrite NoDup_ListNoDup in *. by apply List.NoDup_filter. Qed.

Lemma elem_of_filter_In (l : list string) (f : string -> bool) k :
  k ∈ List.filter f l <-> k ∈ l /\ f k = true.
Proof. by rewrite !list_elem_of_In, filter_In. Qed.

(** The pre-reduce pass on a cosine entry that does not contain "l2_norm":
    both norms have been squared before it is visited. *)
Lemma pre_reduce_cosine m m1 c a b va vb vc :
  well_formed m -> pre_reduce_metrics m = (m1, Ok tt) ->
  startswith c "cosine" = true -> contains "l2_norm" c = false ->
  cosine_norm_keys c = Ok (a, b) ->
  lookup_metric a m = Some va -> lookup_metric b m = Some vb -> lookup_metric c m = Some vc ->
  lookup_metric c m1 = Some (vc * (va * vb)).
Proof.
  intros (Hnd & Hpos & _) H Hcos Hcont Hp Ha Hb Hc.
  assert (Hl2 : startswith c "l2_norm" = false).
  { destruct (startswith c "l2_norm") eqn:E; [|done].
    apply startswith_contains in E. congruence. }
  destruct (cosine_norm_keys_l2 _ _ _ Hp) as [Hla Hlb].
  unfold pre_reduce_metrics in H. rewrite sorted_l2_first_split, for_each_app in H.
  destruct (for_each (List.filter _ (keys m)) pre_reduce_metric m) as [m0 [[]|e]] eqn:E0;
    [|discriminate].
  set (zeros := List.filter (fun k => contains "l2_norm" k) (keys m)) in *.
  set (ones := List.filter (fun k => negb (contains "l2_norm" k)) (keys m)) in *.
  assert (Hz : NoDup zeros) by by apply NoDup_filter_In.
  assert (Ho : NoDup ones) by by apply NoDup_filter_In.
  assert (Hin : forall k v, startswith k "l2_norm" = true -> lookup_metric k m = Some v ->
                            lookup_metric k m0 = Some (v ^ 2) /\ k ∉ ones).
  { intros k v Hk Hv. split.
    - eapply (loop_entry _ pre_reduce_metric_frame zeros m m0 k (fun x => x ^ 2) v);
        [done| |..|exact E0|exact Hv].
      + apply elem_of_filter_In. split; [by eapply lookup_metric_Some|].
        by apply startswith_contains.
      + intros m2 m3 Hv2 Hb2. rewrite (pre_reduce_metric_l2 _ _ _ Hk Hv2) in Hb2.
        injection Hb2 as <-. apply lookup_assign_eq.
    - intros Hk'. apply elem_of_filter_In in Hk' as [_ Hk'].
      by rewrite (startswith_contains _ _ Hk) in Hk'. }
  destruct (Hin a va Hla Ha) as [Ha0 Hao]. destruct (Hin b vb Hlb Hb) as [Hb0 Hbo].
  assert (Hc0 : lookup_metric c m0 = Some vc).
  { rewrite (loop_frame _ pre_reduce_metric_frame _ _ _ _ _ E0); [done|].
    intros Hc'. apply elem_of_filter_In in Hc' as [_ Hc']. congruence. }
  eapply (loop_entry_inv pre_reduce_metric
            (fun s => lookup_metric a s = Some (va ^ 2) /\ lookup_metric b s = Some (vb ^ 2))
            ones m0 m1 c (fun x => x * (va * vb)) vc);
    [exact Ho| |apply pre_reduce_metric_frame| | |exact H|done|exact Hc0].
  - apply elem_of_filter_In. split; [by eapply lookup_metric_Some|]. by rewrite Hcont.
  - intros k' s s' r Hk' [Hsa Hsb] Hbody. split.
    + rewrite (pre_reduce_metric_frame _ _ _ _ _ Hbody); [done|]. by intros ->.
    + rewrite (pre_reduce_metric_frame _ _ _ _ _ Hbody); [done|]. by intros ->.
  - intros s s' [Hsa Hsb] Hsc Hbody.
    rewrite (pre_reduce_metric_cosine _ _ _ _ _ _ _ Hl2 Hcos Hp Hsa Hsb Hsc) in Hbody;
      [|apply pow2_ge_0..].
    injection Hbody as <-. rewrite lookup_assign_eq.
    change (va * (va * 1)) with (va ^ 2). change (vb * (vb * 1)) with (vb ^ 2).
    rewrite (sqrt_pow2 va) by exact (Hpos _ _ Hla Ha).
    by rewrite (sqrt_pow2 vb) by exact (Hpos _ _ Hlb Hb).
Qed.

(** The post-reduce pass on a cosine entry that comes after its norms: both
    norms have been reconstructed before it is visited. *)
Lemma dist_reduce_cosine ws ps m m2 l1 c l2 a b va vb vc :
  NoDup (keys m) -> dist_reduce_metrics ws ps m = (m2, Ok tt) ->
  keys m = l1 ++ c :: l2 -> a ∈ l1 -> b ∈ l1 ->
  startswith c "cosine" = true -> startswith c "l2_norm" = false ->
  cosine_norm_keys c = Ok (a, b) ->
  lookup_metric a m = Some va -> lookup_metric b m = Some vb -> lookup_metric c m = Some vc ->
  lookup_metric c m2 =
    Some (summed ws ps c vc / (sqrt (summed ws ps a va) * sqrt (summed ws ps b vb))).
Proof.
  intros Hnd H Hkeys Hal Hbl Hcos Hl2 Hp Ha Hb Hc.
  destruct (cosine_norm_keys_l2 _ _ _ Hp) as [Hla Hlb].
  unfold dist_reduce_metrics in H. rewrite Hkeys in H, Hnd.
  apply NoDup_app in Hnd as (Hnd1 & Hdisj & Hnd2). apply NoDup_cons in Hnd2 as [Hc2 Hnd2].
  assert (Hc1 : c ∉ l1) by (intros Hc1; apply (Hdisj c Hc1); left).
  rewrite for_each_app in H.
  destruct (for_each l1 (dist_reduce_metric ws ps) m) as [m0 [[]|e]] eqn:E0; [|discriminate].
  apply for_each_cons_ok in H as (m1 & Hbody & Hrest).
  assert (Hentry : forall k v, k ∈ l1 -> startswith k "l2_norm" = true ->
                               lookup_metric k m = Some v ->
                               lookup_metric k m0 = Some (sqrt (summed ws ps k v))).
  { intros k v Hk Hkl Hv.
    eapply (loop_entry _ (dist_reduce_metric_frame ws ps) l1 m m0 k
              (fun x => sqrt (summed ws ps k x)) v); [done|done| |exact E0|exact Hv].
    intros s s' Hs Hb'. by eapply dist_reduce_metric_l2. }
  assert (Hc0 : lookup_metric c m0 = Some vc).
  { by rewrite (loop_frame _ (dist_reduce_metric_frame ws ps) _ _ _ _ _ E0). }
  destruct (dist_reduce_metric_cosine ws ps _ _ _ _ _ _ _ Hl2 Hcos Hp
              (Hentry _ _ Hal Hla Ha) (Hentry _ _ Hbl Hlb Hb) Hc0) as (m1' & E1 & _ & Hv).
  rewrite E1 in Hbody. injection Hbody as ->.
  by rewrite (loop_frame _ (dist_reduce_metric_frame ws ps) _ _ _ _ _ Hrest).
Qed.

Lemma cosine_eps_pos : 0 < DecoupledAdamW.cosine_eps.
Proof. unfold DecoupledAdamW.cosine_eps. apply Rinv_0_lt_compat. lra. Qed.

Lemma cosine_times_norms A B :
  DecoupledAdamW.cosine_eps <= vector_norm A * vector_norm B \/ dot A B = 0 ->
  cosine_similarity DecoupledAdamW.cosine_eps A B * (vector_norm A * vector_norm B) = dot A B.
Proof.
  pose proof cosine_eps_pos as Heps. unfold cosine_similarity. intros [H|H].
  - rewrite Rmax_left by done. set (P := vector_norm A * vector_norm B) in *.
    unfold Rdiv. rewrite Rmult_assoc, Rinv_l; lra.
  - rewrite H. unfold Rdiv. by rewrite !Rmult_0_l.
Qed.

Lemma dot_concat (shards : list (tensor * tensor)) :
  Forall (fun AB => length AB.1 = length AB.2) shards ->
  dot (concat (map fst shards)) (concat (map snd shards))
  = sum_list (map (fun AB => dot AB.1 AB.2) shards).
Proof.
  induction 1 as [|[A B] shards HAB _ IH]; [reflexivity|].
  cbn [map concat sum_list foldr]. cbn in HAB. by rewrite dot_app, IH.
Qed.

Lemma sum_list_cons x l : sum_list (x :: l) = x + sum_list l.
Proof. reflexivity. Qed.

Lemma vector_norm_shards (t : tensor) (ts : list tensor) :
  vector_norm (t ++ concat ts)
  = sqrt (vector_norm t ^ 2 + sum_list (map (fun u => vector_norm u ^ 2) ts)).
Proof.
  unfold vector_norm at 1. by rewrite dot_app, dot_concat_self, <- vector_norm_pow2.
Qed.

(** What the peers contribute for the three keys of a pair of vectors. *)
Lemma peer_sums_of_shards peers (shards : list (tensor * tensor)) a b c :
  Forall well_formed peers ->
  startswith c "cosine" = true -> contains "l2_norm" c = false ->
  cosine_norm_keys c = Ok (a, b) ->
  Forall2 (fun p AB => holds_shards p a b c AB.1 AB.2) peers shards ->
  peer_sum_of peers a = sum_list (map (fun t => vector_norm t ^ 2) (map fst shards)) /\
  peer_sum_of peers b = sum_list (map (fun t => vector_norm t ^ 2) (map snd shards)) /\
  peer_sum_of peers c = sum_list (map (fun AB => dot AB.1 AB.2) shards) /\
  Forall (fun AB => length AB.1 = length AB.2) shards.
Proof.
  intros Hwf Hcos Hcont Hp H. destruct (cosine_norm_keys_l2 _ _ _ Hp) as [Hla Hlb].
  unfold peer_sum_of.
  induction H as [|p [A B] peers shards (Ha & Hb & Hc & Hlen & Hclamp) H IH];
    [by repeat split|].
  apply Forall_cons in Hwf as [Hwfp Hwf]. destruct (IH Hwf) as (IHa & IHb & IHc & IHl).
  destruct (pre_reduce_metrics_total p Hwfp) as (p1 & E & _).
  cbn [map fst snd]. cbn in Ha, Hb, Hc, Hlen, Hclamp. rewrite !sum_list_cons, E. cbn [fst].
  rewrite (pre_reduce_l2 _ _ _ _ (proj1 Hwfp) E Hla Ha).
  rewrite (pre_reduce_l2 _ _ _ _ (proj1 Hwfp) E Hlb Hb).
  rewrite (pre_reduce_cosine _ _ _ _ _ _ _ _ Hwfp E Hcos Hcont Hp Ha Hb Hc).
  cbn [default]. rewrite IHa, IHb, IHc, cosine_times_norms by done.
  repeat split; try done. by constructor.
Qed.

(** X1.  On a record in which the norm keys come before the cosine key that
    refers to them, the passes return the cosine similarity of the whole
    vectors: the sum of the local dot products over the product of the
    reconstructed norms. *)
Theorem global_cosine_of_shards (local : metrics) (peers : list metrics)
    (l1 l2 : list string) (a b c : string) (A0 B0 : tensor) (shards : list (tensor * tensor)) :
  well_formed local -> Forall well_formed peers ->
  keys local = l1 ++ c :: l2 -> a ∈ l1 -> b ∈ l1 ->
  startswith c "cosine" = true -> contains "l2_norm" c = false ->
  cosine_norm_keys c = Ok (a, b) ->
  holds_shards local a b c A0 B0 ->
  Forall2 (fun p AB => holds_shards p a b c AB.1 AB.2) peers shards ->
  let A := A0 ++ concat (map fst shards) in
  let B := B0 ++ concat (map snd shards) in
  exists m2,
    reduce_metrics peers local = (m2, Ok tt) /\
    lookup_metric c m2 = Some (dot A B / (vector_norm A * vector_norm B)) /\
    (DecoupledAdamW.cosine_eps <= vector_norm A * vector_norm B ->
     lookup_metric c m2 = Some (cosine_similarity DecoupledAdamW.cosine_eps A B)).
Proof.
  intros Hwf Hpeers Hkeys Hal Hbl Hcos Hcont Hp (Ha & Hb & Hc & Hlen & Hclamp) Hshards A B.
  assert (Hl2 : startswith c "l2_norm" = false).
  { destruct (startswith c "l2_norm") eqn:E; [|done].
    apply startswith_contains in E. congruence. }
  destruct (cosine_norm_keys_l2 _ _ _ Hp) as [Hla Hlb].
  destruct (pre_reduce_metrics_total local Hwf) as (m1 & E1 & Hkept).
  destruct (dist_reduce_metrics_total (S (length peers)) (peer_sum_of peers) local m1 Hwf
              (fun k => peer_sum_of_nonneg peers k Hpeers) Hkept) as (m2 & E2 & _).
  assert (Hnd1 : NoDup (keys m1)) by (rewrite (proj1 Hkept); apply Hwf).
  pose proof (pre_reduce_l2 _ _ _ _ (proj1 Hwf) E1 Hla Ha) as Ha1.
  pose proof (pre_reduce_l2 _ _ _ _ (proj1 Hwf) E1 Hlb Hb) as Hb1.
  pose proof (pre_reduce_cosine _ _ _ _ _ _ _ _ Hwf E1 Hcos Hcont Hp Ha Hb Hc) as Hc1.
  rewrite <- (proj1 Hkept) in Hkeys.
  pose proof (dist_reduce_cosine _ _ _ _ _ _ _ _ _ _ _ _ Hnd1 E2 Hkeys Hal Hbl Hcos Hl2 Hp
                Ha1 Hb1 Hc1) as Hc2.
  rewrite !summed_peer_sum_of in Hc2.
  destruct (peer_sums_of_shards _ _ _ _ _ Hpeers Hcos Hcont Hp Hshards)
    as (Hpa & Hpb & Hpc & Hlens).
  rewrite Hpa, Hpb, Hpc, cosine_times_norms in Hc2 by done.
  assert (Hval : lookup_metric c m2 = Some (dot A B / (vector_norm A * vector_norm B))).
  { rewrite Hc2. f_equal. unfold A, B.
    rewrite dot_app, dot_concat by done. f_equal.
    by rewrite !vector_norm_shards. }
  exists m2. split; [unfold reduce_metrics; cbn; by rewrite E1|]. split; [done|].
  intros Hbig. rewrite Hval. unfold cosine_similarity. by rewrite Rmax_left.
Qed.

(** ** One rank: the passes give the record back *)

Lemma metrics_ext (m m' : metrics) :
  keys m' = keys m -> NoDup (keys m) ->
  (forall k, k ∈ keys m -> lookup_metric k m' = lookup_metric k m) ->
  m' = m.
Proof.
  revert m'. induction m as [|[k v] m IH]; intros [|[k' v'] m'] Hkeys Hnd Hall;
    try done; cbn in Hkeys; simplify_eq.
  apply NoDup_cons in Hnd as [Hk Hnd].
  pose proof (Hall k ltac:(left)) as Hv. cbn in Hv. rewrite String.eqb_refl in Hv.
  injection Hv as ->. f_equal. apply IH; [done..|].
  intros k' Hk'. specialize (Hall k' ltac:(by right)). cbn in Hall.
  destruct (String.eqb k' k) eqn:E; [|done].
  apply String.eqb_eq in E as ->. done.
Qed.

Lemma pre_reduce_other m m1 k v :
  NoDup (keys m) -> pre_reduce_metrics m = (m1, Ok tt) ->
  startswith k "l2_norm" = false -> startswith k "cosine" = false ->
  lookup_metric k m = Some v -> lookup_metric k m1 = Some v.
Proof.
  intros Hnd H Hl2 Hcos Hv. unfold pre_reduce_metrics in H.
  eapply (loop_entry _ pre_reduce_metric_frame (sorted l2_first (keys m)) m m1 k
            (fun x => x) v); [by rewrite sorted_perm| |..|exact H|exact Hv].
  - rewrite sorted_perm. by eapply lookup_metric_Some.
  - intros s s' Hs Hb. unfold pre_reduce_metric in Hb. rewrite Hl2, Hcos in Hb.
    cbn in Hb. by simplify_eq.
Qed.

Lemma dist_reduce_other ws ps m m2 k v :
  NoDup (keys m) -> dist_reduce_metrics ws ps m = (m2, Ok tt) ->
  startswith k "l2_norm" = false -> startswith k "cosine" = false ->
  lookup_metric k m = Some v -> lookup_metric k m2 = Some (summed ws ps k v / INR ws).
Proof.
  intros Hnd H Hl2 Hcos Hv. unfold dist_reduce_metrics in H.
  eapply (loop_entry _ (dist_reduce_metric_frame ws ps) (keys m) m m2 k
            (fun x => summed ws ps k x / INR ws) v); [done| |..|exact H|exact Hv].
  - by eapply lookup_metric_Some.
  - intros s s' Hs Hb. unfold dist_reduce_metric, all_reduce, summed in *.
    rewrite Hl2, Hcos in Hb. cbn -[Nat.ltb INR] in Hb. rewrite Hs in Hb.
    destruct (1 <? ws)%nat; cbn -[INR] in Hb; simplify_eq; by rewrite lookup_assign_eq.
Qed.

Lemma dist_reduce_metrics_single ps ps' m :
  dist_reduce_metrics 1 ps m = dist_reduce_metrics 1 ps' m.
Proof. reflexivity. Qed.

(** X2.  With one rank, on a well-formed record in which the norm keys come
    before the cosine keys that refer to them and a norm a cosine entry
    refers to is not zero, the two passes return the record they were given,
    whatever the process group would contribute. *)
Theorem single_rank_identity (m : metrics) (peer_sum : string -> R) :
  well_formed m -> norms_first m ->
  (forall c a b va vb,
     c ∈ keys m -> startswith c "cosine" = true -> cosine_norm_keys c = Ok (a, b) ->
     lookup_metric a m = Some va -> lookup_metric b m = Some vb -> va <> 0 /\ vb <> 0) ->
  bind pre_reduce_metrics (fun _ => dist_reduce_metrics 1 peer_sum) m = (m, Ok tt).
Proof.
  intros Hwf Hfirst Hnz.
  destruct (pre_reduce_metrics_total m Hwf) as (m1 & E1 & Hkept).
  assert (Hnd1 : NoDup (keys m1)) by (rewrite (proj1 Hkept); apply Hwf).
  destruct (dist_reduce_metrics_total 1 (fun _ => 0) m m1 (conj (proj1 Hwf) (proj2 Hwf))
              ltac:(intros; lra) Hkept) as (m2 & E2 & Hkept2).
  rewrite (dist_reduce_metrics_single (fun _ => 0) peer_sum) in E2.
  cbn. rewrite E1, E2. f_equal. destruct Hwf as (Hnd & Hpos & Hcosine).
  apply metrics_ext; [exact (proj1 Hkept2)|done|]. intros k Hk.
  destruct (lookup_metric_is_Some _ _ Hk) as [v Hv]. rewrite Hv.
  destruct (startswith k "l2_norm") eqn:Hl2.
  - pose proof (pre_reduce_l2 _ _ _ _ Hnd E1 Hl2 Hv) as Hv1.
    rewrite (dist_reduce_l2 _ _ _ _ _ _ Hnd1 E2 Hl2 Hv1). unfold summed. cbn -[pow].
    by rewrite sqrt_pow2 by exact (Hpos _ _ Hl2 Hv).
  - destruct (startswith k "cosine") eqn:Hcos.
    + apply list_elem_of_split in Hk as Hsplit. destruct Hsplit as (l1 & l2 & Hkeys).
      destruct (Hfirst l1 k l2 Hkeys Hcos) as (Hcont & a & b & Hp & Hal & Hbl).
      destruct (cosine_norm_keys_l2 _ _ _ Hp) as [Hla Hlb].
      assert (a ∈ keys m) as Hain by (rewrite Hkeys; apply elem_of_app; by left).
      assert (b ∈ keys m) as Hbin by (rewrite Hkeys; apply elem_of_app; by left).
      destruct (lookup_metric_is_Some _ _ Hain) as [va Hva].
      destruct (lookup_metric_is_Some _ _ Hbin) as [vb Hvb].
      destruct (Hnz k a b va vb Hk Hcos Hp Hva Hvb) as [Hva0 Hvb0].
      pose proof (pre_reduce_l2 _ _ _ _ Hnd E1 Hla Hva) as Ha1.
      pose proof (pre_reduce_l2 _ _ _ _ Hnd E1 Hlb Hvb) as Hb1.
      pose proof (pre_reduce_cosine m m1 k a b va vb v (conj Hnd (conj Hpos Hcosine)) E1 Hcos
                    Hcont Hp Hva Hvb Hv) as Hc1.
      rewrite <- (proj1 Hkept) in Hkeys.
      rewrite (dist_reduce_cosine _ _ _ _ _ _ _ _ _ _ _ _ Hnd1 E2 Hkeys Hal Hbl Hcos Hl2 Hp
                 Ha1 Hb1 Hc1).
      unfold summed. cbn -[pow].
      rewrite (sqrt_pow2 va) by exact (Hpos _ _ Hla Hva).
      rewrite (sqrt_pow2 vb) by exact (Hpos _ _ Hlb Hvb). f_equal. by field.
    + pose proof (pre_reduce_other _ _ _ _ Hnd E1 Hl2 Hcos Hv) as Hv1.
      rewrite (dist_reduce_other _ _ _ _ _ _ Hnd1 E2 Hl2 Hcos Hv1). unfold summed. cbn.
      f_equal. field.
Qed.

(** ** The passes on a record in the order the optimizer writes it *)

Lemma well_formed_norms_then_cosine A B : well_formed (norms_then_cosine A B).
Proof.
  split; [|split].
  - cbn. repeat (apply NoDup_cons; split;
      [rewrite ?elem_of_cons, elem_of_nil; intuition discriminate|]). apply NoDup_nil_2.
  - intros k v Hk. cbn.
    destruct (String.eqb k "l2_norm/a/L") eqn:Ea; [intros [= <-]; apply vector_norm_nonneg|].
    destruct (String.eqb k "l2_norm/b/L") eqn:Eb; [intros [= <-]; apply vector_norm_nonneg|].
    destruct (String.eqb k "cosine/a_b/L") eqn:Ec; [|done].
    apply String.eqb_eq in Ec. by subst k.
  - intros k Hk Hl2 _. cbn in Hk.
    repeat (apply elem_of_cons in Hk as [->|Hk]); [done..| |by apply elem_of_nil in Hk].
    exists "l2_norm/a/L"%string, "l2_norm/b/L"%string.
    split; [reflexivity|]. cbn. split; set_solver.
Qed.

Lemma norms_first_norms_then_cosine A B : norms_first (norms_then_cosine A B).
Proof.
  intros l1 c l2 Hkeys Hc. cbn in Hkeys.
  destruct l1 as [|x [|y [|z l1]]]; cbn in Hkeys; simplify_eq; try done.
  - split; [reflexivity|].
    exists "l2_norm/a/L"%string, "l2_norm/b/L"%string.
    split; [reflexivity|]. split; set_solver.
  - by destruct l1.
Qed.

Lemma holds_shards_norms_then_cosine A B :
  length A = length B ->
  DecoupledAdamW.cosine_eps <= vector_norm A * vector_norm B \/ dot A B = 0 ->
  holds_shards (norms_then_cosine A B) "l2_norm/a/L" "l2_norm/b/L" "cosine/a_b/L" A B.
Proof. by repeat split. Qed.

(** Two ranks hold the halves of a = [1; 1] and b = [1; 0]: the first rank
    a0 = [1] and b0 = [1], of cosine similarity 1, the second a1 = [1] and
    b1 = [0], of cosine similarity 0.  The passes return the cosine
    similarity of a and b, which is 1 / sqrt 2. *)
Lemma global_cosine_two_ranks :
  exists m2,
    reduce_metrics [norms_then_cosine [1] [0]] (norms_then_cosine [1] [1]) = (m2, Ok tt) /\
    lookup_metric "cosine/a_b/L" m2
      = Some (cosine_similarity DecoupledAdamW.cosine_eps [1; 1] [1; 0]) /\
    cosine_similarity DecoupledAdamW.cosine_eps [1; 1] [1; 0] = / sqrt 2.
Proof.
  pose proof cosine_eps_pos as Heps0.
  assert (Heps : DecoupledAdamW.cosine_eps <= 1).
  { unfold DecoupledAdamW.cosine_eps. apply Rmult_le_reg_l with 100000000; [lra|].
    rewrite Rinv_r; lra. }
  assert (H1 : vector_norm [1] = 1) by (apply vector_norm_singleton; lra).
  assert (H10 : vector_norm [1; 0] = 1).
  { unfold vector_norm, dot. cbn. replace (1 * 1 + (0 * 0 + 0)) with 1 by lra. apply sqrt_1. }
  assert (H11 : vector_norm [1; 1] = sqrt 2).
  { unfold vector_norm, dot. cbn. f_equal. lra. }
  assert (Hs2 : 1 <= sqrt 2).
  { rewrite <- sqrt_1 at 1. apply sqrt_le_1; lra. }
  assert (Hbig : DecoupledAdamW.cosine_eps <= vector_norm [1; 1] * vector_norm [1; 0]).
  { rewrite H10, H11. lra. }
  destruct (global_cosine_of_shards
              (norms_then_cosine [1] [1]) [norms_then_cosine [1] [0]]
              ["l2_norm/a/L"; "l2_norm/b/L"]%string []
              "l2_norm/a/L" "l2_norm/b/L" "cosine/a_b/L" [1] [1] [([1], [0])])
    as (m2 & E & _ & H).
  - apply well_formed_norms_then_cosine.
  - apply Forall_singleton, well_formed_norms_then_cosine.
  - reflexivity.
  - set_solver.
  - set_solver.
  - reflexivity.
  - reflexivity.
  - reflexivity.
  - apply holds_shards_norms_then_cosine; [done|]. left. rewrite H1. lra.
  - constructor; [|constructor]. apply holds_shards_norms_then_cosine; [done|].
    right. unfold dot. cbn. lra.
  - exists m2. split; [exact E|]. split; [exact (H Hbig)|].
    unfold cosine_similarity. rewrite Rmax_left by exact Hbig. rewrite H10, H11.
    unfold dot. cbn. field. lra.
Defined.

(** One rank holding a = [3] and b = [4]: the passes give the record back. *)
Lemma single_rank_identity_norms_then_cosine :
  bind pre_reduce_metrics (fun _ => dist_reduce_metrics 1 (fun _ => 1)) (norms_then_cosine [3] [4])
  = (norms_then_cosine [3] [4], Ok tt).
Proof.
  apply single_rank_identity.
  - apply well_formed_norms_then_cosine.
  - apply norms_first_norms_then_cosine.
  - intros c a b va vb Hc Hcos Hp Ha Hb. cbn in Hc.
    repeat (apply elem_of_cons in Hc as [->|Hc]); [done..| |by apply elem_of_nil in Hc].
    change (Ok ("l2_norm/a/L", "l2_norm/b/L")%string = Ok (a, b)) in Hp.
    injection Hp as <- <-. cbn -[vector_norm] in Ha, Hb. simplify_eq.
    rewrite !vector_norm_singleton by lra. lra.
Defined.

(** ** What the passes leave of the keys *)

Lemma dist_reduce_metric_keys ws ps k m m' r :
  k ∈ keys m -> dist_reduce_metric ws ps k m = (m', r) -> keys m' = keys m.
Proof.
  intros Hk H. unfold dist_reduce_metric, all_reduce in H.
  assert (Hk' : forall v, keys (assign k v m) = keys m) by (intros; by apply keys_assign).
  assert (Hk'' : forall v v', keys (assign k v' (assign k v m)) = keys m).
  { intros. rewrite keys_assign; [done|]. by rewrite Hk'. }
  repeat case_match; cbn in H; repeat case_match; simplify_eq; try reflexivity; try done.
Qed.

(** X3.  Neither pass adds, drops or reorders a key, whether it returns or
    raises: the record it leaves has the keys of the record it was given,
    in the same order. *)
Theorem passes_keep_keys (m : metrics) :
  keys (pre_reduce_metrics m).1 = keys m /\
  (forall world_size peer_sum, keys (dist_reduce_metrics world_size peer_sum m).1 = keys m).
Proof.
  split; [|intros ws ps].
  - unfold pre_reduce_metrics.
    apply (for_each_preserves (fun s => keys s = keys m)); [|done].
    intros k s Hk Hs. rewrite sorted_perm in Hk. rewrite <- Hs in Hk |- *.
    destruct (pre_reduce_metric k s) as [s' r] eqn:E. by eapply pre_reduce_metric_keys.
  - unfold dist_reduce_metrics.
    apply (for_each_preserves (fun s => keys s = keys m)); [|done].
    intros k s Hk Hs. rewrite <- Hs in Hk |- *.
    destruct (dist_reduce_metric ws ps k s) as [s' r] eqn:E. by eapply dist_reduce_metric_keys.
Qed.

(** ** When the pre-reduce pass returns, and what it leaves when it raises *)

Lemma cosine_not_l2 c : startswith c "cosine" = true -> startswith c "l2_norm" = false.
Proof.
  unfold startswith. destruct c as [|x c]; [done|]. cbn -[Ascii.ascii_dec].
  destruct (Ascii.ascii_dec "c"%char x) as [<-|]; [|done]. intros _.
  by destruct (Ascii.ascii_dec "l"%char "c"%char).
Qed.

Lemma not_contains_not_l2 k : contains "l2_norm" k = false -> startswith k "l2_norm" = false.
Proof.
  intros H. destruct (startswith k "l2_norm") eqn:E; [|done].
  apply startswith_contains in E. congruence.
Qed.

(** The first part of the loop, over the keys that contain "l2_norm",
    returns and leaves every norm squared. *)
Lemma pre_reduce_norms_phase m :
  NoDup (keys m) ->
  (forall c, c ∈ keys m -> startswith c "cosine" = true -> contains "l2_norm" c = false) ->
  exists s1,
    for_each (List.filter (fun k => contains "l2_norm" k) (keys m)) pre_reduce_metric m
      = (s1, Ok tt) /\
    keys s1 = keys m /\
    (forall k v, startswith k "l2_norm" = true -> lookup_metric k m = Some v ->
                 lookup_metric k s1 = Some (v ^ 2)).
Proof.
  intros Hnd Hcos.
  destruct (for_each_total (fun s => keys s = keys m)
              (List.filter (fun k => contains "l2_norm" k) (keys m)) pre_reduce_metric)
    with (s := m) as (s1 & E & Hkeys); [|done|].
  { intros k s Hk Hs. apply elem_of_filter_In in Hk as [Hk Hl2]. rewrite <- Hs in Hk.
    destruct (lookup_metric_is_Some _ _ Hk) as [v Hv].
    destruct (startswith k "l2_norm") eqn:E.
    - rewrite (pre_reduce_metric_l2 _ _ _ E Hv). eexists. split; [done|].
      by rewrite keys_assign.
    - unfold pre_reduce_metric. rewrite E.
      destruct (startswith k "cosine") eqn:Ec; [|by exists s].
      rewrite Hs in Hk. specialize (Hcos k Hk Ec). congruence. }
  exists s1. split; [done|]. split; [done|].
  intros k v Hk Hv.
  eapply (loop_entry _ pre_reduce_metric_frame _ _ _ _ (fun x => x ^ 2));
    [by apply NoDup_filter_In| |..|exact E|exact Hv].
  - apply elem_of_filter_In. split; [by eapply lookup_metric_Some|].
    by apply startswith_contains.
  - intros m0 m2 Hv0 Hb. rewrite (pre_reduce_metric_l2 _ _ _ Hk Hv0) in Hb.
    injection Hb as <-. apply lookup_assign_eq.
Qed.

Lemma for_each_ok_inv {S A} (I : S -> Prop) (xs : list A) (body : A -> M S unit) :
  (forall x s, x ∈ xs -> I s -> I (body x s).1) ->
  forall s s', I s -> for_each xs body s = (s', Ok tt) ->
  forall x, x ∈ xs -> exists s0 s1, I s0 /\ body x s0 = (s1, Ok tt).
Proof.
  induction xs as [|y xs IH]; intros Hbody s s' Hs H x Hx; [by apply elem_of_nil in Hx|].
  apply for_each_cons_ok in H as (s1 & H1 & H2).
  apply elem_of_cons in Hx as [->|Hx]; [by eauto|].
  eapply (IH (fun z t Hz => Hbody z t ltac:(by right)) s1 s'); [|done..].
  specialize (Hbody y s ltac:(left) Hs). by rewrite H1 in Hbody.
Qed.

Lemma pre_reduce_metric_cosine_inv c s s' :
  startswith c "cosine" = true -> pre_reduce_metric c s = (s', Ok tt) ->
  exists a b, cosine_norm_keys c = Ok (a, b) /\ a ∈ keys s /\ b ∈ keys s.
Proof.
  intros Hc H. unfold pre_reduce_metric, cosine_norm_keys in *.
  rewrite (cosine_not_l2 _ Hc), Hc in H.
  destruct (unpack3 (split "/" c)) as [[[x vectors] layer]|] eqn:E3; [|done].
  cbn -[math_sqrt] in H.
  destruct (unpack2 (split "_" vectors)) as [[A B]|] eqn:E2; [|done].
  cbn -[math_sqrt] in H.
  destruct (lookup_metric (norm_key A layer) s) as [va|] eqn:Ha; [|done].
  cbn -[math_sqrt] in H. destruct (math_sqrt va); [|done]. cbn -[math_sqrt] in H.
  destruct (lookup_metric (norm_key B layer) s) as [vb|] eqn:Hb; [|done].
  exists (norm_key A layer), (norm_key B layer).
  split; [done|]. split; by eapply lookup_metric_Some.
Qed.

(** X4.  On a record with distinct keys in which no cosine key contains
    "l2_norm", the pre-reduce pass returns exactly when every cosine key has
    the form cosine/<A>_<B>/<layer> and the two norm keys it refers to are
    present.  The sign of the norm entries plays no part: they are squared
    before any square root is taken. *)
Theorem pre_reduce_returns_iff (m : metrics) :
  NoDup (keys m) ->
  (forall c, c ∈ keys m -> startswith c "cosine" = true -> contains "l2_norm" c = false) ->
  (exists m1, pre_reduce_metrics m = (m1, Ok tt)) <->
  (forall c, c ∈ keys m -> startswith c "cosine" = true ->
     exists a b, cosine_norm_keys c = Ok (a, b) /\ a ∈ keys m /\ b ∈ keys m).
Proof.
  intros Hnd Hcos. split.
  - intros [m1 E] c Hc Hcosine. unfold pre_reduce_metrics in E.
    destruct (for_each_ok_inv (fun s => keys s = keys m) (sorted l2_first (keys m))
                pre_reduce_metric) with
      (s := m) (s' := m1) (x := c) as (s0 & s1 & Hs0 & Hb); [|done..| |].
    + intros k s Hk Hs. rewrite sorted_perm in Hk. rewrite <- Hs in Hk |- *.
      destruct (pre_reduce_metric k s) as [s' r] eqn:E'. by eapply pre_reduce_metric_keys.
    + by rewrite sorted_perm.
    + rewrite <- Hs0. by eapply pre_reduce_metric_cosine_inv.
  - intros Hparse.
    destruct (pre_reduce_norms_phase m Hnd Hcos) as (s1 & E1 & Hkeys & Hsq).
    assert (Hwf : well_formed s1).
    { split; [by rewrite Hkeys|]. split.
      - intros k v Hk Hv. assert (Hin : k ∈ keys m).
        { rewrite <- Hkeys. by eapply lookup_metric_Some. }
        destruct (lookup_metric_is_Some _ _ Hin) as [v0 Hv0].
        rewrite (Hsq k v0 Hk Hv0) in Hv. injection Hv as <-. apply pow2_ge_0.
      - intros k Hk _ Hc. rewrite Hkeys in *. by apply Hparse. }
    destruct (for_each_total (kept s1)
                (List.filter (fun k => negb (contains "l2_norm" k)) (keys m)) pre_reduce_metric)
      with (s := s1) as (m1 & E2 & _); [|by apply kept_refl|].
    { intros k s Hk Hs. apply pre_reduce_metric_total; [done..|].
      apply elem_of_filter_In in Hk as [Hk _]. by rewrite Hkeys. }
    exists m1. unfold pre_reduce_metrics. by rewrite sorted_l2_first_split, for_each_app, E1.
Qed.

(** X5.  The pre-reduce pass is not atomic.  On a record with distinct keys
    in which no cosine key contains "l2_norm", whether the pass returns or
    raises on a cosine entry, every norm entry holds its square in the
    record the pass leaves. *)
Theorem pre_reduce_squares_in_every_outcome (m : metrics) (k : string) (v : R) :
  NoDup (keys m) ->
  (forall c, c ∈ keys m -> startswith c "cosine" = true -> contains "l2_norm" c = false) ->
  startswith k "l2_norm" = true -> lookup_metric k m = Some v ->
  lookup_metric k (pre_reduce_metrics m).1 = Some (v ^ 2).
Proof.
  intros Hnd Hcos Hk Hv.
  destruct (pre_reduce_norms_phase m Hnd Hcos) as (s1 & E1 & Hkeys & Hsq).
  unfold pre_reduce_metrics. rewrite sorted_l2_first_split, for_each_app, E1.
  destruct (for_each _ pre_reduce_metric s1) as [m1 r] eqn:E2. cbn [fst].
  rewrite (loop_frame _ pre_reduce_metric_frame _ _ _ _ k E2); [by apply Hsq|].
  rewrite elem_of_filter_In. intros [_ H]. apply startswith_contains in Hk.
  by rewrite Hk in H.
Qed.

Ltac distinct_keys :=
  cbn; repeat (apply NoDup_cons; split;
               [rewrite ?elem_of_cons, elem_of_nil; intuition discriminate|]);
  apply NoDup_nil_2.

Ltac each_key H :=
  cbn in H; repeat (apply elem_of_cons in H as [->|H]); [..|by apply elem_of_nil in H].

Lemma pre_reduce_returns_iff_witness :
  (exists m1, pre_reduce_metrics (norms_then_cosine [3] [4]) = (m1, Ok tt)) /\
  ~ (exists m1, pre_reduce_metrics missing_norm = (m1, Ok tt)).
Proof.
  split.
  - apply pre_reduce_returns_iff.
    + distinct_keys.
    + intros c Hc Hcos. each_key Hc; done.
    + intros c Hc Hcos. each_key Hc; try done.
      exists "l2_norm/a/L"%string, "l2_norm/b/L"%string.
      split; [reflexivity|]. cbn. split; set_solver.
  - intros H. destruct (pre_reduce_returns_iff missing_norm) as [Hfwd _].
    + distinct_keys.
    + intros c Hc Hcos. each_key Hc; done.
    + destruct (Hfwd H "cosine/a_b/L"%string) as (a & b & Hp & _ & Hb); [cbn; apply elem_of_cons; by left|done|].
      change (Ok ("l2_norm/a/L", "l2_norm/b/L")%string = Ok (a, b)) in Hp.
      injection Hp as <- <-. cbn in Hb. rewrite !elem_of_cons, elem_of_nil in Hb.
      intuition discriminate.
Defined.

Lemma pre_reduce_squares_in_every_outcome_witness :
  (pre_reduce_metrics missing_norm).2 = Raise KeyError /\
  lookup_metric "l2_norm/a/L" (pre_reduce_metrics missing_norm).1 = Some ((- 3) ^ 2).
Proof.
  split.
  - unfold missing_norm. py_compute. rewrite math_sqrt_ok by (simpl; lra). reflexivity.
  - apply pre_reduce_squares_in_every_outcome.
    + distinct_keys.
    + intros c Hc Hcos. each_key Hc; done.
    + reflexivity.
    + reflexivity.
Defined.

(** ** Metrics that are neither norms nor cosines *)

Lemma peer_sum_of_other peers k vs :
  Forall well_formed peers ->
  startswith k "l2_norm" = false -> startswith k "cosine" = false ->
  Forall2 (fun p x => lookup_metric k p = Some x) peers vs ->
  peer_sum_of peers k = sum_list vs.
Proof.
  intros Hwf Hl2 Hcos H. unfold peer_sum_of.
  induction H as [|p x peers vs Hx H IH]; [done|].
  apply Forall_cons in Hwf as [Hwfp Hwf].
  destruct (pre_reduce_metrics_total p Hwfp) as (p1 & E & _).
  cbn [map]. rewrite !sum_list_cons, E, (IH Hwf). cbn [fst].
  by rewrite (pre_reduce_other _ _ _ _ (proj1 Hwfp) E Hl2 Hcos Hx).
Qed.

(** X6.  A metric whose key starts with neither "l2_norm" nor "cosine" comes
    out of the passes as the mean of the values the ranks hold for it: the
    pre-reduce pass leaves it alone, the post-reduce pass sums it over the
    ranks and divides by the world size. *)
Theorem other_metrics_averaged (local : metrics) (peers : list metrics) (k : string)
    (v : R) (vs : list R) :
  well_formed local -> Forall well_formed peers ->
  startswith k "l2_norm" = false -> startswith k "cosine" = false ->
  lookup_metric k local = Some v ->
  Forall2 (fun p x => lookup_metric k p = Some x) peers vs ->
  exists m2,
    reduce_metrics peers local = (m2, Ok tt) /\
    lookup_metric k m2 = Some ((v + sum_list vs) / INR (S (length peers))).
Proof.
  intros Hwf Hpeers Hl2 Hcos Hv Hvs.
  destruct (pre_reduce_metrics_total local Hwf) as (m1 & E1 & Hkept).
  destruct (dist_reduce_metrics_total (S (length peers)) (peer_sum_of peers) local m1 Hwf
              (fun k => peer_sum_of_nonneg peers k Hpeers) Hkept) as (m2 & E2 & _).
  assert (Hnd1 : NoDup (keys m1)) by (rewrite (proj1 Hkept); apply Hwf).
  exists m2. split; [unfold reduce_metrics; cbn; by rewrite E1|].
  pose proof (pre_reduce_other _ _ _ _ (proj1 Hwf) E1 Hl2 Hcos Hv) as Hv1.
  rewrite (dist_reduce_other _ _ _ _ _ _ Hnd1 E2 Hl2 Hcos Hv1). f_equal. f_equal.
  unfold summed. rewrite (peer_sum_of_other _ _ _ Hpeers Hl2 Hcos Hvs).
  destruct Hvs as [|p x peers vs Hx Hvs]; [cbn; lra|].
  by destruct peers.
Qed.

(** Three ranks hold 1, 2 and 6 for the key "loss": the passes return 3. *)
Lemma other_metrics_averaged_witness :
  exists m2,
    reduce_metrics [[("loss", 2)]; [("loss", 6)]]%string [("loss", 1)]%string = (m2, Ok tt) /\
    lookup_metric "loss" m2 = Some 3.
Proof.
  assert (Hwf : forall x, well_formed [("loss", x)]%string).
  { intros x. split; [distinct_keys|]. split.
    - intros k v Hk. cbn. destruct (String.eqb k "loss") eqn:E; [|done].
      apply String.eqb_eq in E. by subst k.
    - intros k Hk Hl2 Hcos. each_key Hk. done. }
  destruct (other_metrics_averaged [("loss", 1)]%string [[("loss", 2)]; [("loss", 6)]]%string
              "loss" 1 [2; 6]) as (m2 & E & H).
  - apply Hwf.
  - apply Forall_cons. split; [apply Hwf|]. apply Forall_singleton, Hwf.
  - reflexivity.
  - reflexivity.
  - reflexivity.
  - by repeat constructor.
  - exists m2. split; [exact E|]. rewrite H. f_equal. cbn. field.
Defined.

(** ** Building a cosine key and parsing it back *)

Lemma contains_char_cons sep c s :
  contains (String sep "") (String c s) = Ascii.eqb sep c || contains (String sep "") s.
Proof.
  cbn -[Ascii.ascii_dec]. f_equal.
  destruct (Ascii.ascii_dec sep c) as [->|Hne].
  - rewrite Ascii.eqb_refl. by destruct s.
  - symmetry. by apply Ascii.eqb_neq.
Qed.

Lemma contains_char_app sep s t :
  contains (String sep "") (s +:+ t) = contains (String sep "") s || contains (String sep "") t.
Proof.
  induction s as [|c s IH].
  - change ("" +:+ t)%string with t. by destruct t.
  - change (String c s +:+ t)%string with (String c (s +:+ t)).
    by rewrite !contains_char_cons, IH, orb_assoc.
Qed.

Lemma split_no_sep sep s : contains (String sep "") s = false -> split sep s = [s].
Proof.
  induction s as [|c s IH]; [done|].
  rewrite contains_char_cons. intros [Hc Hs]%orb_false_elim.
  cbn [split]. rewrite Ascii.eqb_sym, Hc. by rewrite (IH Hs).
Qed.

Lemma split_app_sep sep s t :
  contains (String sep "") s = false ->
  split sep (s +:+ String sep t) = s :: split sep t.
Proof.
  induction s as [|c s IH].
  - intros _. change ("" +:+ String sep t)%string with (String sep t).
    cbn [split]. by rewrite Ascii.eqb_refl.
  - rewrite contains_char_cons. intros [Hc Hs]%orb_false_elim.
    change (String c s +:+ String sep t)%string with (String c (s +:+ String sep t)).
    cbn [split]. rewrite Ascii.eqb_sym, Hc. by rewrite (IH Hs).
Qed.

Lemma split_length sep s : (1 <= length (split sep s))%nat.
Proof.
  induction s as [|c s IH]; cbn [split]; [cbn; lia|].
  destruct (Ascii.eqb c sep); [cbn; lia|]. destruct (split sep s); cbn in *; lia.
Qed.

Lemma split_with_sep sep s :
  contains (String sep "") s = true -> (2 <= length (split sep s))%nat.
Proof.
  induction s as [|c s IH]; [done|].
  rewrite contains_char_cons. cbn [split]. rewrite (Ascii.eqb_sym c sep).
  destruct (Ascii.eqb sep c); cbn [orb].
  - intros _. pose proof (split_length sep s). cbn. lia.
  - intros H. specialize (IH H). destruct (split sep s); cbn in *; lia.
Qed.

Lemma cosine_norm_keys_built (A B layer : string) :
  contains "/" A = false -> contains "_" A = false ->
  contains "/" B = false -> contains "_" B = false ->
  contains "/" layer = false ->
  cosine_norm_keys ("cosine/" +:+ (A +:+ "_" +:+ B) +:+ "/" +:+ layer)
  = Ok (norm_key A layer, norm_key B layer).
Proof.
  intros HA HA' HB HB' Hlayer. unfold cosine_norm_keys.
  change ("cosine/" +:+ (A +:+ "_" +:+ B) +:+ "/" +:+ layer)%string
    with ("cosine" +:+ String "/" ((A +:+ "_" +:+ B) +:+ String "/" layer))%string.
  rewrite (split_app_sep "/" "cosine") by reflexivity.
  rewrite (split_app_sep "/" (A +:+ "_" +:+ B)).
  2: { rewrite !contains_char_app, HA, HB. reflexivity. }
  rewrite (split_no_sep _ _ Hlayer). cbn [unpack3].
  change (A +:+ "_" +:+ B)%string with (A +:+ String "_" B)%string.
  by rewrite (split_app_sep "_" A B HA'), (split_no_sep _ _ HB').
Qed.

Lemma cosine_norm_keys_slash (vectors layer : string) :
  contains "/" vectors = false -> contains "/" layer = true ->
  cosine_norm_keys ("cosine/" +:+ vectors +:+ "/" +:+ layer) = Raise ValueError.
Proof.
  intros Hv Hlayer. unfold cosine_norm_keys.
  change ("cosine/" +:+ vectors +:+ "/" +:+ layer)%string
    with ("cosine" +:+ String "/" (vectors +:+ String "/" layer))%string.
  rewrite (split_app_sep "/" "cosine") by reflexivity.
  rewrite (split_app_sep "/" vectors) by done.
  pose proof (split_with_sep _ _ Hlayer) as Hlen.
  destruct (split "/" layer) as [|x [|y l]]; cbn in Hlen; try lia. reflexivity.
Qed.

(** X7.  Parsing inverts the construction of the keys.  A cosine key built
    as cosine/<A>_<B>/<layer> from vector names without "_" or "/" and a
    layer name without "/" refers to the norm keys f'l2_norm/{A}/{layer}'
    and f'l2_norm/{B}/{layer}'; with a "/" in the layer name the unpacking
    of the split key raises ValueError. *)
Theorem cosine_key_round_trip (A B layer : string) :
  contains "/" A = false -> contains "_" A = false ->
  contains "/" B = false -> contains "_" B = false ->
  (contains "/" layer = false ->
   cosine_norm_keys ("cosine/" +:+ (A +:+ "_" +:+ B) +:+ "/" +:+ layer)
   = Ok (norm_key A layer, norm_key B layer)) /\
  (contains "/" layer = true ->
   cosine_norm_keys ("cosine/" +:+ (A +:+ "_" +:+ B) +:+ "/" +:+ layer) = Raise ValueError).
Proof.
  intros HA HA' HB HB'. split; intros Hlayer.
  - by apply cosine_norm_keys_built.
  - apply cosine_norm_keys_slash; [|done].
    rewrite !contains_char_app, HA, HB. reflexivity.
Qed.

Lemma cosine_key_round_trip_witness :
  cosine_norm_keys "cosine/update_grad/fc.weight"
  = Ok ("l2_norm/update/fc.weight", "l2_norm/grad/fc.weight")%string /\
  cosine_norm_keys "cosine/update_grad/block/fc.weight" = Raise ValueError.
Proof.
  split.
  - apply (cosine_key_round_trip "update" "grad" "fc.weight"); reflexivity.
  - apply (cosine_key_round_trip "update" "grad" "block/fc.weight"); reflexivity.
Defined.

(** ** What [report_per_parameter_metrics] writes, and the passes on it *)

Lemma report_ok_shape w param name m m' st :
  DecoupledAdamW.state w !! param = Some st ->
  DecoupledAdamW.report_per_parameter_metrics w param name m = (m', Ok tt) ->
  exists g t,
    grad (DecoupledAdamW.mem w param) = Some g /\
    m' = assign ("cosine/moment_grad" +:+ "/" +:+ name)
           (cosine_similarity DecoupledAdamW.cosine_eps (values g) (DecoupledAdamW.exp_avg st))
        (assign ("cosine/update_grad" +:+ "/" +:+ name)
           (cosine_similarity DecoupledAdamW.cosine_eps (values g) t)
        (assign ("l2_norm/grad" +:+ "/" +:+ name) (vector_norm (values g))
        (assign ("l2_norm/update" +:+ "/" +:+ name) (vector_norm t)
        (assign ("l2_norm/second_moment_sqrt" +:+ "/" +:+ name)
           (sqrt (vector_norm (DecoupledAdamW.exp_avg_sq st)))
        (assign ("l2_norm/param" +:+ "/" +:+ name)
           (vector_norm (data (DecoupledAdamW.mem w param)))
        (assign ("l2_norm/moment" +:+ "/" +:+ name)
           (vector_norm (DecoupledAdamW.exp_avg st)) m)))))).
Proof.
  intros Hst H. unfold DecoupledAdamW.report_per_parameter_metrics in H.
  destruct (DecoupledAdamW.param_groups w) as [|g0 rest]; [done|].
  cbn -[for_each DecoupledAdamW.metric_functions DecoupledAdamW.step_tensor_of] in H.
  destruct (DecoupledAdamW.initial_lr g0) as [ilr|]; [|done].
  cbn -[for_each DecoupledAdamW.metric_functions DecoupledAdamW.step_tensor_of] in H.
  destruct (DecoupledAdamW.betas g0) as [beta1 beta2]. rewrite Hst in H.
  cbn -[for_each DecoupledAdamW.metric_functions DecoupledAdamW.step_tensor_of] in H.
  destruct (DecoupledAdamW.step_tensor_of _ _ _ _ _ _ _ _) as [t|]; [|done].
  unfold DecoupledAdamW.metric_functions, DecoupledAdamW.the_grad in H.
  cbn -[vector_norm cosine_similarity] in H.
  destruct (grad (DecoupledAdamW.mem w param)) as [g|] eqn:Hg;
    cbn -[vector_norm cosine_similarity] in H; [|done].
  exists g, t. split; [done|]. congruence.
Qed.

Lemma keys_assign_new k v m : k ∉ keys m -> keys (assign k v m) = keys m ++ [k].
Proof.
  unfold keys. induction m as [|[k' v'] m IH]; [done|]. cbn. intros H.
  apply not_elem_of_cons in H as [Hne H].
  destruct (String.eqb k k') eqn:E; [by apply String.eqb_eq in E|].
  cbn. by rewrite (IH H).
Qed.

Lemma keys_assign_cases k v m :
  keys (assign k v m) = keys m \/ ((k ∉ keys m) /\ keys (assign k v m) = keys m ++ [k]).
Proof.
  destruct (decide (k ∈ keys m)) as [H|H]; [left; by apply keys_assign|right].
  split; [done|]. by apply keys_assign_new.
Qed.

Lemma elem_of_keys_assign_eq k v m : k ∈ keys (assign k v m).
Proof. eapply lookup_metric_Some, lookup_assign_eq. Qed.

Lemma elem_of_keys_assign_mono k v m k' : k' ∈ keys m -> k' ∈ keys (assign k v m).
Proof.
  intros H. destruct (keys_assign_cases k v m) as [->|[_ ->]]; [done|].
  apply elem_of_app. by left.
Qed.

Lemma well_formed_assign k v m :
  well_formed m ->
  (startswith k "l2_norm" = true -> 0 <= v) ->
  (startswith k "cosine" = true ->
   exists a b, cosine_norm_keys k = Ok (a, b) /\ a ∈ keys m /\ b ∈ keys m) ->
  well_formed (assign k v m).
Proof.
  intros (Hnd & Hpos & Hcos) Hv Hk. split; [|split].
  - destruct (keys_assign_cases k v m) as [->|[Hnew ->]]; [done|].
    apply NoDup_app. split; [done|]. split; [|apply NoDup_singleton].
    intros x Hx ->%list_elem_of_singleton. done.
  - intros k' v' Hl2 Hv'. destruct (decide (k = k')) as [<-|Hne].
    + rewrite lookup_assign_eq in Hv'. injection Hv' as <-. auto.
    + rewrite lookup_assign_ne in Hv' by done. eauto.
  - intros c Hc Hl2 Hcosine.
    assert (Hc' : c ∈ keys m \/ c = k).
    { destruct (keys_assign_cases k v m) as [E|[_ E]]; rewrite E in Hc; [by left|].
      apply elem_of_app in Hc as [Hc|Hc]; [by left|].
      right. by apply list_elem_of_singleton in Hc. }
    destruct Hc' as [Hc'| ->].
    + destruct (Hcos c Hc' Hl2 Hcosine) as (a & b & Hp & Ha & Hb).
      exists a, b. split; [done|]. split; by apply elem_of_keys_assign_mono.
    + destruct (Hk Hcosine) as (a & b & Hp & Ha & Hb).
      exists a, b. split; [done|]. split; by apply elem_of_keys_assign_mono.
Qed.

Lemma app_singleton_split {A} (l l1 l2 : list A) (k c : A) :
  l ++ [k] = l1 ++ c :: l2 ->
  (l2 = [] /\ l = l1 /\ c = k) \/ (exists l2', l2 = l2' ++ [k] /\ l = l1 ++ c :: l2').
Proof.
  destruct l2 as [|x l2 _] using rev_ind.
  - intros H. left. by destruct (app_inj_2 l l1 [k] [c] eq_refl H) as [-> [= ->]].
  - intros H. right. exists l2.
    change (l1 ++ c :: l2 ++ [x]) with (l1 ++ (c :: l2) ++ [x]) in H.
    rewrite app_assoc in H.
    by destruct (app_inj_2 l (l1 ++ c :: l2) [k] [x] eq_refl H) as [-> [= ->]].
Qed.

Lemma norms_first_assign k v m :
  norms_first m ->
  (startswith k "cosine" = true ->
   contains "l2_norm" k = false /\
   exists a b, cosine_norm_keys k = Ok (a, b) /\ a ∈ keys m /\ b ∈ keys m) ->
  norms_first (assign k v m).
Proof.
  intros Hm Hk l1 c l2 Hkeys Hc.
  destruct (keys_assign_cases k v m) as [E|[_ E]]; rewrite E in Hkeys; [by eapply Hm|].
  apply app_singleton_split in Hkeys as [(-> & <- & ->)|(l2' & -> & Hkeys)].
  - by apply Hk.
  - by eapply Hm.
Qed.

Lemma report_no_state w param name m m' r :
  DecoupledAdamW.state w !! param = None ->
  DecoupledAdamW.report_per_parameter_metrics w param name m = (m', r) -> m' = m.
Proof.
  intros Hst H. unfold DecoupledAdamW.report_per_parameter_metrics in H.
  destruct (DecoupledAdamW.param_groups w) as [|g0 rest]; cbn in H; [congruence|].
  destruct (DecoupledAdamW.initial_lr g0) as [ilr|]; cbn in H; [|congruence].
  destruct (DecoupledAdamW.betas g0) as [beta1 beta2]. rewrite Hst in H. cbn in H. congruence.
Qed.

Ltac key_in :=
  repeat first [ apply elem_of_keys_assign_eq | apply elem_of_keys_assign_mono ].

Lemma report_cosine_keys name :
  contains "/" name = false ->
  cosine_norm_keys ("cosine/update_grad" +:+ "/" +:+ name)
    = Ok ("l2_norm/update" +:+ "/" +:+ name, "l2_norm/grad" +:+ "/" +:+ name)%string /\
  cosine_norm_keys ("cosine/moment_grad" +:+ "/" +:+ name)
    = Ok ("l2_norm/moment" +:+ "/" +:+ name, "l2_norm/grad" +:+ "/" +:+ name)%string.
Proof.
  intros Hname. split.
  - exact (cosine_norm_keys_built "update" "grad" name eq_refl eq_refl eq_refl eq_refl Hname).
  - exact (cosine_norm_keys_built "moment" "grad" name eq_refl eq_refl eq_refl eq_refl Hname).
Qed.

Ltac report_side Hl2 Hupdate Hmoment :=
  first
    [ by (let Hc := fresh in intros Hc; vm_compute in Hc)
    | intros _; first [apply vector_norm_nonneg | apply sqrt_pos]
    | intros _; do 2 eexists; (split; [first [exact Hmoment | exact Hupdate]|]); split; key_in
    | intros _; split; [exact Hl2|]; do 2 eexists;
      (split; [first [exact Hmoment | exact Hupdate]|]); split; key_in ].

Lemma report_keeps_well_formed w param name m m' :
  well_formed m -> norms_first m ->
  contains "/" name = false -> contains "l2_norm" name = false ->
  DecoupledAdamW.report_per_parameter_metrics w param name m = (m', Ok tt) ->
  well_formed m' /\ norms_first m'.
Proof.
  intros Hwf Hfirst Hname Hl2 H.
  destruct (DecoupledAdamW.state w !! param) as [st|] eqn:Hst.
  2: { by rewrite (report_no_state _ _ _ _ _ _ Hst H). }
  destruct (report_ok_shape _ _ _ _ _ _ Hst H) as (g & t & _ & ->).
  destruct (report_cosine_keys name Hname) as [Hupdate Hmoment].
  split.
  - repeat (apply well_formed_assign; [ | report_side Hl2 Hupdate Hmoment..]). exact Hwf.
  - repeat (apply norms_first_assign; [ | report_side Hl2 Hupdate Hmoment..]). exact Hfirst.
Qed.

Lemma well_formed_nil : well_formed [].
Proof.
  split; [apply NoDup_nil_2|]. split; [done|]. intros k Hk. by apply elem_of_nil in Hk.
Qed.

Lemma norms_first_nil : norms_first [].
Proof. intros l1 c l2 H. by destruct l1. Qed.

(** X8.  The record [report_per_parameter_metrics] returns is one the
    reduction passes accept.  Reporting a parameter whose name contains
    neither "/" nor "l2_norm" into a well-formed record that lists norms
    before the cosines referring to them gives such a record again, and both
    passes return on it, with any number of ranks. *)
Theorem report_feeds_reduction (w : DecoupledAdamW.world) (param : nat) (name : string)
    (m m' : metrics) (peers : list metrics) :
  well_formed m -> norms_first m -> Forall well_formed peers ->
  contains "/" name = false -> contains "l2_norm" name = false ->
  DecoupledAdamW.report_per_parameter_metrics w param name m = (m', Ok tt) ->
  well_formed m' /\ norms_first m' /\
  exists m2, reduce_metrics peers m' = (m2, Ok tt).
Proof.
  intros Hwf Hfirst Hpeers Hname Hl2 H.
  destruct (report_keeps_well_formed _ _ _ _ _ Hwf Hfirst Hname Hl2 H) as [Hwf' Hfirst'].
  split; [done|]. split; [done|].
  destruct (pre_reduce_metrics_total m' Hwf') as (m1 & E1 & Hkept).
  destruct (dist_reduce_metrics_total (S (length peers)) (peer_sum_of peers) m' m1 Hwf'
              (fun k => peer_sum_of_nonneg peers k Hpeers) Hkept) as (m2 & E2 & _).
  exists m2. unfold reduce_metrics. cbn. by rewrite E1.
Qed.

Lemma report_feeds_reduction_witness :
  exists m' m2,
    DecoupledAdamW.report_per_parameter_metrics adam_stepped 0 "w" [] = (m', Ok tt) /\
    reduce_metrics [] m' = (m2, Ok tt).
Proof.
  destruct adam_stepped_report as (m' & E & _).
  destruct (report_feeds_reduction adam_stepped 0 "w" [] m' []) as (_ & _ & m2 & E2).
  - apply well_formed_nil.
  - apply norms_first_nil.
  - constructor.
  - reflexivity.
  - reflexivity.
  - exact E.
  - by exists m', m2.
Defined.

(** ** A parameter name with a "/" *)

Lemma unpack3_slash (vectors layer : string) :
  contains "/" vectors = false -> contains "/" layer = true ->
  unpack3 (split "/" ("cosine/" +:+ vectors +:+ "/" +:+ layer)) = Raise ValueError.
Proof.
  intros Hv Hlayer.
  change ("cosine/" +:+ vectors +:+ "/" +:+ layer)%string
    with ("cosine" +:+ String "/" (vectors +:+ String "/" layer))%string.
  rewrite (split_app_sep "/" "cosine") by reflexivity.
  rewrite (split_app_sep "/" vectors) by done.
  pose proof (split_with_sep _ _ Hlayer) as Hlen.
  destruct (split "/" layer) as [|x [|y l]]; cbn in Hlen; try lia. reflexivity.
Qed.

Lemma pre_reduce_metric_unpack c e m :
  startswith c "cosine" = true -> unpack3 (split "/" c) = Raise e ->
  pre_reduce_metric c m = (m, Raise e).
Proof.
  intros Hc H. unfold pre_reduce_metric. rewrite (cosine_not_l2 _ Hc), Hc. cbn. by rewrite H.
Qed.

Lemma for_each_raise_at {S A} (xs ys : list A) (y : A) (body : A -> M S unit) s s1 s2 e :
  for_each xs body s = (s1, Ok tt) -> body y s1 = (s2, Raise e) ->
  for_each (xs ++ y :: ys) body s = (s2, Raise e).
Proof. intros H1 H2. rewrite for_each_app, H1. cbn. by rewrite H2. Qed.

Lemma report_keys_fresh name g t st param_data :
  keys (assign ("cosine/moment_grad" +:+ "/" +:+ name)
           (cosine_similarity DecoupledAdamW.cosine_eps g (DecoupledAdamW.exp_avg st))
        (assign ("cosine/update_grad" +:+ "/" +:+ name)
           (cosine_similarity DecoupledAdamW.cosine_eps g t)
        (assign ("l2_norm/grad" +:+ "/" +:+ name) (vector_norm g)
        (assign ("l2_norm/update" +:+ "/" +:+ name) (vector_norm t)
        (assign ("l2_norm/second_moment_sqrt" +:+ "/" +:+ name)
           (sqrt (vector_norm (DecoupledAdamW.exp_avg_sq st)))
        (assign ("l2_norm/param" +:+ "/" +:+ name) (vector_norm param_data)
        (assign ("l2_norm/moment" +:+ "/" +:+ name)
           (vector_norm (DecoupledAdamW.exp_avg st)) []))))))) =
  [ "l2_norm/moment" +:+ "/" +:+ name; "l2_norm/param" +:+ "/" +:+ name;
    "l2_norm/second_moment_sqrt" +:+ "/" +:+ name; "l2_norm/update" +:+ "/" +:+ name;
    "l2_norm/grad" +:+ "/" +:+ name; "cosine/update_grad" +:+ "/" +:+ name;
    "cosine/moment_grad" +:+ "/" +:+ name ].
Proof. reflexivity. Qed.

Lemma sorted_report_keys name :
  sorted l2_first
    [ "l2_norm/moment" +:+ "/" +:+ name; "l2_norm/param" +:+ "/" +:+ name;
      "l2_norm/second_moment_sqrt" +:+ "/" +:+ name; "l2_norm/update" +:+ "/" +:+ name;
      "l2_norm/grad" +:+ "/" +:+ name; "cosine/update_grad" +:+ "/" +:+ name;
      "cosine/moment_grad" +:+ "/" +:+ name ]
  = [ "l2_norm/moment" +:+ "/" +:+ name; "l2_norm/param" +:+ "/" +:+ name;
      "l2_norm/second_moment_sqrt" +:+ "/" +:+ name; "l2_norm/update" +:+ "/" +:+ name;
      "l2_norm/grad" +:+ "/" +:+ name ] ++
    ("cosine/update_grad" +:+ "/" +:+ name) :: ["cosine/moment_grad" +:+ "/" +:+ name].
Proof.
  rewrite sorted_l2_first_split.
  assert (H1 : contains "l2_norm" ("l2_norm/moment" +:+ "/" +:+ name) = true) by reflexivity.
  assert (H2 : contains "l2_norm" ("l2_norm/param" +:+ "/" +:+ name) = true) by reflexivity.
  assert (H3 : contains "l2_norm" ("l2_norm/second_moment_sqrt" +:+ "/" +:+ name) = true)
    by reflexivity.
  assert (H4 : contains "l2_norm" ("l2_norm/update" +:+ "/" +:+ name) = true) by reflexivity.
  assert (H5 : contains "l2_norm" ("l2_norm/grad" +:+ "/" +:+ name) = true) by reflexivity.
  assert (H6 : contains "l2_norm" ("cosine/update_grad" +:+ "/" +:+ name)
               = contains "l2_norm" name) by reflexivity.
  assert (H7 : contains "l2_norm" ("cosine/moment_grad" +:+ "/" +:+ name)
               = contains "l2_norm" name) by reflexivity.
  cbn [List.filter]. rewrite H1, H2, H3, H4, H5, H6, H7.
  by destruct (contains "l2_norm" name).
Qed.

(** X9.  A "/" in the parameter name breaks the reduction.  When
    [report_per_parameter_metrics] has written the catalogue of a parameter
    with state into an empty record under such a name, the pre-reduce pass
    raises ValueError on it: the cosine key splits into more than three
    parts. *)
Theorem report_name_with_slash (w : DecoupledAdamW.world) (param : nat) (name : string)
    (m' : metrics) (st : DecoupledAdamW.pstate) :
  contains "/" name = true ->
  DecoupledAdamW.state w !! param = Some st ->
  DecoupledAdamW.report_per_parameter_metrics w param name [] = (m', Ok tt) ->
  (pre_reduce_metrics m').2 = Raise ValueError.
Proof.
  intros Hname Hst H.
  destruct (report_ok_shape _ _ _ _ _ _ Hst H) as (g & t & _ & Hm').
  pose proof (f_equal keys Hm') as Hkeys. rewrite report_keys_fresh in Hkeys.
  unfold pre_reduce_metrics. rewrite Hkeys, sorted_report_keys.
  destruct (for_each_total (fun s => keys s = keys m')
              [ "l2_norm/moment" +:+ "/" +:+ name; "l2_norm/param" +:+ "/" +:+ name;
                "l2_norm/second_moment_sqrt" +:+ "/" +:+ name;
                "l2_norm/update" +:+ "/" +:+ name; "l2_norm/grad" +:+ "/" +:+ name ]
              pre_reduce_metric) with (s := m') as (s1 & E1 & _); [|done|].
  { intros k s Hk Hs.
    assert (Hl2 : startswith k "l2_norm" = true).
    { rewrite !elem_of_cons, elem_of_nil in Hk.
      destruct Hk as [->|[->|[->|[->|[->|[]]]]]]; reflexivity. }
    assert (Hin : k ∈ keys s).
    { rewrite Hs, Hkeys. rewrite !elem_of_cons, elem_of_nil in Hk. rewrite !elem_of_cons. tauto. }
    destruct (lookup_metric_is_Some _ _ Hin) as [v Hv].
    rewrite (pre_reduce_metric_l2 _ _ _ Hl2 Hv). eexists. split; [done|].
    by rewrite keys_assign. }
  erewrite for_each_raise_at; [reflexivity|exact E1|].
  apply pre_reduce_metric_unpack; [reflexivity|].
  exact (unpack3_slash "update_grad" name eq_refl Hname).
Qed.

Lemma adam_stepped_report_named name :
  exists m, DecoupledAdamW.report_per_parameter_metrics adam_stepped 0 name [] = (m, Ok tt).
Proof.
  unfold DecoupledAdamW.report_per_parameter_metrics, adam_stepped.
  cbn -[DecoupledAdamW.step_tensor_of DecoupledAdamW.metric_functions for_each].
  rewrite lookup_singleton_eq.
  cbn -[DecoupledAdamW.step_tensor_of DecoupledAdamW.metric_functions for_each].
  change {| data := [3 / 2]; grad := Some {| is_sparse := false; values := [1] |};
            requires_grad := true |} with (DecoupledAdamW.mem adam_stepped 0%nat).
  rewrite adam_stepped_step_tensor.
  eexists. cbn -[vector_norm cosine_similarity]. reflexivity.
Qed.

Lemma report_name_with_slash_witness :
  exists m',
    DecoupledAdamW.report_per_parameter_metrics adam_stepped 0 "block/w" [] = (m', Ok tt) /\
    (pre_reduce_metrics m').2 = Raise ValueError.
Proof.
  destruct (adam_stepped_report_named "block/w") as [m' E].
  exists m'. split; [exact E|].
  eapply (report_name_with_slash adam_stepped 0 "block/w"); [reflexivity| |exact E].
  unfold adam_stepped. cbn. apply lookup_singleton_eq.
Defined.

(** ** Reporting a parameter whose gradient is gone *)

(** X10.  A parameter that has optimizer state but no gradient (after
    [zero_grad], say) makes [report_per_parameter_metrics] raise TypeError
    at l2_norm/grad; the four entries that come before it in the catalogue
    have been written by then. *)
Theorem report_without_gradient (w : DecoupledAdamW.world) (param : nat) (name : string)
    (m : metrics) (g0 : DecoupledAdamW.group) (rest : list DecoupledAdamW.group)
    (initial_lr : R) (st : DecoupledAdamW.pstate) (t : tensor) :
  DecoupledAdamW.param_groups w = g0 :: rest ->
  DecoupledAdamW.initial_lr g0 = Some initial_lr ->
  DecoupledAdamW.state w !! param = Some st ->
  DecoupledAdamW.step_tensor_of
    (DecoupledAdamW.lr g0) (DecoupledAdamW.eps g0) (DecoupledAdamW.weight_decay g0)
    initial_lr (DecoupledAdamW.betas g0).1 (DecoupledAdamW.betas g0).2
    (DecoupledAdamW.mem w param) st = Ok t ->
  grad (DecoupledAdamW.mem w param) = None ->
  DecoupledAdamW.report_per_parameter_metrics w param name m =
    (assign ("l2_norm/update" +:+ "/" +:+ name) (vector_norm t)
       (assign ("l2_norm/second_moment_sqrt" +:+ "/" +:+ name)
          (sqrt (vector_norm (DecoupledAdamW.exp_avg_sq st)))
       (assign ("l2_norm/param" +:+ "/" +:+ name)
          (vector_norm (data (DecoupledAdamW.mem w param)))
       (assign ("l2_norm/moment" +:+ "/" +:+ name)
          (vector_norm (DecoupledAdamW.exp_avg st)) m))),
     Raise TypeError).
Proof.
  intros Hgroups Hilr Hst Ht Hg. unfold DecoupledAdamW.report_per_parameter_metrics.
  rewrite Hgroups. cbn -[for_each DecoupledAdamW.metric_functions DecoupledAdamW.step_tensor_of].
  rewrite Hilr. cbn -[for_each DecoupledAdamW.metric_functions DecoupledAdamW.step_tensor_of].
  destruct (DecoupledAdamW.betas g0) as [beta1 beta2]. rewrite Hst. cbn [fst snd] in Ht.
  cbn -[for_each DecoupledAdamW.metric_functions DecoupledAdamW.step_tensor_of].
  rewrite Ht. unfold DecoupledAdamW.metric_functions, DecoupledAdamW.the_grad.
  cbn -[vector_norm cosine_similarity]. rewrite Hg. reflexivity.
Qed.

Lemma report_without_gradient_witness :
  exists m,
    DecoupledAdamW.report_per_parameter_metrics
      {| DecoupledAdamW.mem := fun _ => {| data := [3 / 2]; grad := None; requires_grad := true |};
         DecoupledAdamW.param_groups := [adam_group];
         DecoupledAdamW.state := DecoupledAdamW.state adam_stepped |} 0 "w" []
    = (m, Raise TypeError) /\
    keys m = ["l2_norm/moment/w"; "l2_norm/param/w"; "l2_norm/second_moment_sqrt/w";
              "l2_norm/update/w"]%string.
Proof.
  eexists. split.
  - apply (report_without_gradient _ 0 "w" [] adam_group [] 1
             {| DecoupledAdamW.steps := 1; DecoupledAdamW.exp_avg := [1];
                DecoupledAdamW.exp_avg_sq := [1]; DecoupledAdamW.max_exp_avg_sq := None |}
             [- / 4]).
    + reflexivity.
    + reflexivity.
    + unfold adam_stepped. cbn. apply lookup_singleton_eq.
    + unfold DecoupledAdamW.step_tensor_of. cbn -[math_sqrt float_div].
      rewrite math_sqrt_ok, float_div_ok by lra. cbn.
      rewrite decay_factor_same. replace (1 - 0 * 1) with 1 by lra. rewrite !sqrt_1.
      do 2 f_equal. field.
    + reflexivity.
  - reflexivity.
Defined.

(** ** The update rules, position by position *)

(** A loop over distinct positions, observed at one of them: the other
    iterations leave the observation alone. *)
Lemma for_each_obs {S A O} (obs : S -> O) (Q : O -> O -> Prop) (xs : list A)
    (body : A -> M S unit) (x : A) :
  NoDup xs -> x ∈ xs ->
  (forall y s s' r, y <> x -> body y s = (s', r) -> obs s' = obs s) ->
  (forall s s', body x s = (s', Ok tt) -> Q (obs s) (obs s')) ->
  forall s s', for_each xs body s = (s', Ok tt) -> Q (obs s) (obs s').
Proof.
  intros Hnd Hx Hother Hself. induction xs as [|y xs IH]; intros s s' H.
  - by apply elem_of_nil in Hx.
  - apply NoDup_cons in Hnd as [Hy Hnd].
    apply for_each_cons_ok in H as (s1 & H1 & H2).
    assert (Hrest : forall l t t' r, x ∉ l -> for_each l body t = (t', r) -> obs t' = obs t).
    { clear -Hother. induction l as [|z l IHl]; intros t t' r Hz H; cbn in H; [by simplify_eq|].
      apply not_elem_of_cons in Hz as [Hne Hz].
      destruct (body z t) as [t1 [[]|e]] eqn:E.
      - rewrite (IHl _ _ _ Hz H). by eapply Hother.
      - simplify_eq. by eapply Hother. }
    apply elem_of_cons in Hx as [->|Hx].
    + rewrite (Hrest _ _ _ _ Hy H2). by apply Hself.
    + assert (Hyx : y <> x) by (intros ->; done).
      rewrite <- (Hother y s s1 _ Hyx H1). by apply IH.
Qed.

Section SgdwElementwise.
Import DecoupledSGDW.
Variable d_p_list : list tensor.
Variables weight_decay momentum lr initial_lr dampening : R.
Variable nesterov : bool.

Lemma sgdw_at_other i j a a' r :
j <> i ->
sgdw_at d_p_list weight_decay momentum lr initial_lr dampening nesterov j a = (a', r) ->
(l_params a' !! i, l_momentum_buffer_list a' !! i)
= (l_params a !! i, l_momentum_buffer_list a !! i).
Proof.
intros Hne H. unfold sgdw_at, direction_at, decay_at, buf_at, param_at, set_buf, set_param in H.
cbn in H.
repeat (case_match; cbn in H; simplify_eq);
cbn; rewrite ?list_lookup_insert_ne by done; try reflexivity.
Qed.

Lemma sgdw_at_self i a a' p g :
sgdw_at d_p_list weight_decay momentum lr initial_lr dampening nesterov i a = (a', Ok tt) ->
l_params a !! i = Some p -> d_p_list !! i = Some g ->
(momentum = 0 ->
l_params a' !! i = Some (add_ (decayed weight_decay lr initial_lr p) g (- lr)) /\
l_momentum_buffer_list a' !! i = l_momentum_buffer_list a !! i) /\
(momentum <> 0 ->
exists b, l_momentum_buffer_list a !! i = Some b /\
let buf := sgdw_buffer momentum dampening b g in
l_momentum_buffer_list a' !! i = Some (Some buf) /\
l_params a' !! i =
Some (add_ (decayed weight_decay lr initial_lr p)
       (if nesterov then add_ g buf momentum else buf) (- lr))).
Proof.
intros H Hp Hg.
assert (Hi : (i < length (l_params a))%nat) by (by eapply lookup_lt_Some).
unfold sgdw_at, direction_at, decay_at, buf_at, param_at, set_buf, set_param, decayed in *.
cbn in H. rewrite Hg in H. cbn in H.
destruct (Req_dec_T momentum 0) as [Hm|Hm]; cbn in H.
- split; [intros _|done].
destruct (Req_dec_T weight_decay 0); cbn in H; rewrite Hp in H; cbn in H.
+ simplify_eq. cbn. by rewrite list_lookup_insert_eq.
+ rewrite list_lookup_insert_eq in H by done. cbn in H. simplify_eq. cbn.
by rewrite list_insert_insert_eq, list_lookup_insert_eq.
- split; [done|intros _].
destruct (l_momentum_buffer_list a !! i) as [b|] eqn:Hb; cbn in H; [|done].
assert (Hib : (i < length (l_momentum_buffer_list a))%nat) by (by eapply lookup_lt_Some).
exists b. split; [done|]. cbn zeta.
destruct b as [b|]; cbn in H;
(destruct (Req_dec_T weight_decay 0); cbn in H; rewrite Hp in H; cbn in H;
[|rewrite list_lookup_insert_eq in H by done; cbn in H]);
simplify_eq; cbn; rewrite ?list_insert_insert_eq, !list_lookup_insert_eq by done;
done.
Qed.
End SgdwElementwise.

(** The loop of [sgdw], observed at one position. *)
Lemma sgdw_position (d_p_list : list tensor)
    (weight_decay momentum lr initial_lr dampening : R) (nesterov : bool)
    (a a' : DecoupledSGDW.lists) (i : nat) (p g : tensor) :
  DecoupledSGDW.sgdw d_p_list weight_decay momentum lr initial_lr dampening nesterov a
    = (a', Ok tt) ->
  DecoupledSGDW.l_params a !! i = Some p -> d_p_list !! i = Some g ->
  (momentum = 0 ->
   DecoupledSGDW.l_params a' !! i
     = Some (add_ (decayed weight_decay lr initial_lr p) g (- lr)) /\
   DecoupledSGDW.l_momentum_buffer_list a' !! i
     = DecoupledSGDW.l_momentum_buffer_list a !! i) /\
  (momentum <> 0 ->
   exists b, DecoupledSGDW.l_momentum_buffer_list a !! i = Some b /\
     let buf := sgdw_buffer momentum dampening b g in
     DecoupledSGDW.l_momentum_buffer_list a' !! i = Some (Some buf) /\
     DecoupledSGDW.l_params a' !! i =
       Some (add_ (decayed weight_decay lr initial_lr p)
               (if nesterov then add_ g buf momentum else buf) (- lr))).
Proof.
  intros H Hp Hg. unfold DecoupledSGDW.sgdw in H.
  assert (Hi : (i < length (DecoupledSGDW.l_params a))%nat) by (by eapply lookup_lt_Some).
  pose proof (for_each_obs
    (fun s => (DecoupledSGDW.l_params s !! i, DecoupledSGDW.l_momentum_buffer_list s !! i))
    (fun o o' =>
       o.1 = Some p ->
       (momentum = 0 ->
        o'.1 = Some (add_ (decayed weight_decay lr initial_lr p) g (- lr)) /\ o'.2 = o.2) /\
       (momentum <> 0 ->
        exists b, o.2 = Some b /\
          let buf := sgdw_buffer momentum dampening b g in
          o'.2 = Some (Some buf) /\
          o'.1 = Some (add_ (decayed weight_decay lr initial_lr p)
                         (if nesterov then add_ g buf momentum else buf) (- lr))))
    (seq 0 (length (DecoupledSGDW.l_params a)))
    (DecoupledSGDW.sgdw_at d_p_list weight_decay momentum lr initial_lr dampening nesterov)
    i (NoDup_seq _ _)) as Hloop.
  cbn [fst snd] in Hloop. eapply Hloop; [| | |exact H|exact Hp].
  - apply elem_of_seq. lia.
  - intros j s s' r Hne Hb. by eapply sgdw_at_other.
  - intros s s' Hb Hps. by eapply sgdw_at_self.
Qed.

(** X11.  [sgdw] treats every position on its own.  When it returns, the
    parameter at a position is the decayed parameter moved by [- lr] along
    the direction, which without momentum is the gradient; with momentum the
    buffer is a copy of the gradient at the first update (dampening plays no
    part then) and [momentum * buf + (1 - dampening) * grad] afterwards, and
    the direction is the buffer, or [grad + momentum * buf] with nesterov. *)
Theorem sgdw_elementwise (d_p_list : list tensor)
    (weight_decay momentum lr initial_lr dampening : R) (nesterov : bool)
    (a a' : DecoupledSGDW.lists) (i : nat) (p g : tensor) :
  DecoupledSGDW.sgdw d_p_list weight_decay momentum lr initial_lr dampening nesterov a
    = (a', Ok tt) ->
  DecoupledSGDW.l_params a !! i = Some p -> d_p_list !! i = Some g ->
  (momentum = 0 ->
   DecoupledSGDW.l_params a' !! i
     = Some (add_ (decayed weight_decay lr initial_lr p) g (- lr)) /\
   DecoupledSGDW.l_momentum_buffer_list a' !! i
     = DecoupledSGDW.l_momentum_buffer_list a !! i) /\
  (momentum <> 0 ->
   exists b, DecoupledSGDW.l_momentum_buffer_list a !! i = Some b /\
     let buf := sgdw_buffer momentum dampening b g in
     DecoupledSGDW.l_momentum_buffer_list a' !! i = Some (Some buf) /\
     DecoupledSGDW.l_params a' !! i =
       Some (add_ (decayed weight_decay lr initial_lr p)
               (if nesterov then add_ g buf momentum else buf) (- lr))).
Proof. apply sgdw_position. Qed.

(** A first update with momentum 1/2 and dampening 1/2 on the gradient [2]:
    the buffer becomes [2] and the parameter [4] moves to [4 + (-1) * 2]. *)
Lemma sgdw_elementwise_witness :
  exists a',
    DecoupledSGDW.sgdw [[2]] 0 (/ 2) 1 1 (/ 2) false
      {| DecoupledSGDW.l_params := [[4]]; DecoupledSGDW.l_momentum_buffer_list := [None] |}
    = (a', Ok tt) /\
    DecoupledSGDW.l_momentum_buffer_list a' !! 0%nat = Some (Some [2]) /\
    DecoupledSGDW.l_params a' !! 0%nat = Some [4 + - (1) * 2].
Proof.
  destruct (sgdw_returns [[2]] 0 (/ 2) 1 1 (/ 2) false
              {| DecoupledSGDW.l_params := [[4]];
                 DecoupledSGDW.l_momentum_buffer_list := [None] |} eq_refl eq_refl)
    as [a' E].
  exists a'. split; [exact E|].
  destruct (sgdw_elementwise _ _ _ _ _ _ _ _ _ 0 [4] [2] E eq_refl eq_refl) as [_ Hm].
  destruct Hm as (b & Hb & Hbuf & Hp); [lra|].
  cbn in Hb. injection Hb as <-. cbn zeta in Hbuf, Hp. unfold sgdw_buffer in *.
  split; [exact Hbuf|].
  etrans; [exact Hp|]. unfold decayed. by destruct (Req_dec_T 0 0).
Defined.

(** ** Lists of unequal lengths *)

Section SgdwBounds.
Import DecoupledSGDW.
Variable d_p_list : list tensor.
Variables weight_decay momentum lr initial_lr dampening : R.
Variable nesterov : bool.

(** The loop up to a position that the gradients, and with momentum the
buffers, reach. *)
Lemma sgdw_prefix_returns a j :
(j <= length (l_params a))%nat -> (j <= length d_p_list)%nat ->
(momentum <> 0 -> (j <= length (l_momentum_buffer_list a))%nat) ->
exists s,
for_each (seq 0 j)
(sgdw_at d_p_list weight_decay momentum lr initial_lr dampening nesterov) a
= (s, Ok tt) /\
length (l_params s) = length (l_params a) /\
length (l_momentum_buffer_list s) = length (l_momentum_buffer_list a).
Proof.
intros Hp Hd Hb.
apply (for_each_total
(fun s => length (l_params s) = length (l_params a) /\
      length (l_momentum_buffer_list s) = length (l_momentum_buffer_list a)));
[|done].
intros i s Hi [Hps Hbs]. apply elem_of_seq in Hi as [_ Hi]. cbn in Hi.
destruct (lookup_lt_is_Some_2 d_p_list i ltac:(lia)) as [d Ed].
destruct (lookup_lt_is_Some_2 (l_params s) i ltac:(lia)) as [p Ep].
unfold sgdw_at, direction_at, decay_at, buf_at, param_at, set_buf, set_param.
cbn. rewrite Ed. cbn.
destruct (Req_dec_T momentum 0) as [Hm|Hm]; cbn.
- destruct (Req_dec_T weight_decay 0); cbn; rewrite Ep; cbn.
all: rewrite ?list_lookup_insert_eq by lia; cbn.
all: eexists; (split; [reflexivity|]); cbn; by rewrite ?length_insert.
- specialize (Hb Hm).
destruct (lookup_lt_is_Some_2 (l_momentum_buffer_list s) i ltac:(lia)) as [b Eb].
rewrite Eb; destruct b; cbn.
all: destruct (Req_dec_T weight_decay 0); cbn; rewrite Ep; cbn.
all: rewrite ?list_lookup_insert_eq by lia; cbn.
all: eexists; (split; [reflexivity|]); cbn; by rewrite ?length_insert.
Qed.

Lemma sgdw_at_short a j :
d_p_list !! j = None \/ (momentum <> 0 /\ l_momentum_buffer_list a !! j = None) ->
(sgdw_at d_p_list weight_decay momentum lr initial_lr dampening nesterov j a).2
= Raise IndexError.
Proof.
intros H. unfold sgdw_at, direction_at, decay_at, buf_at, param_at, set_buf, set_param.
cbn. destruct (d_p_list !! j) as [d|] eqn:Ed; cbn; [|done].
destruct H as [H|[Hm Hb]]; [done|].
destruct (Req_dec_T momentum 0); [done|]. cbn. by rewrite Hb.
Qed.
End SgdwBounds.

(** X12.  [sgdw] raises nothing but IndexError, and raises it exactly when
    the list of gradients, or with a nonzero momentum the list of buffers,
    is shorter than the list of parameters.  A list of buffers that is too
    short goes unnoticed without momentum. *)
Theorem sgdw_index_error (d_p_list : list tensor)
    (weight_decay momentum lr initial_lr dampening : R) (nesterov : bool)
    (a : DecoupledSGDW.lists) :
  let n := length (DecoupledSGDW.l_params a) in
  let run := DecoupledSGDW.sgdw d_p_list weight_decay momentum lr initial_lr dampening
               nesterov a in
  ((n <= length d_p_list)%nat /\
   (momentum <> 0 -> (n <= length (DecoupledSGDW.l_momentum_buffer_list a))%nat) ->
   run.2 = Ok tt) /\
  ((length d_p_list < n)%nat \/
   (momentum <> 0 /\ (length (DecoupledSGDW.l_momentum_buffer_list a) < n)%nat) ->
   run.2 = Raise IndexError).
Proof.
  intros n run. subst run. unfold DecoupledSGDW.sgdw. fold n. split.
  - intros [Hd Hb].
    destruct (sgdw_prefix_returns d_p_list weight_decay momentum lr initial_lr dampening
                nesterov a n) as (s & E & _); [done..|]. by rewrite E.
  - intros Hshort.
    set (j := if Req_dec_T momentum 0 then length d_p_list
              else Nat.min (length d_p_list)
                     (length (DecoupledSGDW.l_momentum_buffer_list a))).
    assert (Hj : (j < n)%nat /\ (j <= length d_p_list)%nat /\
                 (momentum <> 0 ->
                  (j <= length (DecoupledSGDW.l_momentum_buffer_list a))%nat) /\
                 (j = length d_p_list \/
                  (momentum <> 0 /\ j = length (DecoupledSGDW.l_momentum_buffer_list a)))).
    { subst j. destruct (Req_dec_T momentum 0) as [Hm|Hm].
      - destruct Hshort as [?|[? _]]; [|done].
        repeat split; try lia; try done; try (by left).
      - destruct (Nat.min_spec (length d_p_list)
                    (length (DecoupledSGDW.l_momentum_buffer_list a))) as [[? ->]|[? ->]];
          repeat split; try lia; try done; try (by left); try (by right). }
    destruct Hj as (Hjn & Hjd & Hjb & Hwhich).
    destruct (sgdw_prefix_returns d_p_list weight_decay momentum lr initial_lr dampening
                nesterov a j) as (s & E & _ & Hbs); [lia|done..|].
    assert (Hseq : seq 0 n = seq 0 j ++ j :: seq (S j) (n - S j)).
    { replace n with (j + S (n - S j))%nat at 1 by lia. by rewrite seq_app. }
    rewrite Hseq.
    rewrite for_each_app, E. cbn -[DecoupledSGDW.sgdw_at].
    pose proof (sgdw_at_short d_p_list weight_decay momentum lr initial_lr dampening
                  nesterov s j) as Hraise.
    destruct (DecoupledSGDW.sgdw_at _ _ _ _ _ _ _ j s) as [s' r]. cbn in Hraise.
    rewrite Hraise; [done|].
    destruct Hwhich as [->|[Hm ->]].
    + left. apply lookup_ge_None. lia.
    + right. split; [done|]. apply lookup_ge_None. lia.
Qed.

Lemma float_div_inv x y z : float_div x y = Ok z -> y <> 0 /\ z = x / y.
Proof. unfold float_div. destruct (Req_dec_T y 0); [done|]. by intros [= <-]. Qed.

Section AdamwElementwise.
Import DecoupledAdamW.
Variable grads : list tensor.
Variable state_steps : list nat.
Variable amsgrad : bool.
Variables beta1 beta2 lr initial_lr weight_decay eps : R.

Abbreviation adamw_obs i :=
(fun s : lists => (l_params s !! i, l_exp_avgs s !! i, l_exp_avg_sqs s !! i,
             l_max_exp_avg_sqs s !! i)).

Lemma adamw_at_other i j a a' r :
j <> i ->
adamw_at grads state_steps amsgrad beta1 beta2 lr initial_lr weight_decay eps j a = (a', r) ->
adamw_obs i a' = adamw_obs i a.
Proof.
intros Hne H.
unfold adamw_at, decay_at, moments_at, exp_avg_at, exp_avg_sq_at, max_exp_avg_sq_at,
param_at, set_param, set_exp_avg, set_exp_avg_sq, set_max_exp_avg_sq in H.
cbn -[math_sqrt float_div] in H.
repeat (case_match; cbn -[math_sqrt float_div] in H; simplify_eq);
cbn; rewrite ?list_lookup_insert_ne by done; try reflexivity.
Qed.

Lemma adamw_at_self i a a' p g m v step :
adamw_at grads state_steps amsgrad beta1 beta2 lr initial_lr weight_decay eps i a
= (a', Ok tt) ->
l_params a !! i = Some p -> grads !! i = Some g ->
l_exp_avgs a !! i = Some m -> l_exp_avg_sqs a !! i = Some v ->
state_steps !! i = Some step ->
let m' := adam_exp_avg beta1 m g in
let v' := adam_exp_avg_sq beta2 v g in
l_exp_avgs a' !! i = Some m' /\ l_exp_avg_sqs a' !! i = Some v' /\
0 <= 1 - beta2 ^ step /\ 1 - beta1 ^ step <> 0 /\
(amsgrad = false ->
l_max_exp_avg_sqs a' !! i = l_max_exp_avg_sqs a !! i /\
l_params a' !! i =
Some (addcdiv_ (decayed weight_decay lr initial_lr p) m' (adam_denom beta2 eps step v')
     (- (lr / (1 - beta1 ^ step))))) /\
(amsgrad = true ->
exists mx, l_max_exp_avg_sqs a !! i = Some mx /\
l_max_exp_avg_sqs a' !! i = Some (maximum mx v') /\
l_params a' !! i =
Some (addcdiv_ (decayed weight_decay lr initial_lr p) m'
       (adam_denom beta2 eps step (maximum mx v')) (- (lr / (1 - beta1 ^ step))))).
Proof.
intros H Hp Hg Hm Hv Hstep.
assert (Hi : (i < length (l_params a))%nat) by (by eapply lookup_lt_Some).
assert (Him : (i < length (l_exp_avgs a))%nat) by (by eapply lookup_lt_Some).
assert (Hiv : (i < length (l_exp_avg_sqs a))%nat) by (by eapply lookup_lt_Some).
unfold adamw_at, decay_at, moments_at, exp_avg_at, exp_avg_sq_at, max_exp_avg_sq_at,
param_at, set_param, set_exp_avg, set_exp_avg_sq, set_max_exp_avg_sq, decayed,
adam_exp_avg, adam_exp_avg_sq, adam_denom in *.
cbn -[math_sqrt float_div] in H. rewrite Hg in H. cbn -[math_sqrt float_div] in H.
rewrite Hm in H. cbn -[math_sqrt float_div] in H.
rewrite Hv in H. cbn -[math_sqrt float_div] in H.
rewrite Hstep in H. cbn -[math_sqrt float_div] in H.
destruct (Req_dec_T weight_decay 0) as [Hwd|Hwd]; cbn -[math_sqrt float_div] in H;
rewrite ?Hp in H; cbn -[math_sqrt float_div] in H.
all: destruct amsgrad; cbn -[math_sqrt float_div] in H.
all: try (destruct (l_max_exp_avg_sqs a !! i) as [mx|] eqn:Hmx;
    cbn -[math_sqrt float_div] in H; [|done];
    assert (Himx : (i < length (l_max_exp_avg_sqs a))%nat)
      by (by eapply lookup_lt_Some)).
all: destruct (math_sqrt (1 - beta2 ^ step)) as [s|] eqn:Es;
 cbn -[math_sqrt float_div] in H; [|done];
apply math_sqrt_inv in Es as [Hb2 ->];
destruct (float_div lr (1 - beta1 ^ step)) as [ss|] eqn:Ess;
 cbn -[math_sqrt float_div] in H; [|done];
apply float_div_inv in Ess as [Hb1 ->].
all: rewrite ?Hp, ?list_lookup_insert_eq in H by done; cbn in H; simplify_eq; cbn.
all: rewrite ?list_insert_insert_eq, ?list_lookup_insert_eq by done.
all: repeat split; try done; try (intros _; eexists; repeat split; done).
Qed.
End AdamwElementwise.

(** The loop of [adamw], observed at one position. *)
Lemma adamw_position (grads : list tensor) (state_steps : list nat) (amsgrad : bool)
    (beta1 beta2 lr initial_lr weight_decay eps : R) (a a' : DecoupledAdamW.lists)
    (i : nat) (p g m v : tensor) (step : nat) :
  DecoupledAdamW.adamw grads state_steps amsgrad beta1 beta2 lr initial_lr weight_decay eps a
    = (a', Ok tt) ->
  DecoupledAdamW.l_params a !! i = Some p -> grads !! i = Some g ->
  DecoupledAdamW.l_exp_avgs a !! i = Some m ->
  DecoupledAdamW.l_exp_avg_sqs a !! i = Some v ->
  state_steps !! i = Some step ->
  let m' := adam_exp_avg beta1 m g in
  let v' := adam_exp_avg_sq beta2 v g in
  DecoupledAdamW.l_exp_avgs a' !! i = Some m' /\
  DecoupledAdamW.l_exp_avg_sqs a' !! i = Some v' /\
  0 <= 1 - beta2 ^ step /\ 1 - beta1 ^ step <> 0 /\
  (amsgrad = false ->
   DecoupledAdamW.l_max_exp_avg_sqs a' !! i = DecoupledAdamW.l_max_exp_avg_sqs a !! i /\
   DecoupledAdamW.l_params a' !! i =
     Some (addcdiv_ (decayed weight_decay lr initial_lr p) m' (adam_denom beta2 eps step v')
             (- (lr / (1 - beta1 ^ step))))) /\
  (amsgrad = true ->
   exists mx, DecoupledAdamW.l_max_exp_avg_sqs a !! i = Some mx /\
     DecoupledAdamW.l_max_exp_avg_sqs a' !! i = Some (maximum mx v') /\
     DecoupledAdamW.l_params a' !! i =
       Some (addcdiv_ (decayed weight_decay lr initial_lr p) m'
               (adam_denom beta2 eps step (maximum mx v')) (- (lr / (1 - beta1 ^ step))))).
Proof.
  intros H Hp Hg Hm Hv Hstep. unfold DecoupledAdamW.adamw in H.
  assert (Hi : (i < length (DecoupledAdamW.l_params a))%nat) by (by eapply lookup_lt_Some).
  pose proof (for_each_obs
    (fun s => (DecoupledAdamW.l_params s !! i, DecoupledAdamW.l_exp_avgs s !! i,
               DecoupledAdamW.l_exp_avg_sqs s !! i, DecoupledAdamW.l_max_exp_avg_sqs s !! i))
    (fun o o' =>
       o.1.1.1 = Some p -> o.1.1.2 = Some m -> o.1.2 = Some v ->
       let m' := adam_exp_avg beta1 m g in
       let v' := adam_exp_avg_sq beta2 v g in
       o'.1.1.2 = Some m' /\ o'.1.2 = Some v' /\
       0 <= 1 - beta2 ^ step /\ 1 - beta1 ^ step <> 0 /\
       (amsgrad = false ->
        o'.2 = o.2 /\
        o'.1.1.1 =
          Some (addcdiv_ (decayed weight_decay lr initial_lr p) m'
                  (adam_denom beta2 eps step v') (- (lr / (1 - beta1 ^ step))))) /\
       (amsgrad = true ->
        exists mx, o.2 = Some mx /\ o'.2 = Some (maximum mx v') /\
          o'.1.1.1 =
            Some (addcdiv_ (decayed weight_decay lr initial_lr p) m'
                    (adam_denom beta2 eps step (maximum mx v'))
                    (- (lr / (1 - beta1 ^ step))))))
    (seq 0 (length (DecoupledAdamW.l_params a)))
    (DecoupledAdamW.adamw_at grads state_steps amsgrad beta1 beta2 lr initial_lr
       weight_decay eps)
    i (NoDup_seq _ _)) as Hloop.
  cbn [fst snd] in Hloop. eapply Hloop; [| | |exact H|exact Hp|exact Hm|exact Hv].
  - apply elem_of_seq. lia.
  - intros j s s' r Hne Hb. by eapply adamw_at_other.
  - intros s s' Hb Hps Hms Hvs. by eapply adamw_at_self.
Qed.

(** X13.  [adamw] treats every position on its own.  When it returns, the
    moments at a position are [beta1 * exp_avg + (1 - beta1) * grad] and
    [beta2 * exp_avg_sq + (1 - beta2) * grad * grad], with amsgrad the
    maximum is the element-wise maximum of the old one and the new second
    moment, and the decayed parameter has moved by
    [- (lr / (1 - beta1 ^ step)) * exp_avg / denom], where [denom] is the
    square root of the second moment (of the maximum with amsgrad) over
    [sqrt (1 - beta2 ^ step)], plus [eps].  The bias corrections were such
    that [math.sqrt] and the division accepted them. *)
Theorem adamw_elementwise (grads : list tensor) (state_steps : list nat) (amsgrad : bool)
    (beta1 beta2 lr initial_lr weight_decay eps : R) (a a' : DecoupledAdamW.lists)
    (i : nat) (p g m v : tensor) (step : nat) :
  DecoupledAdamW.adamw grads state_steps amsgrad beta1 beta2 lr initial_lr weight_decay eps a
    = (a', Ok tt) ->
  DecoupledAdamW.l_params a !! i = Some p -> grads !! i = Some g ->
  DecoupledAdamW.l_exp_avgs a !! i = Some m ->
  DecoupledAdamW.l_exp_avg_sqs a !! i = Some v ->
  state_steps !! i = Some step ->
  let m' := adam_exp_avg beta1 m g in
  let v' := adam_exp_avg_sq beta2 v g in
  DecoupledAdamW.l_exp_avgs a' !! i = Some m' /\
  DecoupledAdamW.l_exp_avg_sqs a' !! i = Some v' /\
  0 <= 1 - beta2 ^ step /\ 1 - beta1 ^ step <> 0 /\
  (amsgrad = false ->
   DecoupledAdamW.l_max_exp_avg_sqs a' !! i = DecoupledAdamW.l_max_exp_avg_sqs a !! i /\
   DecoupledAdamW.l_params a' !! i =
     Some (addcdiv_ (decayed weight_decay lr initial_lr p) m' (adam_denom beta2 eps step v')
             (- (lr / (1 - beta1 ^ step))))) /\
  (amsgrad = true ->
   exists mx, DecoupledAdamW.l_max_exp_avg_sqs a !! i = Some mx /\
     DecoupledAdamW.l_max_exp_avg_sqs a' !! i = Some (maximum mx v') /\
     DecoupledAdamW.l_params a' !! i =
       Some (addcdiv_ (decayed weight_decay lr initial_lr p) m'
               (adam_denom beta2 eps step (maximum mx v')) (- (lr / (1 - beta1 ^ step))))).
Proof. apply adamw_position. Qed.

(** A first step with betas = (0, 0) on the gradient [1]. *)
Lemma adamw_elementwise_witness :
  exists a',
    DecoupledAdamW.adamw [[1]] [1%nat] false 0 0 1 1 0 1
      {| DecoupledAdamW.l_params := [[4]]; DecoupledAdamW.l_exp_avgs := [[0]];
         DecoupledAdamW.l_exp_avg_sqs := [[0]]; DecoupledAdamW.l_max_exp_avg_sqs := [] |}
    = (a', Ok tt) /\
    DecoupledAdamW.l_exp_avgs a' !! 0%nat = Some (adam_exp_avg 0 [0] [1]) /\
    DecoupledAdamW.l_exp_avg_sqs a' !! 0%nat = Some (adam_exp_avg_sq 0 [0] [1]).
Proof.
  destruct (adamw_returns [[1]] [1%nat] false 0 0 1 1 0 1
              {| DecoupledAdamW.l_params := [[4]]; DecoupledAdamW.l_exp_avgs := [[0]];
                 DecoupledAdamW.l_exp_avg_sqs := [[0]];
                 DecoupledAdamW.l_max_exp_avg_sqs := [] |}) as [a' E];
    try reflexivity; try done.
  { apply Forall_singleton. cbn. split; lra. }
  exists a'. split; [exact E|].
  destruct (adamw_elementwise _ _ _ _ _ _ _ _ _ _ _ 0 [4] [1] [0] [0] 1%nat E
              eq_refl eq_refl eq_refl eq_refl eq_refl) as (Hm & Hv & _).
  by split.
Defined.

(** ** What [adamw] keeps true of the second moment *)

Lemma adam_exp_avg_sq_nonneg beta2 v g :
  0 <= beta2 <= 1 -> Forall (fun x => 0 <= x) v ->
  Forall (fun x => 0 <= x) (adam_exp_avg_sq beta2 v g).
Proof.
  intros Hb H. unfold adam_exp_avg_sq, addcmul_, mul_. revert g.
  induction H as [|x v Hx _ IH]; intros [|y g]; cbn; try constructor; [|by apply IH].
  assert (0 <= y * y) by nra. nra.
Qed.

Lemma maximum_ge mx v k x' :
  maximum mx v !! k = Some x' ->
  exists x y, mx !! k = Some x /\ v !! k = Some y /\ x <= x' /\ y <= x'.
Proof.
  unfold maximum. intros (x & y & -> & Hx & Hy)%lookup_zip_with_Some.
  exists x, y. repeat split; [done|done|apply Rmax_l|apply Rmax_r].
Qed.

(** X14.  With [0 <= beta2 <= 1], a second moment without negative elements
    stays so through [adamw], so the square root in the denominator is taken
    of non-negative numbers; with amsgrad, no element of the stored maximum
    decreases, and each is at least the new second moment. *)
Theorem second_moment_invariants (grads : list tensor) (state_steps : list nat)
    (amsgrad : bool) (beta1 beta2 lr initial_lr weight_decay eps : R)
    (a a' : DecoupledAdamW.lists) (i : nat) (p g m v : tensor) (step : nat) :
  DecoupledAdamW.adamw grads state_steps amsgrad beta1 beta2 lr initial_lr weight_decay eps a
    = (a', Ok tt) ->
  DecoupledAdamW.l_params a !! i = Some p -> grads !! i = Some g ->
  DecoupledAdamW.l_exp_avgs a !! i = Some m ->
  DecoupledAdamW.l_exp_avg_sqs a !! i = Some v ->
  state_steps !! i = Some step ->
  0 <= beta2 <= 1 -> Forall (fun x => 0 <= x) v ->
  exists v',
    DecoupledAdamW.l_exp_avg_sqs a' !! i = Some v' /\
    Forall (fun x => 0 <= x) v' /\
    (amsgrad = true ->
     exists mx mx',
       DecoupledAdamW.l_max_exp_avg_sqs a !! i = Some mx /\
       DecoupledAdamW.l_max_exp_avg_sqs a' !! i = Some mx' /\
       forall k x', mx' !! k = Some x' ->
         exists x y, mx !! k = Some x /\ v' !! k = Some y /\ x <= x' /\ y <= x').
Proof.
  intros H Hp Hg Hm Hv Hstep Hb Hnonneg.
  destruct (adamw_position _ _ _ _ _ _ _ _ _ _ _ _ _ _ _ _ _ H Hp Hg Hm Hv Hstep)
    as (_ & Hv' & _ & _ & _ & Hams).
  eexists. split; [exact Hv'|]. split; [by apply adam_exp_avg_sq_nonneg|].
  intros Ha. destruct (Hams Ha) as (mx & Hmx & Hmx' & _).
  exists mx, (maximum mx (adam_exp_avg_sq beta2 v g)).
  split; [done|]. split; [done|]. intros k x'. apply maximum_ge.
Qed.

Lemma second_moment_invariants_witness :
  exists a' v' mx',
    DecoupledAdamW.adamw [[3]] [1%nat] true 0 (/ 2) 1 1 0 1
      {| DecoupledAdamW.l_params := [[4]]; DecoupledAdamW.l_exp_avgs := [[0]];
         DecoupledAdamW.l_exp_avg_sqs := [[2]]; DecoupledAdamW.l_max_exp_avg_sqs := [[7]] |}
    = (a', Ok tt) /\
    DecoupledAdamW.l_exp_avg_sqs a' !! 0%nat = Some v' /\ Forall (fun x => 0 <= x) v' /\
    DecoupledAdamW.l_max_exp_avg_sqs a' !! 0%nat = Some mx' /\
    (forall x', mx' !! 0%nat = Some x' -> 7 <= x').
Proof.
  destruct (adamw_returns [[3]] [1%nat] true 0 (/ 2) 1 1 0 1
              {| DecoupledAdamW.l_params := [[4]]; DecoupledAdamW.l_exp_avgs := [[0]];
                 DecoupledAdamW.l_exp_avg_sqs := [[2]];
                 DecoupledAdamW.l_max_exp_avg_sqs := [[7]] |}) as [a' E];
    try reflexivity; try done.
  { apply Forall_singleton. cbn. split; lra. }
  destruct (second_moment_invariants _ _ _ _ _ _ _ _ _ _ _ 0 [4] [3] [0] [2] 1%nat E
              eq_refl eq_refl eq_refl eq_refl eq_refl) as (v' & Hv' & Hpos & Hams).
  { lra. }
  { apply Forall_singleton. lra. }
  destruct (Hams eq_refl) as (mx & mx' & Hmx & Hmx' & Hge).
  exists a', v', mx'. split; [exact E|]. split; [exact Hv'|]. split; [exact Hpos|].
  split; [exact Hmx'|]. intros x' Hx'.
  destruct (Hge _ _ Hx') as (x & y & Hx & _ & Hle & _).
  cbn in Hmx. injection Hmx as <-. cbn in Hx. injection Hx as <-. exact Hle.
Defined.

(** ** The first step of a parameter *)

Lemma first_step_element beta1 beta2 lr eps x y :
  1 - beta1 <> 0 -> 0 < 1 - beta2 ->
  x + - (lr / (1 - beta1 ^ 1)) *
        ((0 * beta1 + (1 - beta1) * y) /
         (sqrt (0 * beta2 + (1 - beta2) * (y * y)) / sqrt (1 - beta2 ^ 1) + eps))
  = x - lr * (y / (Rabs y + eps)).
Proof.
  intros H1 H2. rewrite !pow_1.
  replace (0 * beta2 + (1 - beta2) * (y * y)) with ((1 - beta2) * Rsqr y)
    by (unfold Rsqr; ring).
  rewrite sqrt_mult by (try apply Rle_0_sqr; lra). rewrite sqrt_Rsqr_abs.
  assert (Hs : sqrt (1 - beta2) <> 0).
  { intros Hs. apply sqrt_eq_0 in Hs; lra. }
  replace (sqrt (1 - beta2) * Rabs y / sqrt (1 - beta2)) with (Rabs y) by (field; exact Hs).
  unfold Rdiv. generalize (/ (Rabs y + eps)). intros d. field. exact H1.
Qed.

Lemma first_step_list beta1 beta2 lr eps (q pd g : tensor) :
  1 - beta1 <> 0 -> 0 < 1 - beta2 ->
  length q = length pd -> length g = length pd ->
  addcdiv_ pd (adam_exp_avg beta1 (zeros_like q) g)
    (adam_denom beta2 eps 1 (adam_exp_avg_sq beta2 (zeros_like q) g))
    (- (lr / (1 - beta1 ^ 1)))
  = zip_with (fun x y => x - lr * (y / (Rabs y + eps))) pd g.
Proof.
  intros H1 H2. revert q g.
  unfold addcdiv_, adam_exp_avg, adam_denom, adam_exp_avg_sq, zeros_like, add_, addcmul_,
    mul_, add_scalar, div_scalar, tsqrt.
  induction pd as [|x pd IH]; intros [|z q] [|y g] Hq Hg; try done.
  cbn in Hq, Hg. cbn [map zip_with zip fst snd]. f_equal.
  - by apply first_step_element.
  - apply IH; lia.
Qed.

Lemma decayed_length weight_decay lr initial_lr p :
  length (decayed weight_decay lr initial_lr p) = length p.
Proof. unfold decayed, mul_. destruct (Req_dec_T _ _); by rewrite ?length_map. Qed.

(** X15.  The first step of a parameter does not depend on the betas.  From
    moments that are zero and at step 1, without amsgrad and with
    [beta2 <> 1], [adamw] moves each element of the decayed parameter by
    [- lr * g / (|g| + eps)], [g] being the element of the gradient: the
    bias corrections cancel the factors [1 - beta1] and [1 - beta2]. *)
Theorem first_step_is_sign_like (grads : list tensor) (state_steps : list nat)
    (beta1 beta2 lr initial_lr weight_decay eps : R) (a a' : DecoupledAdamW.lists)
    (i : nat) (p g : tensor) :
  DecoupledAdamW.adamw grads state_steps false beta1 beta2 lr initial_lr weight_decay eps a
    = (a', Ok tt) ->
  DecoupledAdamW.l_params a !! i = Some p -> grads !! i = Some g ->
  DecoupledAdamW.l_exp_avgs a !! i = Some (zeros_like p) ->
  DecoupledAdamW.l_exp_avg_sqs a !! i = Some (zeros_like p) ->
  state_steps !! i = Some 1%nat ->
  length g = length p -> beta2 <> 1 ->
  DecoupledAdamW.l_params a' !! i =
    Some (zip_with (fun x y => x - lr * (y / (Rabs y + eps)))
            (decayed weight_decay lr initial_lr p) g).
Proof.
  intros H Hp Hg Hm Hv Hstep Hlen Hb2.
  destruct (adamw_position _ _ _ _ _ _ _ _ _ _ _ _ _ _ _ _ _ H Hp Hg Hm Hv Hstep)
    as (_ & _ & Hbc2 & Hbc1 & Hplain & _).
  destruct (Hplain eq_refl) as [_ Hpa]. etrans; [exact Hpa|]. f_equal.
  rewrite pow_1 in Hbc1, Hbc2.
  apply first_step_list; [done|lra| |]; by rewrite ?decayed_length.
Qed.

(** From the parameter [4] on the gradient [- 3], with lr = 1/10 and
    eps = 1: the parameter moves to 4 - 1/10 * (-3 / (3 + 1)). *)
Lemma first_step_is_sign_like_witness :
  exists a',
    DecoupledAdamW.adamw [[- 3]] [1%nat] false (/ 2) (/ 2) (/ 10) 1 0 1
      {| DecoupledAdamW.l_params := [[4]]; DecoupledAdamW.l_exp_avgs := [[0]];
         DecoupledAdamW.l_exp_avg_sqs := [[0]]; DecoupledAdamW.l_max_exp_avg_sqs := [] |}
    = (a', Ok tt) /\
    DecoupledAdamW.l_params a' !! 0%nat = Some [4 - / 10 * (- 3 / (3 + 1))].
Proof.
  destruct (adamw_returns [[- 3]] [1%nat] false (/ 2) (/ 2) (/ 10) 1 0 1
              {| DecoupledAdamW.l_params := [[4]]; DecoupledAdamW.l_exp_avgs := [[0]];
                 DecoupledAdamW.l_exp_avg_sqs := [[0]];
                 DecoupledAdamW.l_max_exp_avg_sqs := [] |}) as [a' E];
    try reflexivity; try done.
  { apply Forall_singleton. cbn. split; lra. }
  exists a'. split; [exact E|].
  assert (Hb2 : / 2 <> 1) by lra.
  pose proof (first_step_is_sign_like _ _ _ _ _ _ _ _ _ _ 0 [4] [- 3] E
                eq_refl eq_refl eq_refl eq_refl eq_refl eq_refl Hb2) as Hstep.
  etrans; [exact Hstep|].
  unfold decayed. destruct (Req_dec_T 0 0); [|done]. cbn.
  rewrite Rabs_left by lra. by replace (- - 3 + 1) with (3 + 1) by lra.
Defined.

(** ** Bias corrections that [math.sqrt] or the division refuse *)

Section AdamwBias.
Import DecoupledAdamW.
Variable grads : list tensor.
Variable state_steps : list nat.
Variable amsgrad : bool.
Variables beta1 beta2 lr initial_lr weight_decay eps : R.

Let lengths_ok (n : nat) (s : lists) : Prop :=
length (l_params s) = n /\ length (l_exp_avgs s) = n /\ length (l_exp_avg_sqs s) = n /\
(amsgrad = true -> length (l_max_exp_avg_sqs s) = n).

(** The loop up to a position before which every step has bias corrections
that are accepted. *)
Lemma adamw_prefix_returns a j :
let n := length (l_params a) in
length grads = n -> length state_steps = n -> lengths_ok n a ->
(j <= n)%nat ->
Forall (fun step => 0 <= 1 - beta2 ^ step /\ 1 - beta1 ^ step <> 0) (take j state_steps) ->
exists s,
for_each (seq 0 j)
(adamw_at grads state_steps amsgrad beta1 beta2 lr initial_lr weight_decay eps) a
= (s, Ok tt) /\ lengths_ok n s.
Proof.
intros n Hg Hst Hlen Hj Hbias.
apply (for_each_total (lengths_ok n)); [|done].
intros i s Hi (Hp' & He' & Hs' & Hm'). apply elem_of_seq in Hi as [_ Hi]. cbn in Hi.
destruct (lookup_lt_is_Some_2 grads i ltac:(lia)) as [g Eg].
destruct (lookup_lt_is_Some_2 state_steps i ltac:(lia)) as [st Est].
destruct (lookup_lt_is_Some_2 (l_params s) i ltac:(lia)) as [p Ep].
destruct (lookup_lt_is_Some_2 (l_exp_avgs s) i ltac:(lia)) as [ea Eea].
destruct (lookup_lt_is_Some_2 (l_exp_avg_sqs s) i ltac:(lia)) as [es Ees].
assert (Est' : take j state_steps !! i = Some st) by (by rewrite lookup_take_lt).
destruct (proj1 (Forall_lookup _ _) Hbias i st Est') as [Hb2 Hb1].
unfold adamw_at, decay_at, moments_at, exp_avg_at, exp_avg_sq_at, max_exp_avg_sq_at,
param_at, set_param, set_exp_avg, set_exp_avg_sq, set_max_exp_avg_sq, lengths_ok.
cbn -[math_sqrt float_div]. rewrite Eg. cbn -[math_sqrt float_div].
rewrite Eea. cbn -[math_sqrt float_div]. rewrite Ees. cbn -[math_sqrt float_div].
rewrite Est. cbn -[math_sqrt float_div].
destruct amsgrad.
- destruct (lookup_lt_is_Some_2 (l_max_exp_avg_sqs s) i
        ltac:(rewrite Hm' by done; lia)) as [mx Emx].
destruct (Req_dec_T weight_decay 0); cbn -[math_sqrt float_div]; rewrite ?Ep;
cbn -[math_sqrt float_div]; rewrite Emx; cbn -[math_sqrt float_div];
rewrite math_sqrt_ok by done; cbn -[math_sqrt float_div];
rewrite float_div_ok by done; cbn; rewrite ?Ep, ?list_lookup_insert_eq by lia; cbn;
(eexists; split; [reflexivity|]); cbn; rewrite ?length_insert; auto.
- destruct (Req_dec_T weight_decay 0); cbn -[math_sqrt float_div]; rewrite ?Ep;
cbn -[math_sqrt float_div];
rewrite math_sqrt_ok by done; cbn -[math_sqrt float_div];
rewrite float_div_ok by done; cbn; rewrite ?Ep, ?list_lookup_insert_eq by lia; cbn;
(eexists; split; [reflexivity|]); cbn; rewrite ?length_insert; auto.
Qed.

Lemma adamw_at_bias n s j step :
length grads = n -> lengths_ok n s -> (j < n)%nat -> state_steps !! j = Some step ->
(1 - beta2 ^ step < 0 ->
(adamw_at grads state_steps amsgrad beta1 beta2 lr initial_lr weight_decay eps j s).2
= Raise ValueError) /\
(0 <= 1 - beta2 ^ step -> 1 - beta1 ^ step = 0 ->
(adamw_at grads state_steps amsgrad beta1 beta2 lr initial_lr weight_decay eps j s).2
= Raise ZeroDivisionError).
Proof.
intros Hg (Hp' & He' & Hs' & Hm') Hj Est.
destruct (lookup_lt_is_Some_2 grads j ltac:(lia)) as [g Eg].
destruct (lookup_lt_is_Some_2 (l_params s) j ltac:(lia)) as [p Ep].
destruct (lookup_lt_is_Some_2 (l_exp_avgs s) j ltac:(lia)) as [ea Eea].
destruct (lookup_lt_is_Some_2 (l_exp_avg_sqs s) j ltac:(lia)) as [es Ees].
unfold adamw_at, decay_at, moments_at, exp_avg_at, exp_avg_sq_at, max_exp_avg_sq_at,
param_at, set_param, set_exp_avg, set_exp_avg_sq, set_max_exp_avg_sq.
cbn -[math_sqrt float_div]. rewrite Eg. cbn -[math_sqrt float_div].
rewrite Eea. cbn -[math_sqrt float_div]. rewrite Ees. cbn -[math_sqrt float_div].
rewrite Est. cbn -[math_sqrt float_div].
split.
- intros Hneg.
assert (Hsqrt : math_sqrt (1 - beta2 ^ step) = Raise ValueError).
{ unfold math_sqrt. by destruct (Rlt_dec _ _). }
destruct amsgrad.
+ destruct (lookup_lt_is_Some_2 (l_max_exp_avg_sqs s) j
          ltac:(rewrite Hm' by done; lia)) as [mx Emx].
destruct (Req_dec_T weight_decay 0); cbn -[math_sqrt float_div]; rewrite ?Ep;
cbn -[math_sqrt float_div]; rewrite Emx; cbn -[math_sqrt float_div];
by rewrite Hsqrt.
+ destruct (Req_dec_T weight_decay 0); cbn -[math_sqrt float_div]; rewrite ?Ep;
cbn -[math_sqrt float_div]; by rewrite Hsqrt.
- intros Hb2 Hb1.
assert (Hdiv : float_div lr (1 - beta1 ^ step) = Raise ZeroDivisionError).
{ unfold float_div. by destruct (Req_dec_T _ _). }
destruct amsgrad.
+ destruct (lookup_lt_is_Some_2 (l_max_exp_avg_sqs s) j
          ltac:(rewrite Hm' by done; lia)) as [mx Emx].
destruct (Req_dec_T weight_decay 0); cbn -[math_sqrt float_div]; rewrite ?Ep;
cbn -[math_sqrt float_div]; rewrite Emx; cbn -[math_sqrt float_div];
rewrite math_sqrt_ok by done; cbn -[math_sqrt float_div]; by rewrite Hdiv.
+ destruct (Req_dec_T weight_decay 0); cbn -[math_sqrt float_div]; rewrite ?Ep;
cbn -[math_sqrt float_div];
rewrite math_sqrt_ok by done; cbn -[math_sqrt float_div]; by rewrite Hdiv.
Qed.

Lemma adamw_first_bad_step a steps1 step steps2 :
let n := length (l_params a) in
length grads = n -> length state_steps = n -> lengths_ok n a ->
state_steps = steps1 ++ step :: steps2 ->
Forall (fun step => 0 <= 1 - beta2 ^ step /\ 1 - beta1 ^ step <> 0) steps1 ->
(1 - beta2 ^ step < 0 ->
(adamw grads state_steps amsgrad beta1 beta2 lr initial_lr weight_decay eps a).2
= Raise ValueError) /\
(0 <= 1 - beta2 ^ step -> 1 - beta1 ^ step = 0 ->
(adamw grads state_steps amsgrad beta1 beta2 lr initial_lr weight_decay eps a).2
= Raise ZeroDivisionError).
Proof.
intros n Hg Hst Hlen Hsteps Hbias. unfold adamw. fold n.
set (j := length steps1).
assert (Hj : (j < n)%nat).
{ rewrite <- Hst, Hsteps, length_app. cbn. lia. }
assert (Hstep : state_steps !! j = Some step).
{ rewrite Hsteps. by apply list_lookup_middle. }
destruct (adamw_prefix_returns a j Hg Hst Hlen ltac:(fold n; lia)) as (s & E & Hs).
{ rewrite Hsteps. unfold j. rewrite take_app_length. exact Hbias. }
assert (Hseq : seq 0 n = seq 0 j ++ j :: seq (S j) (n - S j)).
{ replace n with (j + S (n - S j))%nat at 1 by lia. by rewrite seq_app. }
rewrite Hseq, for_each_app, E. cbn -[adamw_at].
destruct (adamw_at_bias n s j step Hg Hs Hj Hstep) as [Hval Hzero].
destruct (adamw_at _ _ _ _ _ _ _ _ _ j s) as [s' r]. cbn in Hval, Hzero.
split; [intros H; by rewrite (Hval H)|intros H1 H2; by rewrite (Hzero H1 H2)].
Qed.
End AdamwBias.

(** X16.  On lists of equal lengths, [adamw] stops at the first position
    whose step gives a bias correction that is refused: ValueError from
    [math.sqrt] when [1 - beta2 ^ step] is negative, and otherwise
    ZeroDivisionError from [lr / bias_correction1] when [beta1 ^ step] is 1
    (a [beta1] of 1, or of -1 at an even step). *)
Theorem adamw_bias_errors (grads : list tensor) (state_steps : list nat) (amsgrad : bool)
    (beta1 beta2 lr initial_lr weight_decay eps : R) (a : DecoupledAdamW.lists)
    (steps1 : list nat) (step : nat) (steps2 : list nat) :
  let n := length (DecoupledAdamW.l_params a) in
  length grads = n -> length state_steps = n ->
  length (DecoupledAdamW.l_exp_avgs a) = n -> length (DecoupledAdamW.l_exp_avg_sqs a) = n ->
  (amsgrad = true -> length (DecoupledAdamW.l_max_exp_avg_sqs a) = n) ->
  state_steps = steps1 ++ step :: steps2 ->
  Forall (fun step => 0 <= 1 - beta2 ^ step /\ 1 - beta1 ^ step <> 0) steps1 ->
  (1 - beta2 ^ step < 0 ->
   (DecoupledAdamW.adamw grads state_steps amsgrad beta1 beta2 lr initial_lr weight_decay
      eps a).2 = Raise ValueError) /\
  (0 <= 1 - beta2 ^ step -> 1 - beta1 ^ step = 0 ->
   (DecoupledAdamW.adamw grads state_steps amsgrad beta1 beta2 lr initial_lr weight_decay
      eps a).2 = Raise ZeroDivisionError).
Proof.
  intros n Hg Hst He Hs Hm Hsteps Hbias.
  by apply (adamw_first_bad_step grads state_steps amsgrad beta1 beta2 lr initial_lr
              weight_decay eps a steps1 step steps2).
Qed.

Lemma adamw_bias_errors_witness :
  (DecoupledAdamW.adamw [[1]] [1%nat] false 1 (/ 2) 1 1 0 1
     {| DecoupledAdamW.l_params := [[4]]; DecoupledAdamW.l_exp_avgs := [[0]];
        DecoupledAdamW.l_exp_avg_sqs := [[0]]; DecoupledAdamW.l_max_exp_avg_sqs := [] |}).2
  = Raise ZeroDivisionError /\
  (DecoupledAdamW.adamw [[1]] [1%nat] false (/ 2) 2 1 1 0 1
     {| DecoupledAdamW.l_params := [[4]]; DecoupledAdamW.l_exp_avgs := [[0]];
        DecoupledAdamW.l_exp_avg_sqs := [[0]]; DecoupledAdamW.l_max_exp_avg_sqs := [] |}).2
  = Raise ValueError.
Proof.
  split.
  - apply (adamw_bias_errors [[1]] [1%nat] false 1 (/ 2) 1 1 0 1 _ [] 1%nat []);
      try reflexivity; try done; cbn; lra.
  - apply (adamw_bias_errors [[1]] [1%nat] false (/ 2) 2 1 1 0 1 _ [] 1%nat []);
      try reflexivity; try done; cbn; lra.
Defined.

(** ** The update written with a step tensor *)

Lemma update_from_step_tensor ss c (p m d : tensor) :
  length m = length p -> length d = length p ->
  addcdiv_ p m d (- ss)
  = add_ p (add_ (scalar_mul ss (tdiv m d)) (addcdiv_ p m d (- ss)) (- 0 * c)) (- (1)).
Proof.
  unfold addcdiv_, add_, scalar_mul, tdiv. revert m d.
  induction p as [|x p IH]; intros [|y m] [|z d] Hm Hd; try done.
  cbn in Hm, Hd. cbn [zip zip_with map fst snd]. f_equal.
  - unfold Rdiv. ring.
  - apply IH; lia.
Qed.

Lemma adam_exp_avg_length beta1 m g :
  length (adam_exp_avg beta1 m g) = Nat.min (length m) (length g).
Proof. unfold adam_exp_avg, add_, mul_. by rewrite length_zip_with, length_map. Qed.

Lemma adam_exp_avg_sq_length beta2 v g :
  length (adam_exp_avg_sq beta2 v g) = Nat.min (length v) (length g).
Proof.
  unfold adam_exp_avg_sq, addcmul_, mul_.
  rewrite !length_zip_with, length_map. lia.
Qed.

(** ** When [DecoupledSGDW.step] raises *)

Section SgdStepOutcome.
Import DecoupledSGDW.

Lemma collect_lengths w0 ps :
match fold_each ps collect
    {| params_with_grad := []; c_d_p_list := []; momentum_buffer_list := [] |} w0 with
| (w, Ok c) =>
length (c_d_p_list c) = length (params_with_grad c) /\
length (momentum_buffer_list c) = length (params_with_grad c)
| (w, Raise _) => False
end.
Proof.
apply (fold_each_ind
(fun w c => length (c_d_p_list c) = length (params_with_grad c) /\
          length (momentum_buffer_list c) = length (params_with_grad c))
(fun _ => False)); [|done].
intros p c w _ [Hd Hb]. unfold collect. cbn.
destruct (grad (mem w p)) as [g|]; cbn; [|done].
rewrite !length_app. cbn. lia.
Qed.

Lemma step_group_returns g w ilr :
initial_lr g = Some ilr -> (step_group g w).2 = Ok tt.
Proof.
intros Hilr. unfold step_group. rewrite Hilr.
cbn -[sgdw fold_each store_from for_each].
pose proof (collect_lengths w (params g)) as Hc.
destruct (fold_each _ _ _ w) as [w1 [c|e]]; [|done]. destruct Hc as [Hd Hb].
cbn -[sgdw fold_each store_from for_each].
destruct (sgdw_returns (c_d_p_list c) (weight_decay g) (momentum g) (lr g) ilr
        (dampening g) (nesterov g)
        {| l_params := map (fun p => data (mem w1 p)) (params_with_grad c);
           l_momentum_buffer_list := momentum_buffer_list c |}) as [a' E].
{ cbn. by rewrite length_map. }
{ cbn. by rewrite length_map. }
rewrite E. cbn -[for_each].
destruct (for_each_total (fun _ => True)
        (zip (params_with_grad c) (l_momentum_buffer_list a')) attach)
with (s := store_from 0 (params_with_grad c)
           {| l_params := map (fun p => data (mem w1 p)) (params_with_grad c);
              l_momentum_buffer_list := momentum_buffer_list c |} a' w1)
as (w2 & E2 & _); [|done|by rewrite E2].
intros pb s _ _. eexists. by split.
Qed.

Lemma step_groups_outcome groups w :
(Forall (fun g => is_Some (initial_lr g)) groups ->
(for_each groups step_group w).2 = Ok tt) /\
(Exists (fun g => initial_lr g = None) groups ->
(for_each groups step_group w).2 = Raise KeyError).
Proof.
revert w. induction groups as [|g groups IH]; intros w.
- split; [done|]. intros H. by apply Exists_nil in H.
- cbn [for_each]. cbn -[step_group for_each].
destruct (initial_lr g) as [ilr|] eqn:Hilr.
+ pose proof (step_group_returns g w ilr Hilr) as Hg.
destruct (step_group g w) as [w1 r]. cbn in Hg. subst r.
destruct (IH w1) as [IH1 IH2]. split.
* intros [_ H]%Forall_cons. by apply IH1.
* intros [H|H]%Exists_cons; [congruence|by apply IH2].
+ assert (Hg : step_group g w = (w, Raise KeyError)).
{ unfold step_group. by rewrite Hilr. }
rewrite Hg. split; [|done].
intros [[x Hx] _]%Forall_cons. congruence.
Qed.
End SgdStepOutcome.

(** X18.  [DecoupledSGDW.step] raises nothing but KeyError, and raises it
    exactly when a parameter group has no 'initial_lr'; otherwise it
    returns the loss of the closure ([None] without closure).  The groups
    that [__init__] has set up all have their 'initial_lr', so on them the
    step always returns. *)
Theorem sgd_step_outcome (groups : list DecoupledSGDW.group) (closure : option closure_t)
    (w : DecoupledSGDW.world) :
  (Forall (fun g => is_Some (DecoupledSGDW.initial_lr g)) groups ->
   (DecoupledSGDW.step groups closure w).2 = (DecoupledSGDW.run_closure closure w).2) /\
  (Exists (fun g => DecoupledSGDW.initial_lr g = None) groups ->
   (DecoupledSGDW.step groups closure w).2 = Raise KeyError) /\
  (DecoupledSGDW.step (DecoupledSGDW.init groups) closure w).2
    = (DecoupledSGDW.run_closure closure w).2 /\
  exists loss, (DecoupledSGDW.run_closure closure w).2 = Ok loss.
Proof.
  assert (Hclosure : exists w1 loss, DecoupledSGDW.run_closure closure w = (w1, Ok loss)).
  { unfold DecoupledSGDW.run_closure. destruct closure as [f|]; [|by eauto].
    destruct (f (DecoupledSGDW.mem w)). eauto. }
  destruct Hclosure as (w1 & loss & E).
  assert (Hall : forall gs, Forall (fun g => is_Some (DecoupledSGDW.initial_lr g)) gs ->
                 (DecoupledSGDW.step gs closure w).2 = Ok loss).
  { intros gs H. unfold DecoupledSGDW.step. cbn -[for_each]. rewrite E.
    pose proof (proj1 (step_groups_outcome gs w1) H) as Hgs.
    destruct (for_each gs DecoupledSGDW.step_group w1) as [w2 r]. cbn in Hgs. by subst r. }
  rewrite E. cbn [snd]. split; [apply Hall|]. split; [|split; [|by eauto]].
  - intros H. unfold DecoupledSGDW.step. cbn -[for_each]. rewrite E.
    pose proof (proj2 (step_groups_outcome groups w1) H) as Hgs.
    destruct (for_each groups DecoupledSGDW.step_group w1) as [w2 r]. cbn in Hgs. by subst r.
  - apply Hall. unfold DecoupledSGDW.init. apply Forall_map, Forall_forall.
    intros g _. by eexists.
Qed.

(** ** Parameters that no group lists *)

Section SgdUnlisted.
Import DecoupledSGDW.
Variable p : nat.

Lemma sgd_collect_unlisted w0 ps acc :
p ∉ ps -> p ∉ params_with_grad acc ->
match fold_each ps collect acc w0 with
| (w, Ok c) =>
mem w = mem w0 /\ state w !! p = state w0 !! p /\ (p ∉ params_with_grad c)
| (w, Raise _) => False
end.
Proof.
intros Hps Hacc.
apply (fold_each_ind
(fun w c => mem w = mem w0 /\ state w !! p = state w0 !! p /\
          (p ∉ params_with_grad c))
(fun _ => False)); [|done].
intros x c w Hx (Hmem & Hst & Hc). unfold collect. cbn.
destruct (grad (mem w x)) as [g|]; cbn; [|done].
assert (Hne : x <> p) by (intros ->; done).
split; [done|]. split.
- rewrite <- Hst. by apply lookup_insert_ne.
- rewrite not_elem_of_app, not_elem_of_cons. split; [done|]. split; [done|].
apply not_elem_of_nil.
Qed.

Lemma sgd_store_from_unlisted before after ids : forall i w,
p ∉ ids ->
mem (store_from i ids before after w) p = mem w p /\
state (store_from i ids before after w) !! p = state w !! p.
Proof.
induction ids as [|x ids IH]; intros i w Hids; [done|].
apply not_elem_of_cons in Hids as [Hne Hids]. cbn [store_from].
match goal with |- context [store_from (S i) ids before after ?w'] =>
destruct (IH (S i) w' Hids) as [-> ->] end.
cbn. split.
- destruct (l_params after !! i); [by rewrite set_data_other|done].
- repeat case_match; try done; by apply lookup_insert_ne.
Qed.

Lemma sgd_attach_unlisted ids (bufs : list (option tensor)) w :
p ∉ ids ->
mem (for_each (zip ids bufs) attach w).1 p = mem w p /\
state (for_each (zip ids bufs) attach w).1 !! p = state w !! p.
Proof.
intros Hids.
apply (for_each_ind (fun s => mem s p = mem w p /\ state s !! p = state w !! p)); [|done].
intros [q b] s Hin [Hm Hs]. apply elem_of_zip_l in Hin. cbn in Hin.
split; [done|]. cbn. rewrite <- Hs. apply lookup_insert_ne. by intros ->.
Qed.

Lemma sgd_step_group_unlisted g w :
p ∉ params g ->
mem (step_group g w).1 p = mem w p /\ state (step_group g w).1 !! p = state w !! p.
Proof.
intros Hp. unfold step_group. cbn -[sgdw fold_each store_from for_each].
destruct (initial_lr g) as [ilr|]; cbn -[sgdw fold_each store_from for_each]; [|done].
pose proof (sgd_collect_unlisted w (params g)
          {| params_with_grad := []; c_d_p_list := []; momentum_buffer_list := [] |}
          Hp (not_elem_of_nil _)) as Hc.
destruct (fold_each _ _ _ w) as [w1 [c|e]]; [|done].
destruct Hc as (Hmem & Hst & Hc). cbn -[sgdw fold_each store_from for_each].
destruct (sgdw _ _ _ _ _ _ _ _) as [after r]. cbn -[sgdw fold_each store_from for_each].
rewrite <- Hmem, <- Hst.
destruct r as [[]|e]; cbn -[sgdw fold_each store_from for_each].
- match goal with |- context [for_each (zip ?ids ?bufs) attach ?w'] =>
destruct (sgd_attach_unlisted ids bufs w' Hc) as [-> ->] end.
by apply sgd_store_from_unlisted.
- by apply sgd_store_from_unlisted.
Qed.

Lemma sgd_step_groups_unlisted groups : forall w,
Forall (fun g => p ∉ params g) groups ->
mem (for_each groups step_group w).1 p = mem w p /\
state (for_each groups step_group w).1 !! p = state w !! p.
Proof.
induction groups as [|g groups IH]; intros w Hgs; [done|].
apply Forall_cons in Hgs as [Hg Hgs]. cbn -[step_group].
destruct (sgd_step_group_unlisted g w Hg) as [Hm Hs].
destruct (step_group g w) as [w1 [[]|e]]; cbn in *; [|done].
destruct (IH w1 Hgs) as [-> ->]. done.
Qed.
End SgdUnlisted.

Section AdamUnlisted.
Import DecoupledAdamW.
Variable p : nat.

Lemma adam_collect_unlisted amsgrad w0 ps :
p ∉ ps ->
match fold_each ps (collect amsgrad) no_lists w0 with
| (w, Ok c) => state w !! p = state w0 !! p /\ (p ∉ params_with_grad c)
| (w, Raise _) => state w !! p = state w0 !! p
end.
Proof.
intros Hps.
apply (fold_each_ind
(fun w c => state w !! p = state w0 !! p /\ (p ∉ params_with_grad c))
(fun w => state w !! p = state w0 !! p)); [|split; [done|apply not_elem_of_nil]].
intros x c w Hx [Hst Hc]. unfold collect, state_entry, set_state. cbn.
assert (Hne : x <> p) by (intros ->; done).
assert (Hin : p ∉ params_with_grad c ++ [x]).
{ rewrite not_elem_of_app, not_elem_of_cons. split; [done|]. split; [done|].
apply not_elem_of_nil. }
destruct (grad (mem w x)) as [g|]; cbn; [|done].
destruct (requires_grad (mem w x)); cbn; [|done].
destruct (is_sparse g); cbn; [done|].
destruct (state w !! x) as [s|] eqn:Es; cbn.
- destruct amsgrad; cbn; [destruct (max_exp_avg_sq s); cbn; [|done]|].
all: split; [|done]; rewrite <- Hst; by apply lookup_insert_ne.
- destruct amsgrad; cbn.
all: split; [|done]; rewrite <- Hst; by rewrite !lookup_insert_ne.
Qed.

Lemma adam_store_from_unlisted amsgrad after ids : forall i w,
p ∉ ids ->
mem (store_from amsgrad i ids after w) p = mem w p /\
state (store_from amsgrad i ids after w) !! p = state w !! p.
Proof.
induction ids as [|x ids IH]; intros i w Hids; [done|].
apply not_elem_of_cons in Hids as [Hne Hids]. cbn [store_from].
match goal with |- context [store_from amsgrad (S i) ids after ?w'] =>
destruct (IH (S i) w' Hids) as [-> ->] end.
cbn. split.
- destruct (l_params after !! i); [by rewrite set_data_other|done].
- by apply lookup_alter_ne.
Qed.

Lemma adam_step_group_unlisted g w :
p ∉ params g ->
mem (step_group g w).1 p = mem w p /\ state (step_group g w).1 !! p = state w !! p.
Proof.
intros Hp. unfold step_group. destruct (betas g) as [beta1 beta2].
cbn -[adamw fold_each store_from].
pose proof (collect_frame_adam (amsgrad g) w (params g)) as Hf.
pose proof (adam_collect_unlisted (amsgrad g) w (params g) Hp) as Hc.
destruct (fold_each _ _ _ w) as [w1 [c|e]].
- destruct Hf as (Hmem & _). destruct Hc as [Hst Hc]. cbn -[adamw fold_each store_from].
destruct (adamw _ _ _ _ _ _ _ _ _ _) as [after r]. cbn -[adamw fold_each store_from].
rewrite <- Hmem, <- Hst.
destruct r as [[]|e]; cbn -[store_from]; by apply adam_store_from_unlisted.
- destruct Hf as (Hmem & _). cbn. by rewrite Hmem.
Qed.

Lemma adam_step_loop_unlisted l : forall w,
Forall (fun g => p ∉ params g) (param_groups w) ->
mem (for_each l step_at w).1 p = mem w p /\
state (for_each l step_at w).1 !! p = state w !! p.
Proof.
induction l as [|i l IH]; intros w Hgs; [done|].
cbn -[step_at].
assert (Hi : mem (step_at i w).1 p = mem w p /\
         state (step_at i w).1 !! p = state w !! p /\
         Forall (fun g => p ∉ params g) (param_groups (step_at i w).1)).
{ unfold step_at. cbn -[step_group].
destruct (param_groups w !! i) as [g|] eqn:Eg; cbn -[step_group]; [|done].
assert (Hg : p ∉ params (default_initial_lr g)).
{ pose proof (proj1 (Forall_lookup _ _) Hgs i g Eg) as H. cbn in H.
unfold default_initial_lr. by destruct (initial_lr g). }
match goal with |- context [step_group ?g' ?w'] =>
destruct (adam_step_group_unlisted g' w' Hg) as [Hm Hs];
pose proof (step_group_groups g' w') as Hgr;
destruct (step_group g' w') as [w2 r] end.
cbn in Hm, Hs, Hgr.
assert (Hw2 : Forall (fun g => p ∉ params g) (param_groups w2)).
{ rewrite Hgr. apply Forall_insert; done. }
by destruct r as [[]|e]. }
destruct Hi as (Hm & Hs & Hgs').
destruct (step_at i w) as [w1 [[]|e]]; cbn in *; [|done].
destruct (IH w1 Hgs') as [-> ->]. done.
Qed.
End AdamUnlisted.

(** X19.  A step touches only parameters that a group lists.  A parameter
    that is in no parameter group keeps its value and its state through
    [step] of either optimizer, whatever its gradient and whatever the
    outcome of the call. *)
Theorem unlisted_parameters_untouched (p : nat) :
  (forall groups closure w,
     Forall (fun g => p ∉ DecoupledSGDW.params g) groups ->
     DecoupledSGDW.mem (DecoupledSGDW.step groups closure w).1 p
       = DecoupledSGDW.mem (DecoupledSGDW.run_closure closure w).1 p /\
     DecoupledSGDW.state (DecoupledSGDW.step groups closure w).1 !! p
       = DecoupledSGDW.state w !! p) /\
  (forall closure w,
     Forall (fun g => p ∉ DecoupledAdamW.params g) (DecoupledAdamW.param_groups w) ->
     DecoupledAdamW.mem (DecoupledAdamW.step closure w).1 p
       = DecoupledAdamW.mem (DecoupledAdamW.run_closure closure w).1 p /\
     DecoupledAdamW.state (DecoupledAdamW.step closure w).1 !! p
       = DecoupledAdamW.state w !! p).
Proof.
  split.
  - intros groups closure w Hgs. unfold DecoupledSGDW.step. cbn -[for_each].
    assert (exists w1 loss, DecoupledSGDW.run_closure closure w = (w1, Ok loss) /\
                            DecoupledSGDW.state w1 = DecoupledSGDW.state w)
      as (w1 & loss & E & Hst).
    { unfold DecoupledSGDW.run_closure. destruct closure as [f|]; [|by eauto].
      destruct (f (DecoupledSGDW.mem w)). eauto. }
    rewrite E. cbn -[for_each]. rewrite <- Hst.
    destruct (sgd_step_groups_unlisted p groups w1 Hgs) as [Hm Hs].
    by destruct (for_each groups DecoupledSGDW.step_group w1) as [w2 [[]|e]].
  - intros closure w Hgs. unfold DecoupledAdamW.step. cbn -[for_each].
    assert (exists w1 loss, DecoupledAdamW.run_closure closure w = (w1, Ok loss) /\
                            DecoupledAdamW.state w1 = DecoupledAdamW.state w /\
                            DecoupledAdamW.param_groups w1 = DecoupledAdamW.param_groups w)
      as (w1 & loss & E & Hst & Hgr).
    { unfold DecoupledAdamW.run_closure. destruct closure as [f|]; [|by eauto].
      destruct (f (DecoupledAdamW.mem w)). eauto. }
    rewrite E. cbn -[for_each]. rewrite <- Hst. rewrite <- Hgr in Hgs.
    destruct (adam_step_loop_unlisted p (seq 0 (length (DecoupledAdamW.param_groups w1)))
                w1 Hgs) as [Hm Hs].
    by destruct (for_each _ DecoupledAdamW.step_at w1) as [w2 [[]|e]].
Qed.

(** ** The 'initial_lr' that [DecoupledAdamW.step] fills in *)

Section AdamInitialLr.
Import DecoupledAdamW.

Lemma step_at_groups i w g :
param_groups w !! i = Some g ->
param_groups (step_at i w).1 = <[i := default_initial_lr g]> (param_groups w).
Proof.
intros Hg. unfold step_at. cbn -[step_group]. rewrite Hg. cbn -[step_group].
match goal with |- context [step_group ?g' ?w'] =>
pose proof (step_group_groups g' w') as Hgr;
destruct (step_group g' w') as [w2 r] end.
cbn in Hgr. by destruct r as [[]|e].
Qed.

Lemma step_loop_groups n : forall i w w' r,
(i + n = length (param_groups w))%nat ->
for_each (seq i n) step_at w = (w', r) ->
exists j, (i <= j <= i + n)%nat /\ (r = Ok tt -> j = (i + n)%nat) /\
forall k, param_groups w' !! k =
        if decide (i <= k < j)%nat then default_initial_lr <$> param_groups w !! k
        else param_groups w !! k.
Proof.
induction n as [|n IH]; intros i w w' r Hlen H.
- cbn in H. simplify_eq. exists i. split; [lia|]. split; [intros _; lia|].
intros k. rewrite decide_False by lia. done.
- cbn [seq for_each] in H. cbn -[step_at] in H.
destruct (lookup_lt_is_Some_2 (param_groups w) i ltac:(lia)) as [g Hg].
pose proof (step_at_groups i w g Hg) as Hgr.
destruct (step_at i w) as [w1 r1]. cbn in Hgr.
assert (Hat : forall k, param_groups w1 !! k =
              if decide (k = i) then default_initial_lr <$> param_groups w !! k
              else param_groups w !! k).
{ intros k. rewrite Hgr. destruct (decide (k = i)) as [->|Hne].
- rewrite list_lookup_insert_eq by lia. by rewrite Hg.
- by rewrite list_lookup_insert_ne. }
destruct r1 as [[]|e].
+ destruct (IH (S i) w1 w' r) as (j & Hj & Hok & Hk); [|done|].
{ rewrite Hgr, length_insert. lia. }
exists j. split; [lia|]. split; [intros Hr; specialize (Hok Hr); lia|].
intros k. rewrite Hk, Hat.
destruct (decide (S i <= k < j)%nat), (decide (k = i)), (decide (i <= k < j)%nat);
  try done; try lia.
+ simplify_eq. exists (S i). split; [lia|]. split; [done|].
intros k. rewrite Hat.
destruct (decide (k = i)), (decide (i <= k < S i)%nat); try done; lia.
Qed.
End AdamInitialLr.

(** X20.  [DecoupledAdamW.step] gives every group it reaches an
    'initial_lr' and changes nothing else of the groups.  After a call that
    returns, each group that had no 'initial_lr' has its current [lr] as
    'initial_lr' and the other groups are as they were; after a call that
    raises, this holds of the groups up to the one that raised and the later
    groups are untouched. *)
Theorem adam_step_sets_initial_lr (closure : option closure_t) (w w' : DecoupledAdamW.world)
    (r : result (option R)) :
  DecoupledAdamW.step closure w = (w', r) ->
  ((exists loss, r = Ok loss) ->
   DecoupledAdamW.param_groups w'
     = map DecoupledAdamW.default_initial_lr (DecoupledAdamW.param_groups w)) /\
  exists j,
    DecoupledAdamW.param_groups w'
      = map DecoupledAdamW.default_initial_lr (take j (DecoupledAdamW.param_groups w))
        ++ drop j (DecoupledAdamW.param_groups w).
Proof.
  intros H. unfold DecoupledAdamW.step in H. cbn -[for_each] in H.
  assert (exists w1 loss, DecoupledAdamW.run_closure closure w = (w1, Ok loss) /\
                          DecoupledAdamW.param_groups w1 = DecoupledAdamW.param_groups w)
    as (w1 & loss & E & Hgr).
  { unfold DecoupledAdamW.run_closure. destruct closure as [f|]; [|by eauto].
    destruct (f (DecoupledAdamW.mem w)). eauto. }
  rewrite E in H. cbn -[for_each] in H.
  destruct (for_each _ DecoupledAdamW.step_at w1) as [w2 r2] eqn:Eloop.
  destruct (step_loop_groups _ 0 w1 w2 r2 eq_refl Eloop) as (j & Hj & Hok & Hk).
  assert (Hw2 : DecoupledAdamW.param_groups w2
                = map DecoupledAdamW.default_initial_lr
                    (take j (DecoupledAdamW.param_groups w))
                  ++ drop j (DecoupledAdamW.param_groups w)).
  { rewrite <- Hgr. apply list_eq. intros k. rewrite Hk.
    destruct (decide (0 <= k < j)%nat) as [Hlt|Hge].
    - rewrite lookup_app_l by (rewrite length_map, length_take; lia).
      rewrite list_lookup_fmap, lookup_take_lt by lia. done.
    - rewrite lookup_app_r by (rewrite length_map, length_take; lia).
      rewrite length_map, length_take, lookup_drop. f_equal. lia. }
  assert (Hw' : DecoupledAdamW.param_groups w' = DecoupledAdamW.param_groups w2).
  { destruct r2 as [[]|e]; by simplify_eq. }
  rewrite Hw'. split; [|by exists j].
  intros [l ->]. destruct r2 as [[]|e]; [|by simplify_eq].
  rewrite Hw2, (Hok eq_refl), <- Hgr. cbn.
  by rewrite firstn_all, drop_all, app_nil_r.
Qed.

Lemma adam_step_sets_initial_lr_witness :
  exists w',
    DecoupledAdamW.step None bare_world = (w', Ok None) /\
    DecoupledAdamW.initial_lr <$> DecoupledAdamW.param_groups w' = [Some 3].
Proof.
  assert (E : exists w', DecoupledAdamW.step None bare_world = (w', Ok None)).
  { unfold bare_world, bare_group. adam_unfold. cbn. eexists. reflexivity. }
  destruct E as [w' E]. exists w'. split; [exact E|].
  destruct (adam_step_sets_initial_lr None bare_world w' (Ok None) E) as [Hok _].
  rewrite Hok by eauto. reflexivity.
Defined.

(** ** When [DecoupledAdamW.step] returns *)

Lemma bias_corrections_ok beta1 beta2 (step : nat) :
  0 <= beta1 < 1 -> 0 <= beta2 <= 1 -> (1 <= step)%nat ->
  0 <= 1 - beta2 ^ step /\ 1 - beta1 ^ step <> 0.
Proof.
  intros H1 H2 Hstep. split.
  - assert (beta2 ^ step <= 1 ^ step) by (apply pow_incr; lra). rewrite pow1 in *. lra.
  - destruct step as [|n]; [lia|]. cbn [pow].
    assert (beta1 ^ n <= 1 ^ n) by (apply pow_incr; lra). rewrite pow1 in *.
    assert (0 <= beta1 ^ n) by (apply pow_le; lra). nra.
Qed.

Section AdamStepReturns.
Import DecoupledAdamW.

Lemma adam_ready_insert flag st p s :
adam_ready flag st -> (flag = true -> is_Some (max_exp_avg_sq s)) ->
adam_ready flag (<[p := s]> st).
Proof.
intros Hst Hs Hflag q t. destruct (decide (p = q)) as [->|Hne].
- rewrite lookup_insert_eq. intros [= <-]. auto.
- rewrite lookup_insert_ne by done. by apply Hst.
Qed.

Lemma collect_returns flag w0 ps :
dense (mem w0) -> adam_ready flag (state w0) ->
match fold_each ps (collect flag) no_lists w0 with
| (w, Ok c) =>
mem w = mem w0 /\ adam_ready flag (state w) /\ collected_lengths flag c /\
Forall (fun s => (1 <= s)%nat) (c_state_steps c)
| (w, Raise _) => False
end.
Proof.
intros Hdense Hready.
apply (fold_each_ind
(fun w c => mem w = mem w0 /\ adam_ready flag (state w) /\ collected_lengths flag c /\
          Forall (fun s => (1 <= s)%nat) (c_state_steps c))
(fun _ => False)).
2: { split; [done|]. split; [done|]. split; [by repeat split|constructor]. }
intros p c w _ (Hmem & Hst & (Hg & He & Hs & Hsteps & Hmax) & Hall).
unfold collect, state_entry, set_state. cbn.
destruct (grad (mem w p)) as [g|] eqn:Egp; cbn; [|done].
destruct (requires_grad (mem w p)) eqn:Erq; cbn; [|done].
rewrite Hmem in Egp, Erq. rewrite (Hdense p g Egp Erq). cbn.
assert (Hsnoc : forall x, Forall (fun s => (1 <= s)%nat) (c_state_steps c ++ [S x])).
{ intros x. apply Forall_app. split; [done|]. apply Forall_singleton. lia. }
destruct (state w !! p) as [s|] eqn:Es; cbn.
- destruct flag eqn:Eflag; cbn.
+ destruct (Hst eq_refl p s Es) as [mx Hmx]. rewrite Hmx. cbn.
split; [done|]. split; [apply adam_ready_insert; [done|by eauto]|].
split; [|done]. unfold collected_lengths. cbn. rewrite !length_app. cbn.
specialize (Hmax eq_refl). repeat split; try lia; try done.
+ split; [done|]. split; [by apply adam_ready_insert|].
split; [|done]. unfold collected_lengths. cbn. rewrite !length_app. cbn.
repeat split; try lia; try done.
- destruct flag eqn:Eflag; cbn.
+ split; [done|].
split; [apply adam_ready_insert; [apply adam_ready_insert|]; by eauto|].
split; [|done]. unfold collected_lengths. cbn. rewrite !length_app. cbn.
specialize (Hmax eq_refl). repeat split; try lia; try done.
+ split; [done|].
split; [apply adam_ready_insert; [apply adam_ready_insert|]; done|].
split; [|done]. unfold collected_lengths. cbn. rewrite !length_app. cbn.
repeat split; try lia; try done.
Qed.

Lemma store_from_ready flag after ids : forall i w,
adam_ready flag (state w) -> adam_ready flag (state (store_from flag i ids after w)).
Proof.
induction ids as [|p ids IH]; intros i w Hw; [done|].
cbn [store_from]. apply IH. cbn. intros Hflag q t.
destruct (decide (p = q)) as [->|Hne].
- rewrite lookup_alter_eq. destruct (state w !! q) as [s|] eqn:Es; cbn; [|done].
intros [= <-]. destruct (Hw Hflag q s Es) as [mx Hmx].
unfold store_state. cbn. rewrite Hflag, Hmx. by destruct (l_max_exp_avg_sqs after !! i).
- rewrite lookup_alter_ne by done. by apply Hw.
Qed.

Lemma dense_frame w0 w : adam_frame w0 w -> dense (mem w0) -> dense (mem w).
Proof.
intros [Hg _] Hd p gr Hgr Hrq. destruct (Hg p) as [Hgp Hrp].
apply (Hd p); congruence.
Qed.

Lemma adam_step_group_returns flag g w :
betas_ok flag g -> dense (mem w) -> adam_ready flag (state w) ->
(step_group g w).2 = Ok tt /\ adam_ready flag (state (step_group g w).1).
Proof.
intros (Hflag & Hb1 & Hb2) Hdense Hready. unfold step_group.
destruct (betas g) as [beta1 beta2]. cbn [fst snd] in Hb1, Hb2.
cbn -[adamw fold_each store_from]. rewrite Hflag.
pose proof (collect_returns flag w (params g) Hdense Hready) as Hc.
destruct (fold_each _ _ _ w) as [w1 [c|e]]; [|done].
destruct Hc as (Hmem & Hst & (Hg & He & Hs & Hsteps & Hmax) & Hall).
cbn -[adamw fold_each store_from].
match goal with |- context [adamw ?a1 ?a2 ?a3 ?a4 ?a5 ?a6 ?a7 ?a8 ?a9 ?a10] =>
assert (exists a', adamw a1 a2 a3 a4 a5 a6 a7 a8 a9 a10 = (a', Ok tt)) as [a' E] end.
{ apply adamw_returns; cbn; rewrite ?length_map; try done.
eapply Forall_impl; [exact Hall|]. intros step Hstep. by apply bias_corrections_ok. }
rewrite E. cbn -[store_from]. split; [done|]. by apply store_from_ready.
Qed.

Lemma adam_step_loop_returns flag n w :
length (param_groups w) = n -> Forall (betas_ok flag) (param_groups w) ->
dense (mem w) -> adam_ready flag (state w) ->
(for_each (seq 0 n) step_at w).2 = Ok tt.
Proof.
intros Hn Hgs Hdense Hready.
destruct (for_each_total
        (fun s => length (param_groups s) = n /\ Forall (betas_ok flag) (param_groups s) /\
                  dense (mem s) /\ adam_ready flag (state s))
        (seq 0 n) step_at) with (s := w) as (w' & E & _); [|done|by rewrite E].
intros i s Hi (Hlen & Hall & Hd & Hr). apply elem_of_seq in Hi as [_ Hi]. cbn in Hi.
destruct (lookup_lt_is_Some_2 (param_groups s) i ltac:(lia)) as [g Hg].
pose proof (proj1 (Forall_lookup _ _) Hall i g Hg) as Hbg. cbn in Hbg.
assert (Hbg' : betas_ok flag (default_initial_lr g)).
{ unfold default_initial_lr. by destruct (initial_lr g). }
pose proof (step_at_groups i s g Hg) as Hgr.
pose proof (step_at_frame_adam i s) as Hfr.
unfold step_at in *. cbn -[step_group] in *. rewrite Hg in *. cbn -[step_group] in *.
match goal with |- context [step_group ?g' ?w'] =>
destruct (adam_step_group_returns flag g' w' Hbg' Hd Hr) as [Hok Hready'];
destruct (step_group g' w') as [w2 r] end.
cbn in Hok, Hready', Hgr, Hfr. subst r. cbn in Hgr, Hfr |- *.
exists w2. split; [done|]. split; [by rewrite Hgr, length_insert|].
split; [rewrite Hgr; by apply Forall_insert|]. split; [|done].
by eapply dense_frame.
Qed.
End AdamStepReturns.

(** X21.  When [DecoupledAdamW.step] has nothing to raise.  If the groups
    share the amsgrad flag and have [0 <= beta1 < 1] and [0 <= beta2 <= 1],
    every state entry has its 'max_exp_avg_sq' when the flag is set, and
    after the closure no parameter that requires gradients carries a sparse
    gradient, then the call returns the loss of the closure ([None] without
    closure): the step counters it passes to [adamw] are at least 1, so
    both bias corrections are accepted. *)
Theorem adam_step_returns (flag : bool) (closure : option closure_t)
    (w : DecoupledAdamW.world) :
  Forall (betas_ok flag) (DecoupledAdamW.param_groups w) ->
  adam_ready flag (DecoupledAdamW.state w) ->
  dense (DecoupledAdamW.mem (DecoupledAdamW.run_closure closure w).1) ->
  (DecoupledAdamW.step closure w).2 = (DecoupledAdamW.run_closure closure w).2 /\
  exists loss, (DecoupledAdamW.run_closure closure w).2 = Ok loss.
Proof.
  intros Hgs Hready Hdense. unfold DecoupledAdamW.step. cbn -[for_each].
  assert (exists w1 loss, DecoupledAdamW.run_closure closure w = (w1, Ok loss) /\
                          DecoupledAdamW.state w1 = DecoupledAdamW.state w /\
                          DecoupledAdamW.param_groups w1 = DecoupledAdamW.param_groups w)
    as (w1 & loss & E & Hst & Hgr).
  { unfold DecoupledAdamW.run_closure. destruct closure as [f|]; [|by eauto].
    destruct (f (DecoupledAdamW.mem w)). eauto. }
  rewrite E in *. cbn -[for_each] in *. rewrite <- Hst in Hready. rewrite <- Hgr in Hgs.
  pose proof (adam_step_loop_returns flag _ w1 eq_refl Hgs Hdense Hready) as Hloop.
  destruct (for_each _ DecoupledAdamW.step_at w1) as [w2 r]. cbn in Hloop. subst r.
  split; [done|]. by eauto.
Qed.

Lemma adam_step_returns_witness :
  (DecoupledAdamW.step None (adam_world one_gradient)).2 = Ok None.
Proof.
  apply (adam_step_returns false None (adam_world one_gradient)).
  - apply Forall_singleton. unfold betas_ok, adam_group. cbn. repeat split; lra.
  - intros H. discriminate H.
  - intros p gr. unfold adam_world, one_gradient. cbn.
    destruct (p =? 0)%nat; cbn; [|done]. by intros [= <-].
Defined.

(** ** One step of [DecoupledSGDW] on one parameter *)

Section SgdStepClosedForm.
Import DecoupledSGDW.

Lemma old_buffer_insert st p q :
old_buffer (<[q := state_entry q st]> st) p = old_buffer st p.
Proof.
unfold old_buffer, state_entry. destruct (decide (q = p)) as [->|Hne].
- rewrite lookup_insert_eq. by destruct (st !! p).
- by rewrite lookup_insert_ne.
Qed.

Lemma fold_each_cons {S A B} (x : A) xs (body : A -> B -> M S B) acc s :
fold_each (x :: xs) body acc s =
match body x acc s with
| (s1, Ok acc1) => fold_each xs body acc1 s1
| (s1, Raise e) => (s1, Raise e)
end.
Proof. reflexivity. Qed.

Lemma collect_some p acc w g :
grad (mem w p) = Some g ->
collect p acc w =
({| mem := mem w; state := <[p := state_entry p (state w)]> (state w) |},
 Ok {| params_with_grad := params_with_grad acc ++ [p];
       c_d_p_list := c_d_p_list acc ++ [values g];
       momentum_buffer_list := momentum_buffer_list acc ++ [old_buffer (state w) p] |}).
Proof.
intros Hg. unfold collect. cbn. rewrite Hg. cbn. do 3 f_equal.
unfold old_buffer, state_entry. by destruct (state w !! p) as [[[b|]]|].
Qed.

(** The lists a group's loop builds, as maps over the parameters that have
a gradient. *)
Lemma collect_spec ps : forall acc w,
exists w1,
fold_each ps collect acc w
= (w1, Ok {| params_with_grad :=
               params_with_grad acc ++ List.filter (has_grad (mem w)) ps;
             c_d_p_list :=
               c_d_p_list acc ++ map (grad_values (mem w))
                                   (List.filter (has_grad (mem w)) ps);
             momentum_buffer_list :=
               momentum_buffer_list acc ++ map (old_buffer (state w))
                                             (List.filter (has_grad (mem w)) ps) |}) /\
mem w1 = mem w /\ (forall q, old_buffer (state w1) q = old_buffer (state w) q).
Proof.
induction ps as [|p ps IH]; intros acc w.
- exists w. cbn. rewrite !app_nil_r. by destruct acc.
- rewrite fold_each_cons. cbn [List.filter].
destruct (grad (mem w p)) as [g|] eqn:Eg.
+ assert (Hh : has_grad (mem w) p = true) by (unfold has_grad; by rewrite Eg).
  assert (Hv : grad_values (mem w) p = values g) by (unfold grad_values; by rewrite Eg).
  rewrite Hh, (collect_some _ _ _ _ Eg). cbn [map]. rewrite Hv.
  match goal with |- context [fold_each ps collect ?acc' ?w'] =>
    destruct (IH acc' w') as (w1 & E & Hmem & Hbuf) end.
  cbn in E, Hmem, Hbuf. exists w1. rewrite E. split.
  * do 2 f_equal. rewrite <- !app_assoc. cbn [app]. do 3 f_equal.
    apply map_ext. intros q. apply old_buffer_insert.
  * split; [done|]. intros q. rewrite Hbuf. apply old_buffer_insert.
+ assert (Hh : has_grad (mem w) p = false) by (unfold has_grad; by rewrite Eg).
  rewrite Hh. unfold collect at 1. cbn -[fold_each]. rewrite Eg. cbn -[fold_each].
  apply IH.
Qed.

Lemma store_from_at before after ids : forall j w i p t,
NoDup ids -> ids !! i = Some p -> l_params after !! (j + i)%nat = Some t ->
data (mem (store_from j ids before after w) p) = t /\
grad (mem (store_from j ids before after w) p) = grad (mem w p).
Proof.
induction ids as [|x ids IH]; intros j w i p t Hnd Hi Ht; [done|].
apply NoDup_cons in Hnd as [Hx Hnd]. cbn [store_from]. destruct i as [|i].
- cbn in Hi. injection Hi as ->. rewrite Nat.add_0_r in Ht. rewrite Ht.
match goal with |- context [store_from (S j) ids before after ?w'] =>
  destruct (sgd_store_from_unlisted p before after ids (S j) w' Hx) as [-> _] end.
cbn. unfold set_data. by rewrite Nat.eqb_refl.
- cbn in Hi.
match goal with |- context [store_from (S j) ids before after ?w'] =>
  destruct (IH (S j) w' i p t Hnd Hi) as [Hd Hg] end.
{ by replace (S j + i)%nat with (j + S i)%nat by lia. }
split; [done|]. rewrite Hg. cbn.
destruct (l_params after !! j); [apply set_data_grad|done].
Qed.

Lemma attach_mem l : forall w, mem (for_each l attach w).1 = mem w.
Proof. induction l as [|pb l IH]; intros w; [done|]. cbn. by rewrite IH. Qed.

Lemma attach_at ids : forall (bufs : list (option tensor)) w i p b,
NoDup ids -> ids !! i = Some p -> bufs !! i = Some b ->
state (for_each (zip ids bufs) attach w).1 !! p = Some {| momentum_buffer := Some b |}.
Proof.
induction ids as [|x ids IH]; intros [|y bufs] w i p b Hnd Hi Hb; try done.
apply NoDup_cons in Hnd as [Hx Hnd]. destruct i as [|i]; cbn in Hi, Hb.
- simplify_eq. cbn [zip_with for_each]. cbn -[for_each].
match goal with |- context [for_each (zip ids bufs) attach ?w'] =>
  destruct (sgd_attach_unlisted p ids bufs w' Hx) as [_ ->] end.
cbn. apply lookup_insert_eq.
- cbn [zip_with for_each]. cbn -[for_each]. by eapply IH.
Qed.

Lemma sgd_step_group_at g w ilr p gr :
initial_lr g = Some ilr -> NoDup (params g) -> p ∈ params g ->
grad (mem w p) = Some gr ->
data (mem (step_group g w).1 p)
= add_ (decayed (weight_decay g) (lr g) ilr (data (mem w p)))
    (sgd_direction g (old_buffer (state w) p) (values gr)) (- lr g) /\
grad (mem (step_group g w).1 p) = grad (mem w p) /\
state (step_group g w).1 !! p
= Some {| momentum_buffer :=
            Some (sgd_new_buffer g (old_buffer (state w) p) (values gr)) |}.
Proof.
intros Hilr Hnd Hp Hg. unfold step_group. rewrite Hilr.
cbn -[sgdw fold_each store_from for_each].
destruct (collect_spec (params g)
          {| params_with_grad := []; c_d_p_list := []; momentum_buffer_list := [] |} w)
as (w1 & E & Hmem & Hbuf).
rewrite E. cbn -[sgdw fold_each store_from for_each].
set (ids := List.filter (has_grad (mem w)) (params g)).
assert (Hids : NoDup ids).
{ unfold ids. rewrite NoDup_ListNoDup in *. by apply List.NoDup_filter. }
assert (Hin : p ∈ ids).
{ unfold ids. rewrite list_elem_of_In, filter_In, <- list_elem_of_In.
split; [done|]. unfold has_grad. by rewrite Hg. }
apply list_elem_of_lookup in Hin as [i Hi].
set (before := {| l_params := map (fun q => data (mem w1 q)) ids;
                l_momentum_buffer_list := map (old_buffer (state w)) ids |}).
assert (Hpi : l_params before !! i = Some (data (mem w p))).
{ cbn. change (map ?f ?l) with (f <$> l). by rewrite list_lookup_fmap, Hi, Hmem. }
assert (Hbi : l_momentum_buffer_list before !! i = Some (old_buffer (state w) p)).
{ cbn. change (map ?f ?l) with (f <$> l). by rewrite list_lookup_fmap, Hi. }
assert (Hgi : map (grad_values (mem w)) ids !! i = Some (values gr)).
{ change (map ?f ?l) with (f <$> l). rewrite list_lookup_fmap, Hi. cbn.
unfold grad_values. by rewrite Hg. }
destruct (sgdw_returns (map (grad_values (mem w)) ids) (weight_decay g) (momentum g)
          (lr g) ilr (dampening g) (nesterov g) before) as [a' Ea].
{ cbn. by rewrite !length_map. }
{ cbn. by rewrite !length_map. }
rewrite Ea. cbn -[sgdw fold_each store_from for_each].
destruct (sgdw_position _ _ _ _ _ _ _ _ _ i _ _ Ea Hpi Hgi) as [Hzero Hmom].
assert (Hres : l_params a' !! i
             = Some (add_ (decayed (weight_decay g) (lr g) ilr (data (mem w p)))
                       (sgd_direction g (old_buffer (state w) p) (values gr)) (- lr g)) /\
             l_momentum_buffer_list a' !! i
             = Some (sgd_new_buffer g (old_buffer (state w) p) (values gr))).
{ unfold sgd_direction, sgd_new_buffer.
destruct (Req_dec_T (momentum g) 0) as [Hm|Hm].
- destruct (Hzero Hm) as [H1 H2]. split; [done|]. by rewrite H2.
- destruct (Hmom Hm) as (b & Hb & H2 & H1). rewrite Hbi in Hb. injection Hb as <-.
  by split. }
destruct Hres as [Hpa Hba].
rewrite attach_mem.
destruct (store_from_at before a' ids 0 w1 i p _ Hids Hi Hpa) as [Hd Hgr].
split; [done|]. split; [by rewrite Hgr, Hmem|].
by eapply attach_at.
Qed.
End SgdStepClosedForm.

(** X22.  One call of [DecoupledSGDW.step], seen from a parameter that has
    a gradient after the closure and is listed once, in one group [g] (the
    groups before [g] having their 'initial_lr').  Its value becomes the
    decayed value moved by [- lr] along the direction of [sgdw], computed
    from the gradient and the buffer its state held, and its state holds
    the buffer [sgdw] left: the old one without momentum, a copy of the
    gradient at the first update with momentum, and
    [momentum * buf + (1 - dampening) * grad] afterwards. *)
Theorem sgd_step_closed_form (groups1 : list DecoupledSGDW.group) (g : DecoupledSGDW.group)
    (groups2 : list DecoupledSGDW.group) (closure : option closure_t)
    (w : DecoupledSGDW.world) (p : nat) (gr : gradient) (ilr : R) :
  Forall (fun g' => is_Some (DecoupledSGDW.initial_lr g')) groups1 ->
  Forall (fun g' => p ∉ DecoupledSGDW.params g') (groups1 ++ groups2) ->
  DecoupledSGDW.initial_lr g = Some ilr ->
  NoDup (DecoupledSGDW.params g) -> p ∈ DecoupledSGDW.params g ->
  grad (DecoupledSGDW.mem (DecoupledSGDW.run_closure closure w).1 p) = Some gr ->
  let before := data (DecoupledSGDW.mem (DecoupledSGDW.run_closure closure w).1 p) in
  let old := old_buffer (DecoupledSGDW.state w) p in
  let w' := (DecoupledSGDW.step (groups1 ++ g :: groups2) closure w).1 in
  data (DecoupledSGDW.mem w' p)
    = add_ (decayed (DecoupledSGDW.weight_decay g) (DecoupledSGDW.lr g) ilr before)
        (sgd_direction g old (values gr)) (- DecoupledSGDW.lr g) /\
  DecoupledSGDW.state w' !! p
    = Some {| DecoupledSGDW.momentum_buffer := Some (sgd_new_buffer g old (values gr)) |}.
Proof.
  intros Hilr1 Hun Hilr Hnd Hp Hg before old w'. subst before old w'.
  apply Forall_app in Hun as [Hun1 Hun2].
  unfold DecoupledSGDW.step. cbn -[for_each].
  assert (exists w1 loss, DecoupledSGDW.run_closure closure w = (w1, Ok loss) /\
                          DecoupledSGDW.state w1 = DecoupledSGDW.state w)
    as (w1 & loss & E & Hst).
  { unfold DecoupledSGDW.run_closure. destruct closure as [f|]; [|by eauto].
    destruct (f (DecoupledSGDW.mem w)). eauto. }
  rewrite E in *. cbn -[for_each] in *. rewrite for_each_app.
  pose proof (proj1 (step_groups_outcome groups1 w1) Hilr1) as Hok1.
  destruct (sgd_step_groups_unlisted p groups1 w1 Hun1) as [Hm1 Hs1].
  destruct (for_each groups1 DecoupledSGDW.step_group w1) as [w2 r1].
  cbn in Hok1, Hm1, Hs1. subst r1. cbn [for_each]. cbn -[for_each DecoupledSGDW.step_group].
  pose proof (step_group_returns g w2 ilr Hilr) as Hok.
  destruct (sgd_step_group_at g w2 ilr p gr Hilr Hnd Hp) as (Hd & _ & Hs).
  { by rewrite Hm1. }
  destruct (DecoupledSGDW.step_group g w2) as [w3 r]. cbn in Hok, Hd, Hs. subst r.
  destruct (sgd_step_groups_unlisted p groups2 w3 Hun2) as [Hm2 Hs2].
  assert (Hold : old_buffer (DecoupledSGDW.state w2) p = old_buffer (DecoupledSGDW.state w) p).
  { unfold old_buffer. by rewrite Hs1, Hst. }
  rewrite Hold, Hm1 in Hd. rewrite Hold in Hs.
  destruct (for_each groups2 DecoupledSGDW.step_group w3) as [w4 [[]|e]];
    cbn in Hm2, Hs2 |- *; by rewrite Hm2, Hs2.
Qed.

(** A first step with momentum 1/2 on the parameter [4] with gradient [1]:
    the state holds a copy of the gradient. *)
Lemma sgd_step_closed_form_witness :
  DecoupledSGDW.state
    (DecoupledSGDW.step
       [{| DecoupledSGDW.params := [0%nat]; DecoupledSGDW.lr := 1;
           DecoupledSGDW.momentum := / 2; DecoupledSGDW.dampening := / 2;
           DecoupledSGDW.weight_decay := 0; DecoupledSGDW.nesterov := false;
           DecoupledSGDW.initial_lr := Some 1 |}] None sgd_plain_world).1 !! 0%nat
  = Some {| DecoupledSGDW.momentum_buffer := Some (Some [1]) |}.
Proof.
  assert (Hnd : NoDup [0%nat]) by apply NoDup_singleton.
  assert (Hin : 0%nat ∈ [0%nat]) by (by apply list_elem_of_singleton).
  destruct (sgd_step_closed_form []
              {| DecoupledSGDW.params := [0%nat]; DecoupledSGDW.lr := 1;
                 DecoupledSGDW.momentum := / 2; DecoupledSGDW.dampening := / 2;
                 DecoupledSGDW.weight_decay := 0; DecoupledSGDW.nesterov := false;
                 DecoupledSGDW.initial_lr := Some 1 |} [] None sgd_plain_world 0
              {| is_sparse := false; values := [1] |} 1
              (Forall_nil_2 _) (Forall_nil_2 _) eq_refl Hnd Hin eq_refl) as [_ Hs].
  etrans; [exact Hs|]. unfold sgd_new_buffer. cbn.
  destruct (Req_dec_T (/ 2) 0); [lra|]. reflexivity.
Defined.

(** ** One step of [DecoupledAdamW] on one parameter *)

Section AdamStepClosedForm.
Import DecoupledAdamW.

Lemma collect_skip flag p acc w :
adam_collects (mem w) p = false -> collect flag p acc w = (w, Ok acc).
Proof.
unfold adam_collects, collect. intros H. cbn.
destruct (grad (mem w p)) as [g|]; cbn; [|done]. by rewrite H.
Qed.

Lemma collect_ok_inv flag p acc w w1 c :
adam_collects (mem w) p = true -> collect flag p acc w = (w1, Ok c) ->
let s := adam_entry flag w p in
mem w1 = mem w /\ param_groups w1 = param_groups w /\
state w1 !! p = Some (bumped s) /\ (forall q, q <> p -> state w1 !! q = state w !! q) /\
params_with_grad c = params_with_grad acc ++ [p] /\
c_grads c = c_grads acc ++ [grad_values (mem w) p] /\
exp_avgs c = exp_avgs acc ++ [exp_avg s] /\
exp_avg_sqs c = exp_avg_sqs acc ++ [exp_avg_sq s] /\
c_state_steps c = c_state_steps acc ++ [S (steps s)] /\
max_exp_avg_sqs c =
max_exp_avg_sqs acc ++ (if flag then [default [] (max_exp_avg_sq s)] else []).
Proof.
unfold adam_collects, collect, state_entry, set_state, adam_entry, grad_values. intros Hc H.
cbn in H. destruct (grad (mem w p)) as [g|] eqn:Eg; [|done]. rewrite Hc in H.
cbn in H. destruct (is_sparse g); [done|]. cbn in H.
destruct (state w !! p) as [s|] eqn:Es; cbn in H |- *.
- destruct flag; cbn in H.
+ destruct (max_exp_avg_sq s) as [m|] eqn:Em; cbn in H; [|done]. simplify_eq. cbn.
  rewrite lookup_insert_eq, ?Em.
  repeat split; try done; try (intros q Hq; by rewrite ?lookup_insert_ne).
  unfold bumped. by rewrite Em.
+ simplify_eq. cbn. rewrite lookup_insert_eq, app_nil_r.
  repeat split; try done; try (intros q Hq; by rewrite ?lookup_insert_ne).
- destruct flag; cbn in H; simplify_eq; cbn; rewrite lookup_insert_eq, ?app_nil_r;
  repeat split; try done; try (intros q Hq; by rewrite ?lookup_insert_ne).
Qed.

Lemma adam_entry_same flag w w' q :
mem w' q = mem w q -> state w' !! q = state w !! q ->
adam_entry flag w' q = adam_entry flag w q.
Proof. unfold adam_entry. by intros -> ->. Qed.

(** The lists a group's loop builds when it returns, as maps over the
parameters it collects, and the state it leaves. *)
Lemma adam_collect_spec flag ps : forall acc w w1 c,
NoDup ps -> fold_each ps (collect flag) acc w = (w1, Ok c) ->
let ids := List.filter (adam_collects (mem w)) ps in
mem w1 = mem w /\
(forall q, q ∉ ps -> state w1 !! q = state w !! q) /\
(forall q, q ∈ ids -> state w1 !! q = Some (bumped (adam_entry flag w q))) /\
params_with_grad c = params_with_grad acc ++ ids /\
c_grads c = c_grads acc ++ map (grad_values (mem w)) ids /\
exp_avgs c = exp_avgs acc ++ map (fun q => exp_avg (adam_entry flag w q)) ids /\
exp_avg_sqs c = exp_avg_sqs acc ++ map (fun q => exp_avg_sq (adam_entry flag w q)) ids /\
c_state_steps c = c_state_steps acc ++ map (fun q => S (steps (adam_entry flag w q))) ids /\
max_exp_avg_sqs c =
max_exp_avg_sqs acc ++
(if flag then map (fun q => default [] (max_exp_avg_sq (adam_entry flag w q))) ids
 else []).
Proof.
induction ps as [|p ps IH]; intros acc w w1 c Hnd H.
- cbn in H. simplify_eq. cbn. rewrite !app_nil_r. repeat split; try done.
+ intros q Hq. by apply elem_of_nil in Hq.
+ by destruct flag; rewrite ?app_nil_r.
- apply NoDup_cons in Hnd as [Hp Hnd]. rewrite fold_each_cons in H. cbn [List.filter].
destruct (adam_collects (mem w) p) eqn:Hc.
+ destruct (collect flag p acc w) as [wp [cp|e]] eqn:Ep; [|done].
  destruct (collect_ok_inv flag p acc w wp cp Hc Ep)
    as (Hm & _ & Hsp & Hso & Hi & Hg & He & Hs & Hst & Hmx).
  destruct (IH cp wp w1 c Hnd H) as (Hm1 & Ho1 & Hi1 & Hids & Hg1 & He1 & Hs1 & Hst1 & Hmx1).
  rewrite Hm in *.
  assert (Hsame : forall q, q ∈ List.filter (adam_collects (mem w)) ps ->
            adam_entry flag wp q = adam_entry flag w q).
  { intros q Hq. apply adam_entry_same; [by rewrite ?Hm|]. apply Hso. intros ->.
    apply list_elem_of_In, filter_In in Hq as [Hq _]. by apply list_elem_of_In in Hq. }
  assert (Hmap : forall {B} (f : pstate -> B),
            map (fun q => f (adam_entry flag wp q)) (List.filter (adam_collects (mem w)) ps)
            = map (fun q => f (adam_entry flag w q))
                (List.filter (adam_collects (mem w)) ps)).
  { intros B f. apply map_ext_in. intros q Hq. f_equal. apply Hsame.
    by apply list_elem_of_In. }
  split; [done|]. split; [|split].
  * intros q Hq. apply not_elem_of_cons in Hq as [Hne Hq]. rewrite Ho1 by done.
    by apply Hso.
  * intros q Hq. apply elem_of_cons in Hq as [->|Hq].
    -- by rewrite Ho1.
    -- rewrite Hi1 by done. by rewrite Hsame.
  * rewrite Hids, Hg1, He1, Hs1, Hst1, Hmx1, Hi, Hg, He, Hs, Hst, Hmx.
    rewrite !Hmap, <- !app_assoc. cbn [map app].
    pose proof (Hmap _ (fun s => S (steps s))) as Hmap1.
    pose proof (Hmap _ (fun s => default [] (max_exp_avg_sq s))) as Hmap2.
    cbn beta in Hmap1, Hmap2. rewrite ?Hmap1, ?Hmap2.
    repeat split; try done. by destruct flag.
+ rewrite (collect_skip _ _ _ _ Hc) in H.
  destruct (IH acc w w1 c Hnd H) as (Hm1 & Ho1 & Hrest).
  split; [done|]. split; [|done].
  intros q Hq. apply not_elem_of_cons in Hq as [_ Hq]. by apply Ho1.
Qed.

Lemma adam_store_from_at flag after ids : forall j w i p,
NoDup ids -> ids !! i = Some p ->
state (store_from flag j ids after w) !! p
= store_state flag (j + i) after <$> state w !! p /\
data (mem (store_from flag j ids after w) p)
= default (data (mem w p)) (l_params after !! (j + i)%nat) /\
grad (mem (store_from flag j ids after w) p) = grad (mem w p).
Proof.
induction ids as [|x ids IH]; intros j w i p Hnd Hi; [done|].
apply NoDup_cons in Hnd as [Hx Hnd]. cbn [store_from]. destruct i as [|i].
- cbn in Hi. injection Hi as ->. rewrite Nat.add_0_r.
match goal with |- context [store_from flag (S j) ids after ?w'] =>
  destruct (adam_store_from_unlisted p flag after ids (S j) w' Hx) as [-> ->] end.
cbn. rewrite lookup_alter_eq. split; [done|].
destruct (l_params after !! j); [|done]. unfold set_data. by rewrite Nat.eqb_refl.
- cbn in Hi. assert (Hne : x <> p).
{ intros ->. apply Hx. by eapply list_elem_of_lookup_2. }
match goal with |- context [store_from flag (S j) ids after ?w'] =>
  destruct (IH (S j) w' i p Hnd Hi) as (Hs & Hd & Hg) end.
replace (S j + i)%nat with (j + S i)%nat in * by lia.
rewrite Hs, Hd, Hg. cbn. rewrite lookup_alter_ne by done. split; [done|].
destruct (l_params after !! j); [|done].
rewrite set_data_grad. unfold set_data.
destruct (Nat.eqb_spec p x) as [->|_]; done.
Qed.

Lemma adam_step_group_at flag g w p gr :
betas_ok flag g -> dense (mem w) -> adam_ready flag (state w) ->
NoDup (params g) -> p ∈ params g ->
grad (mem w p) = Some gr -> requires_grad (mem w p) = true ->
let s0 := adam_entry flag w p in
state (step_group g w).1 !! p = Some (adam_state_after g s0 (values gr)) /\
data (mem (step_group g w).1 p)
= adam_value_after g (default (lr g) (initial_lr g)) s0 (data (mem w p)) (values gr) /\
grad (mem (step_group g w).1 p) = grad (mem w p).
Proof.
intros (Hflag & Hb1 & Hb2) Hdense Hready Hnd Hp Hg Hrq s0.
unfold adam_state_after, adam_value_after, adam_state_after, step_group.
destruct (betas g) as [beta1 beta2]. cbn [fst snd] in Hb1, Hb2 |- *.
cbn -[adamw fold_each store_from]. rewrite Hflag.
pose proof (collect_returns flag w (params g) Hdense Hready) as Hc.
destruct (fold_each _ _ _ w) as [w1 [c|e]] eqn:Ec; [|done].
destruct Hc as (Hmem & Hst & (Hlg & Hle & Hls & Hlsteps & Hlmax) & Hall).
destruct (adam_collect_spec flag (params g) no_lists w w1 c Hnd Ec)
as (_ & _ & Hin & Hids & Hgs & Hes & Hss & Hsteps & Hmax).
cbn [no_lists params_with_grad c_grads exp_avgs exp_avg_sqs c_state_steps max_exp_avg_sqs app]
in Hids, Hgs, Hes, Hss, Hsteps, Hmax.
set (ids := List.filter (adam_collects (mem w)) (params g)) in *.
assert (Hndi : NoDup ids).
{ unfold ids. rewrite NoDup_ListNoDup in *. by apply List.NoDup_filter. }
assert (Hpi : p ∈ ids).
{ unfold ids. rewrite list_elem_of_In, filter_In, <- list_elem_of_In.
split; [done|]. unfold adam_collects. by rewrite Hg. }
specialize (Hin p Hpi). apply list_elem_of_lookup in Hpi as [i Hi].
cbn -[adamw fold_each store_from].
match goal with |- context [adamw ?a1 ?a2 ?a3 ?a4 ?a5 ?a6 ?a7 ?a8 ?a9 ?a10] =>
assert (exists a', adamw a1 a2 a3 a4 a5 a6 a7 a8 a9 a10 = (a', Ok tt)) as [a' E];
[|pose proof (fun q gq m v st => adamw_position a1 a2 a3 a4 a5 a6 a7 a8 a9 a10 a' i q gq m v st E)
    as Hpos] end.
{ apply adamw_returns; cbn; rewrite ?length_map; try done.
eapply Forall_impl; [exact Hall|]. intros step Hstep. by apply bias_corrections_ok. }
rewrite E. cbn -[store_from].
specialize (Hpos (data (mem w p)) (values gr) (exp_avg s0) (exp_avg_sq s0) (S (steps s0))).
cbn [l_params l_exp_avgs l_exp_avg_sqs l_max_exp_avg_sqs] in Hpos.
rewrite Hids, Hgs, Hes, Hss, Hsteps, Hmax, Hmem in Hpos.
change (map ?f ?l) with (f <$> l) in Hpos. rewrite !list_lookup_fmap, Hi in Hpos.
unfold grad_values in Hpos. cbn [fmap option_fmap option_map] in Hpos. cbn beta in Hpos.
rewrite Hg in Hpos.
destruct Hpos as (Hm' & Hv' & _ & _ & Hoff & Hon); try done.
destruct (adam_store_from_at flag a' (params_with_grad c) 0 w1 i p) as (Hs & Hd & Hgr).
{ by rewrite Hids. } { by rewrite Hids. }
rewrite Hs, Hd, Hgr, Hin, Hmem. cbn [Nat.add fmap option_fmap option_map].
unfold store_state, bumped. cbn [steps exp_avg exp_avg_sq max_exp_avg_sq].
rewrite Hm', Hv'. cbn [default].
destruct flag.
- destruct (Hon eq_refl) as (mx & Hmx & Hmx' & Hp').
cbn iota in Hmx. rewrite list_lookup_fmap, Hi in Hmx. cbn in Hmx.
injection Hmx as <-. by rewrite Hmx', Hp'.
- destruct (Hoff eq_refl) as (_ & Hp'). by rewrite Hp'.
Qed.
End AdamStepClosedForm.
Section AdamStepClosedFormWorld.
Import DecoupledAdamW.

Lemma adam_step_at_returns flag i w g :
param_groups w !! i = Some g -> betas_ok flag g ->
dense (mem w) -> adam_ready flag (state w) ->
exists w', step_at i w = (w', Ok tt) /\ dense (mem w') /\ adam_ready flag (state w') /\
param_groups w' = <[i := default_initial_lr g]> (param_groups w).
Proof.
intros Hg Hbg Hd Hr.
assert (Hbg' : betas_ok flag (default_initial_lr g)).
{ unfold default_initial_lr. by destruct (initial_lr g). }
pose proof (step_at_groups i w g Hg) as Hgr.
pose proof (step_at_frame_adam i w) as Hfr.
unfold step_at in *. cbn -[step_group] in *. rewrite Hg in *. cbn -[step_group] in *.
match goal with |- context [step_group ?g' ?w'] =>
destruct (adam_step_group_returns flag g' w' Hbg' Hd Hr) as [Hok Hready'];
destruct (step_group g' w') as [w2 r] end.
cbn in Hok, Hready', Hgr, Hfr. subst r. cbn in Hgr, Hfr |- *.
exists w2. split; [done|]. split; [by eapply dense_frame|]. by split.
Qed.

(** The groups before position [j] return when their hyperparameters allow
it, and leave the later groups as they were. *)
Lemma adam_prefix_returns flag j : forall w,
(j <= length (param_groups w))%nat ->
(forall k g, (k < j)%nat -> param_groups w !! k = Some g -> betas_ok flag g) ->
dense (mem w) -> adam_ready flag (state w) ->
exists w', for_each (seq 0 j) step_at w = (w', Ok tt) /\
dense (mem w') /\ adam_ready flag (state w') /\
forall k, (j <= k)%nat -> param_groups w' !! k = param_groups w !! k.
Proof.
induction j as [|j IH]; intros w Hj Hgs Hd Hr.
- exists w. by repeat split.
- assert (Hgs' : forall k g, (k < j)%nat -> param_groups w !! k = Some g -> betas_ok flag g).
{ intros k g Hk. apply Hgs. lia. }
destruct (IH w ltac:(lia) Hgs' Hd Hr) as (w1 & E & Hd1 & Hr1 & Hk1).
rewrite seq_S, for_each_app, E. cbn -[step_at].
destruct (lookup_lt_is_Some_2 (param_groups w) j ltac:(lia)) as [g Hg].
assert (Hg1 : param_groups w1 !! j = Some g) by (by rewrite Hk1).
assert (Hbg : betas_ok flag g) by (apply (Hgs j g); [lia|done]).
destruct (adam_step_at_returns flag j w1 g Hg1 Hbg Hd1 Hr1) as (w2 & E2 & Hd2 & Hr2 & Hgr).
rewrite E2. exists w2. repeat split; try done.
intros k Hk. rewrite Hgr, list_lookup_insert_ne by lia. apply Hk1. lia.
Qed.

Lemma default_initial_lr_params g : params (default_initial_lr g) = params g.
Proof. unfold default_initial_lr. by destruct (initial_lr g). Qed.

(** Groups that do not list [p] leave it alone, in every outcome. *)
Lemma adam_step_at_unlisted p i w :
(forall g, param_groups w !! i = Some g -> p ∉ params g) ->
mem (step_at i w).1 p = mem w p /\ state (step_at i w).1 !! p = state w !! p.
Proof.
intros Hg. unfold step_at. cbn -[step_group].
destruct (param_groups w !! i) as [g|] eqn:Eg; cbn -[step_group]; [|done].
match goal with |- context [step_group ?g' ?w'] =>
destruct (adam_step_group_unlisted p g' w') as [Hm Hs];
  [rewrite default_initial_lr_params; by apply Hg|];
destruct (step_group g' w') as [w2 r] end.
cbn in Hm, Hs. by destruct r as [[]|e].
Qed.

Lemma adam_step_at_params i w k g' :
param_groups (step_at i w).1 !! k = Some g' ->
exists g, param_groups w !! k = Some g /\ params g' = params g.
Proof.
destruct (param_groups w !! i) as [g|] eqn:Eg.
- rewrite (step_at_groups i w g Eg). destruct (decide (i = k)) as [->|Hne].
+ rewrite list_lookup_insert_eq by (by eapply lookup_lt_Some). intros [= <-].
  exists g. split; [done|]. apply default_initial_lr_params.
+ rewrite list_lookup_insert_ne by done. by eauto.
- unfold step_at. cbn -[step_group]. rewrite Eg. cbn. by eauto.
Qed.

Lemma adam_loop_unlisted p l : forall w,
(forall k g, k ∈ l -> param_groups w !! k = Some g -> p ∉ params g) ->
mem (for_each l step_at w).1 p = mem w p /\
state (for_each l step_at w).1 !! p = state w !! p.
Proof.
induction l as [|i l IH]; intros w Hl; [done|].
cbn -[step_at].
destruct (adam_step_at_unlisted p i w) as [Hm Hs].
{ intros g. apply Hl. by left. }
pose proof (adam_step_at_params i w) as Hpar.
destruct (step_at i w) as [w1 [[]|e]]; cbn in Hm, Hs, Hpar |- *; [|done].
rewrite <- Hm, <- Hs. apply IH. intros k g' Hk Hg'.
destruct (Hpar k g' Hg') as (g & Hg & ->). eapply Hl; [by right|done].
Qed.

Lemma run_closure_spec closure w :
exists w1 loss, run_closure closure w = (w1, Ok loss) /\
state w1 = state w /\ param_groups w1 = param_groups w.
Proof.
unfold run_closure. destruct closure as [f|]; [|by eauto].
destruct (f (mem w)). by eauto.
Qed.
End AdamStepClosedFormWorld.

(** X23. One step of DecoupledAdamW on a parameter that has a dense gradient,
    requires one, and is listed once, in the group [g].  When the groups up
    to [g] have their amsgrad flag in common and 0 <= beta1 < 1,
    0 <= beta2 <= 1, no parameter that requires a gradient has a sparse one
    after the closure, and with amsgrad every state entry holds a running
    maximum, the step leaves for the parameter the state entry
    [adam_state_after] (step count plus one, the two moving averages, the
    running maximum with amsgrad) and the value [adam_value_after], both
    computed from the entry the state held (zeros when it held none) and
    the value after the closure; the decay uses the group's 'initial_lr',
    and its 'lr' when the key is absent.  The groups after [g] do not
    change either, whether they return or raise. *)
Theorem adam_step_closed_form (flag : bool) (groups1 : list DecoupledAdamW.group)
    (g : DecoupledAdamW.group) (groups2 : list DecoupledAdamW.group)
    (closure : option closure_t) (w : DecoupledAdamW.world) (p : nat) (gr : gradient) :
  DecoupledAdamW.param_groups w = groups1 ++ g :: groups2 ->
  Forall (betas_ok flag) (groups1 ++ [g]) ->
  Forall (fun g' => p ∉ DecoupledAdamW.params g') (groups1 ++ groups2) ->
  NoDup (DecoupledAdamW.params g) -> p ∈ DecoupledAdamW.params g ->
  dense (DecoupledAdamW.mem (DecoupledAdamW.run_closure closure w).1) ->
  adam_ready flag (DecoupledAdamW.state w) ->
  grad (DecoupledAdamW.mem (DecoupledAdamW.run_closure closure w).1 p) = Some gr ->
  requires_grad (DecoupledAdamW.mem (DecoupledAdamW.run_closure closure w).1 p) = true ->
  let w1 := (DecoupledAdamW.run_closure closure w).1 in
  let s0 := adam_entry flag w1 p in
  let w' := (DecoupledAdamW.step closure w).1 in
  DecoupledAdamW.state w' !! p = Some (adam_state_after g s0 (values gr)) /\
  data (DecoupledAdamW.mem w' p)
    = adam_value_after g (default (DecoupledAdamW.lr g) (DecoupledAdamW.initial_lr g)) s0
        (data (DecoupledAdamW.mem w1 p)) (values gr).
Proof.
  intros Hgs Hok Hun Hnd Hp Hd Hr Hg Hrq w1 s0 w'. subst w1 s0 w'.
  apply Forall_app in Hun as [Hun1 Hun2].
  unfold DecoupledAdamW.step. cbn -[for_each DecoupledAdamW.step_at].
  destruct (run_closure_spec closure w) as (w1 & loss & E & Hst & Hpg).
  rewrite E in *. cbn -[for_each DecoupledAdamW.step_at] in *.
  rewrite Hpg, Hgs. rewrite <- Hst in Hr. rewrite Hgs in Hpg.
  set (j := length groups1).
  assert (Hseq : seq 0 (length (groups1 ++ g :: groups2))
                 = seq 0 j ++ j :: seq (S j) (length groups2)).
  { rewrite length_app. cbn [length]. fold j.
    by rewrite seq_app, Nat.add_0_l. }
  rewrite Hseq, for_each_app.
  destruct (adam_prefix_returns flag j w1) as (w2 & E2 & Hd2 & Hr2 & Hk2); [| |done..|].
  { rewrite Hpg, length_app. unfold j. lia. }
  { intros k g' Hk Hg'. rewrite Hpg, lookup_app_l in Hg' by done.
    apply (proj1 (Forall_lookup _ _) Hok k g'). by rewrite lookup_app_l. }
  destruct (adam_loop_unlisted p (seq 0 j) w1) as [Hm2 Hs2].
  { intros k g' Hk Hg'. apply elem_of_seq in Hk as [_ Hk]. cbn in Hk.
    rewrite Hpg, lookup_app_l in Hg' by done.
    by apply (proj1 (Forall_lookup _ _) Hun1 k g'). }
  rewrite E2 in *. cbn [fst] in Hm2, Hs2. cbn [for_each]. cbn -[for_each DecoupledAdamW.step_at].
  assert (Hgj : DecoupledAdamW.param_groups w2 !! j = Some g).
  { rewrite Hk2, Hpg by done. by rewrite list_lookup_middle. }
  assert (Hbg : betas_ok flag (DecoupledAdamW.default_initial_lr g)).
  { assert (betas_ok flag g).
    { apply (proj1 (Forall_lookup _ _) Hok j g). by rewrite list_lookup_middle. }
    unfold DecoupledAdamW.default_initial_lr. by destruct (DecoupledAdamW.initial_lr g). }
  assert (Hat : forall w3 r, DecoupledAdamW.step_at j w2 = (w3, r) ->
            DecoupledAdamW.state w3 !! p
              = Some (adam_state_after g (adam_entry flag w1 p) (values gr)) /\
            data (DecoupledAdamW.mem w3 p)
              = adam_value_after g
                  (default (DecoupledAdamW.lr g) (DecoupledAdamW.initial_lr g))
                  (adam_entry flag w1 p) (data (DecoupledAdamW.mem w1 p)) (values gr) /\
            forall k, (j < k)%nat ->
              DecoupledAdamW.param_groups w3 !! k = DecoupledAdamW.param_groups w2 !! k).
  { intros w3 r E3.
    pose proof (step_at_groups j w2 g Hgj) as Hgr. rewrite E3 in Hgr. cbn in Hgr.
    unfold DecoupledAdamW.step_at in E3. cbn -[DecoupledAdamW.step_group] in E3.
    rewrite Hgj in E3. cbn -[DecoupledAdamW.step_group] in E3.
    match type of E3 with context [DecoupledAdamW.step_group ?g' ?w0] =>
      destruct (adam_step_group_at flag g' w0 p gr Hbg Hd2 Hr2) as (Hs3 & Hd3 & _);
        [by rewrite default_initial_lr_params..|by cbn; rewrite Hm2|by cbn; rewrite Hm2|];
      destruct (DecoupledAdamW.step_group g' w0) as [w3' r3] end.
    cbn in Hs3, Hd3.
    assert (w3' = w3) as -> by (by destruct r3 as [[]|e]; simplify_eq).
    assert (Hentry : adam_entry flag
              {| DecoupledAdamW.mem := DecoupledAdamW.mem w2;
                 DecoupledAdamW.param_groups :=
                   <[j := DecoupledAdamW.default_initial_lr g]> (DecoupledAdamW.param_groups w2);
                 DecoupledAdamW.state := DecoupledAdamW.state w2 |} p
              = adam_entry flag w1 p).
    { by apply adam_entry_same. }
    rewrite Hentry, Hm2 in *.
    assert (Hsa : forall s t, adam_state_after (DecoupledAdamW.default_initial_lr g) s t
                              = adam_state_after g s t).
    { intros s t. unfold DecoupledAdamW.default_initial_lr.
      by destruct (DecoupledAdamW.initial_lr g). }
    assert (Hva : forall s t u,
              adam_value_after (DecoupledAdamW.default_initial_lr g)
                (default (DecoupledAdamW.lr (DecoupledAdamW.default_initial_lr g))
                   (DecoupledAdamW.initial_lr (DecoupledAdamW.default_initial_lr g))) s t u
              = adam_value_after g
                  (default (DecoupledAdamW.lr g) (DecoupledAdamW.initial_lr g)) s t u).
    { intros s t u. unfold DecoupledAdamW.default_initial_lr.
      destruct (DecoupledAdamW.initial_lr g) eqn:Ei; [by rewrite Ei|]. done. }
    rewrite Hsa in Hs3. rewrite Hva in Hd3. repeat split; try done.
    intros k Hk. rewrite Hgr, list_lookup_insert_ne by lia. done. }
  destruct (DecoupledAdamW.step_at j w2) as [w3 r3].
  destruct (Hat w3 r3 eq_refl) as (Hs3 & Hd3 & Hk3).
  destruct (adam_loop_unlisted p (seq (S j) (length groups2)) w3) as [Hm4 Hs4].
  { intros k g' Hk Hg'. apply elem_of_seq in Hk as [Hk Hk'].
    rewrite Hk3, Hk2, Hpg in Hg' by lia.
    apply (proj1 (Forall_lookup _ _) Hun2 (k - S j)%nat g').
    rewrite <- Hg'. replace k with (j + S (k - S j))%nat at 2 by lia.
    unfold j. by rewrite lookup_app_r, Nat.add_comm, Nat.add_sub by lia. }
  destruct r3 as [[]|e]; cbn -[for_each DecoupledAdamW.step_at].
  - destruct (for_each _ _ w3) as [w4 [[]|e]]; cbn in Hm4, Hs4 |- *; by rewrite Hm4, Hs4.
  - done.
Qed.

(** The first step on [adam_world one_gradient]: the state of parameter 0,
    which had no entry, counts one step. *)
Lemma adam_step_closed_form_witness :
  DecoupledAdamW.steps <$>
    DecoupledAdamW.state (DecoupledAdamW.step None (adam_world one_gradient)).1 !! 0%nat
  = Some 1%nat.
Proof.
  assert (Hok : Forall (betas_ok false) ([] ++ [adam_group])).
  { apply Forall_singleton. unfold betas_ok, adam_group. cbn. repeat split; lra. }
  assert (Hnd : NoDup (DecoupledAdamW.params adam_group)).
  { apply NoDup_cons. split; [|apply NoDup_singleton].
    rewrite list_elem_of_singleton. discriminate. }
  assert (Hin : 0%nat ∈ DecoupledAdamW.params adam_group) by (by left).
  assert (Hd : dense (DecoupledAdamW.mem
                        (DecoupledAdamW.run_closure None (adam_world one_gradient)).1)).
  { intros p gr. unfold adam_world, one_gradient. cbn.
    destruct (p =? 0)%nat; cbn; [|done]. by intros [= <-]. }
  assert (Hr : adam_ready false (DecoupledAdamW.state (adam_world one_gradient))).
  { intros H. discriminate H. }
  destruct (adam_step_closed_form false [] adam_group [] None (adam_world one_gradient) 0
              {| is_sparse := false; values := [1] |}
              eq_refl Hok (Forall_nil_2 _) Hnd Hin Hd Hr eq_refl eq_refl) as [Hs _].
  etrans; [exact (f_equal (fmap DecoupledAdamW.steps) Hs)|]. reflexivity.
Defined.

(** ** The [momentum_buffer] entry without momentum *)

Section SgdBufferEntry.
Import DecoupledSGDW.

Lemma old_buffer_none st q : no_buffer_tensor st -> old_buffer st q = None.
Proof.
intros H. unfold old_buffer. destruct (st !! q) as [s|] eqn:E; [|done].
destruct (momentum_buffer s) as [[b|]|] eqn:Eb; [|done..]. by destruct (H q s b E).
Qed.

(** The loop that collects a group's parameters keeps every state entry
  there is. *)
Lemma collect_keeps_entry p s ps acc w :
state w !! p = Some s -> state (fold_each ps collect acc w).1 !! p = Some s.
Proof.
intros Hp.
pose proof (fold_each_ind (fun w (_ : collected) => state w !! p = Some s)
              (fun w => state w !! p = Some s) ps collect) as H.
assert (Hbody : forall q c w', q ∈ ps -> state w' !! p = Some s ->
          match collect q c w' with
          | (s', Ok _) => state s' !! p = Some s
          | (s', Raise _) => state s' !! p = Some s
          end); [|specialize (H Hbody acc w Hp)].
- intros q c w' _ Hs. unfold collect. cbn.
  destruct (grad (mem w' q)) as [g|]; cbn; [|done].
  destruct (decide (q = p)) as [->|Hne].
  + rewrite lookup_insert_eq. unfold state_entry. by rewrite Hs.
  + by rewrite lookup_insert_ne.
- by destruct (fold_each ps collect acc w) as [w1 [c|e]].
Qed.

Lemma store_from_state before after ids : forall i w,
Forall (fun b => b = None) (l_momentum_buffer_list before) ->
state (store_from i ids before after w) = state w.
Proof.
induction ids as [|x ids IH]; intros i w Hb; [done|].
cbn [store_from]. rewrite IH by done. cbn.
destruct (l_momentum_buffer_list before !! i) as [[b|]|] eqn:E; [|done..].
by pose proof (proj1 (Forall_lookup _ _) Hb i _ E).
Qed.

Lemma attach_keeps_none p ids (bufs : list (option tensor)) w :
Forall (fun b => b = None) bufs -> holds_none (state w) p ->
holds_none (state (for_each (zip ids bufs) attach w).1) p.
Proof.
intros Hbufs. apply (for_each_ind (fun w => holds_none (state w) p)).
intros [q b] s Hin Hs. apply elem_of_zip_r in Hin. cbn in Hin.
pose proof (proj1 (Forall_forall _ _) Hbufs b Hin) as ->. unfold holds_none. cbn.
destruct (decide (q = p)) as [->|Hne]; [by rewrite lookup_insert_eq|].
by rewrite lookup_insert_ne.
Qed.

Lemma attach_writes_none p ids : forall (bufs : list (option tensor)) w,
length bufs = length ids -> Forall (fun b => b = None) bufs -> p ∈ ids ->
holds_none (state (for_each (zip ids bufs) attach w).1) p.
Proof.
induction ids as [|x ids IH]; intros [|b bufs] w Hlen Hbufs Hp; try done.
{ by apply elem_of_nil in Hp. }
apply Forall_cons in Hbufs as [-> Hbufs]. cbn in Hlen.
cbn [zip_with for_each]. cbn -[for_each].
apply elem_of_cons in Hp as [->|Hp].
- apply attach_keeps_none; [done|]. unfold holds_none. cbn. by rewrite lookup_insert_eq.
- apply IH; [lia|done..].
Qed.

(** A group without momentum that has its 'initial_lr' writes the entry,
  holding [None], for each of its parameters with a gradient. *)
Lemma step_group_writes_none g w p :
momentum g = 0 -> no_buffer_tensor (state w) -> is_Some (initial_lr g) ->
p ∈ params g -> is_Some (grad (mem w p)) ->
holds_none (state (step_group g w).1) p.
Proof.
intros Hm Hw [ilr Hilr] Hp Hg. unfold step_group. rewrite Hilr, Hm.
cbn -[sgdw fold_each store_from for_each].
destruct (collect_spec (params g)
            {| params_with_grad := []; c_d_p_list := []; momentum_buffer_list := [] |} w)
  as (w1 & E & Hmem & Hbuf).
rewrite E. cbn -[sgdw fold_each store_from for_each].
set (ids := List.filter (has_grad (mem w)) (params g)).
assert (Hin : p ∈ ids).
{ unfold ids. rewrite list_elem_of_In, filter_In, <- list_elem_of_In.
  split; [done|]. unfold has_grad. by destruct Hg as [gr ->]. }
assert (Hnone : Forall (fun b => b = None) (map (old_buffer (state w)) ids)).
{ apply Forall_forall. intros b Hb. apply list_elem_of_In, in_map_iff in Hb as (q & <- & _).
  by apply old_buffer_none. }
match goal with |- context [sgdw ?d ?wd 0 ?lr ?i ?da ?ne ?a] =>
  pose proof (sgdw_no_momentum d wd lr i da ne a) as Hb;
  destruct (sgdw_returns d wd 0 lr i da ne a) as [a' Ea] end.
{ cbn. by rewrite !length_map. }
{ cbn. by rewrite !length_map. }
rewrite Ea in *. cbn in Hb. cbn -[store_from for_each]. rewrite Hb.
apply attach_writes_none; [by rewrite length_map|done..].
Qed.

(** A group without momentum keeps an entry that holds [None], in every
  outcome. *)
Lemma step_group_keeps_none g w p :
momentum g = 0 -> no_buffer_tensor (state w) -> holds_none (state w) p ->
holds_none (state (step_group g w).1) p.
Proof.
intros Hm Hw Hp. unfold step_group. rewrite Hm.
cbn -[sgdw fold_each store_from for_each].
destruct (initial_lr g) as [ilr|]; cbn -[sgdw fold_each store_from for_each]; [|done].
pose proof (collect_no_tensor w (params g) Hw) as Hc.
pose proof (collect_keeps_entry p _ (params g)
              {| params_with_grad := []; c_d_p_list := []; momentum_buffer_list := [] |}
              w Hp) as Hk.
destruct (fold_each _ _ _ w) as [w1 [c|e]]; [|done].
destruct Hc as [Hw1 Hc]. cbn in Hk. cbn -[sgdw fold_each store_from for_each].
match goal with |- context [sgdw ?d ?wd 0 ?lr ?i ?da ?ne ?a] =>
  pose proof (sgdw_no_momentum d wd lr i da ne a) as Hb;
  destruct (sgdw d wd 0 lr i da ne a) as [after r] end.
cbn in Hb. cbn -[store_from for_each].
assert (Hst : holds_none
          (state (store_from 0 (params_with_grad c)
                    {| l_params := map (fun p0 => data (mem w1 p0)) (params_with_grad c);
                       l_momentum_buffer_list := momentum_buffer_list c |} after w1)) p).
{ unfold holds_none. by rewrite store_from_state. }
destruct r as [[]|e]; cbn -[store_from for_each]; [|done].
apply attach_keeps_none; [by rewrite Hb|done].
Qed.

Lemma step_groups_keep_none groups w p :
Forall (fun g => momentum g = 0) groups ->
no_buffer_tensor (state w) -> holds_none (state w) p ->
holds_none (state (for_each groups step_group w).1) p.
Proof.
intros Hg Hw Hp.
apply (for_each_ind (fun w => no_buffer_tensor (state w) /\ holds_none (state w) p));
  [|done].
intros g s Hin [Hs Hsp].
pose proof (proj1 (Forall_forall _ _) Hg g Hin) as Hm. cbn in Hm.
split; [by apply step_group_no_tensor|by apply step_group_keeps_none].
Qed.

Lemma sgd_step_keeps_none groups closure w p :
Forall (fun g => momentum g = 0) groups ->
no_buffer_tensor (state w) -> holds_none (state w) p ->
holds_none (state (step groups closure w).1) p.
Proof.
intros Hg Hw Hp. unfold step. cbn -[for_each].
assert (Hw1 : state (run_closure closure w).1 = state w).
{ unfold run_closure. destruct closure as [f|]; [|done]. by destruct (f (mem w)). }
destruct (run_closure closure w) as [w1 [loss|e]]; cbn -[for_each] in *;
  [|by rewrite Hw1].
rewrite <- Hw1 in Hw, Hp.
pose proof (step_groups_keep_none groups w1 p Hg Hw Hp) as H.
by destruct (for_each groups step_group w1) as [w2 [[]|e]].
Qed.

Lemma sgd_steps_keep_none calls : forall w p,
Forall (fun call => Forall (fun g => momentum g = 0) call.1) calls ->
no_buffer_tensor (state w) -> holds_none (state w) p ->
holds_none (state (sgd_steps calls w)) p.
Proof.
induction calls as [|[groups closure] calls IH]; intros w p Hcalls Hw Hp; [done|].
apply Forall_cons in Hcalls as [Hg Hcalls]. cbn [sgd_steps]. apply IH; [done|..].
- by apply sgd_step_no_tensor.
- by apply sgd_step_keeps_none.
Qed.

Lemma sgd_steps_app calls1 calls2 : forall w,
sgd_steps (calls1 ++ calls2) w = sgd_steps calls2 (sgd_steps calls1 w).
Proof. induction calls1 as [|[groups closure] calls1 IH]; intros w; [done|]. apply IH. Qed.

(** The step writes the entry for a parameter with a gradient once its
  group is reached. *)
Lemma sgd_step_writes_none groups1 g groups2 closure w p :
Forall (fun g' => momentum g' = 0) (groups1 ++ g :: groups2) ->
no_buffer_tensor (state w) ->
Forall (fun g' => is_Some (initial_lr g')) (groups1 ++ [g]) ->
p ∈ params g -> is_Some (grad (mem (run_closure closure w).1 p)) ->
holds_none (state (step (groups1 ++ g :: groups2) closure w).1) p.
Proof.
intros Hm Hw Hilr Hp Hg. unfold step. cbn -[for_each].
assert (exists w1 loss, run_closure closure w = (w1, Ok loss) /\ state w1 = state w)
  as (w1 & loss & E & Hw1).
{ unfold run_closure. destruct closure as [f|]; [|by eauto].
  destruct (f (mem w)). by eauto. }
rewrite E in *. cbn -[for_each] in *. rewrite <- Hw1 in Hw.
apply Forall_app in Hm as [Hm1 Hm]. apply Forall_cons in Hm as [Hmg Hm2].
apply Forall_app in Hilr as [Hilr1 Hilrg].
pose proof (proj1 (Forall_singleton _ _) Hilrg) as Hig. cbn in Hig.
rewrite for_each_app.
pose proof (proj1 (step_groups_outcome groups1 w1) Hilr1) as Hok1.
pose proof (step_groups_frame groups1 w1) as [Hfr _].
assert (Hw2 : no_buffer_tensor (state (for_each groups1 step_group w1).1)).
{ apply (for_each_ind (fun w => no_buffer_tensor (state w))); [|done].
  intros g' s Hin Hs. apply step_group_no_tensor; [|done].
  exact (proj1 (Forall_forall _ _) Hm1 g' Hin). }
destruct (for_each groups1 step_group w1) as [w2 r1]. cbn in Hok1, Hfr, Hw2. subst r1.
cbn [for_each]. cbn -[for_each step_group].
assert (Hg2 : is_Some (grad (mem w2 p))) by (by rewrite Hfr).
pose proof (step_group_writes_none g w2 p Hmg Hw2 Hig Hp Hg2) as Hw3p.
pose proof (step_group_no_tensor g w2 Hmg Hw2) as Hw3.
destruct (step_group g w2) as [w3 [[]|e]]; cbn in Hw3p, Hw3 |- *; [|done].
pose proof (step_groups_keep_none groups2 w3 p Hm2 Hw3 Hw3p) as H.
by destruct (for_each groups2 step_group w3) as [w4 [[]|e]].
Qed.
End SgdBufferEntry.

(** C9, as the code has it.  Steps without momentum never put a tensor in
    the state, but they do write the entry.  Starting from a state without
    buffer tensors (the empty state of a new optimizer is one), after any
    number of calls of [step] in which every group has momentum 0, no
    [momentum_buffer] entry holds a tensor.  And if in one of these calls a
    parameter had a gradient after the closure and was listed in a group
    that the call reached, that is, this group and the groups before it had
    their 'initial_lr' (else the call raises KeyError before it writes),
    then the parameter's state has the [momentum_buffer] entry, holding
    [None], after that call and after all the later ones. *)
Theorem no_momentum_no_buffer_tensor
    (calls : list (list DecoupledSGDW.group * option closure_t)) (w : DecoupledSGDW.world) :
  Forall (fun call => Forall (fun g => DecoupledSGDW.momentum g = 0) call.1) calls ->
  no_buffer_tensor (DecoupledSGDW.state w) ->
  no_buffer_tensor (DecoupledSGDW.state (sgd_steps calls w)) /\
  forall calls1 groups1 g groups2 closure calls2 p,
    calls = calls1 ++ (groups1 ++ g :: groups2, closure) :: calls2 ->
    Forall (fun g' => is_Some (DecoupledSGDW.initial_lr g')) (groups1 ++ [g]) ->
    p ∈ DecoupledSGDW.params g ->
    is_Some (grad (DecoupledSGDW.mem
                     (DecoupledSGDW.run_closure closure (sgd_steps calls1 w)).1 p)) ->
    DecoupledSGDW.state (sgd_steps (calls1 ++ [(groups1 ++ g :: groups2, closure)]) w) !! p
      = Some {| DecoupledSGDW.momentum_buffer := Some None |} /\
    DecoupledSGDW.state (sgd_steps calls w) !! p
      = Some {| DecoupledSGDW.momentum_buffer := Some None |}.
Proof.
  intros Hcalls Hw. split; [by apply sgd_steps_no_tensor|].
  intros calls1 groups1 g groups2 closure calls2 p -> Hilr Hp Hg.
  apply Forall_app in Hcalls as [Hc1 Hc2]. apply Forall_cons in Hc2 as [Hc Hc2].
  cbn [fst] in Hc.
  pose proof (sgd_steps_no_tensor calls1 w Hc1 Hw) as Hw1.
  pose proof (sgd_step_writes_none groups1 g groups2 closure _ p Hc Hw1 Hilr Hp Hg) as Hp1.
  split.
  - rewrite sgd_steps_app. exact Hp1.
  - rewrite sgd_steps_app. cbn [sgd_steps].
    apply sgd_steps_keep_none; [done| |done]. by apply sgd_step_no_tensor.
Qed.

(** Two steps without momentum on [sgd_plain_world]: no tensor in the state,
    and parameter 0, which has a gradient, has its entry after the first
    step and after the second. *)
Lemma no_momentum_no_buffer_tensor_witness :
  no_buffer_tensor
    (DecoupledSGDW.state
       (sgd_steps [([sgd_plain_group], None); ([sgd_plain_group], None)] sgd_plain_world)) /\
  DecoupledSGDW.state (sgd_steps [([sgd_plain_group], None)] sgd_plain_world) !! 0%nat
    = Some {| DecoupledSGDW.momentum_buffer := Some None |} /\
  DecoupledSGDW.state
    (sgd_steps [([sgd_plain_group], None); ([sgd_plain_group], None)] sgd_plain_world) !! 0%nat
    = Some {| DecoupledSGDW.momentum_buffer := Some None |}.
Proof.
  assert (Hm : Forall (fun call : list DecoupledSGDW.group * option closure_t =>
                         Forall (fun g => DecoupledSGDW.momentum g = 0) call.1)
                 [([sgd_plain_group], None); ([sgd_plain_group], None)]).
  { repeat constructor. }
  destruct (no_momentum_no_buffer_tensor
              [([sgd_plain_group], None); ([sgd_plain_group], None)] sgd_plain_world
              Hm no_buffer_tensor_empty) as [Hnone Hentry].
  split; [exact Hnone|].
  apply (Hentry [] [] sgd_plain_group [] None [([sgd_plain_group], None)] 0%nat eq_refl).
  - apply Forall_singleton. unfold sgd_plain_group. cbn. by eauto.
  - unfold sgd_plain_group. cbn. by left.
  - unfold sgd_plain_world. cbn. by eauto.
Defined.

(** ** The step tensor of the report after a step, without decay *)

Section AdamReportAfterStep.
Import DecoupledAdamW.

Lemma adam_loop_groups_other l : forall w k,
k ∉ l -> param_groups (for_each l step_at w).1 !! k = param_groups w !! k.
Proof.
induction l as [|i l IH]; intros w k Hk; [done|].
apply not_elem_of_cons in Hk as [Hne Hk]. cbn -[step_at].
assert (Hi : param_groups (step_at i w).1 !! k = param_groups w !! k).
{ destruct (param_groups w !! i) as [g|] eqn:Eg.
  - rewrite (step_at_groups i w g Eg). by apply list_lookup_insert_ne.
  - unfold step_at. cbn -[step_group]. by rewrite Eg. }
destruct (step_at i w) as [w1 [[]|e]]; cbn in Hi |- *; [|done].
rewrite <- Hi. by apply IH.
Qed.

Lemma adam_entry_lengths w p n :
length (data (mem w p)) = n ->
(forall s, state w !! p = Some s -> length (exp_avg s) = n /\ length (exp_avg_sq s) = n) ->
length (exp_avg (adam_entry false w p)) = n /\
length (exp_avg_sq (adam_entry false w p)) = n.
Proof.
intros Hn Hs. unfold adam_entry. destruct (state w !! p) as [s|]; cbn; [by apply Hs|].
unfold zeros_like. by rewrite length_map.
Qed.

Lemma default_initial_lr_fields g :
lr (default_initial_lr g) = lr g /\ eps (default_initial_lr g) = eps g /\
weight_decay (default_initial_lr g) = weight_decay g /\
betas (default_initial_lr g) = betas g /\
initial_lr (default_initial_lr g) = Some (default (lr g) (initial_lr g)).
Proof.
unfold default_initial_lr. destruct (initial_lr g) as [x|] eqn:E; [|done].
by rewrite E.
Qed.

(** The first group's part of a step, for a parameter it lists once. *)
Lemma adam_first_group_at g rest closure w p gr :
param_groups w = g :: rest -> betas_ok false g ->
Forall (fun g' => p ∉ params g') rest -> NoDup (params g) -> p ∈ params g ->
dense (mem (run_closure closure w).1) ->
grad (mem (run_closure closure w).1 p) = Some gr ->
requires_grad (mem (run_closure closure w).1 p) = true ->
let w1 := (run_closure closure w).1 in
let s0 := adam_entry false w1 p in
let w' := (step closure w).1 in
param_groups w' !! 0%nat = Some (default_initial_lr g) /\
state w' !! p = Some (adam_state_after g s0 (values gr)) /\
data (mem w' p)
  = adam_value_after g (default (lr g) (initial_lr g)) s0 (data (mem w1 p)) (values gr) /\
grad (mem w' p) = Some gr.
Proof.
intros Hgs Hok Hun Hnd Hp Hd Hg Hrq w1 s0 w'. subst w1 s0 w'.
unfold step. cbn -[for_each step_at].
destruct (run_closure_spec closure w) as (w1 & loss & E & Hst & Hpg).
rewrite E in *. cbn -[for_each step_at] in *.
rewrite Hpg, Hgs. rewrite Hgs in Hpg. cbn [length seq for_each].
cbn -[for_each step_at].
assert (Hr : adam_ready false (state w1)) by (intros H; discriminate H).
assert (Hg0 : param_groups w1 !! 0%nat = Some g) by (by rewrite Hpg).
assert (Hbg : betas_ok false (default_initial_lr g)).
{ unfold default_initial_lr. by destruct (initial_lr g). }
assert (Hat : forall w3 r, step_at 0 w1 = (w3, r) ->
          param_groups w3 = default_initial_lr g :: rest /\
          state w3 !! p = Some (adam_state_after g (adam_entry false w1 p) (values gr)) /\
          data (mem w3 p)
            = adam_value_after g (default (lr g) (initial_lr g))
                (adam_entry false w1 p) (data (mem w1 p)) (values gr) /\
          grad (mem w3 p) = Some gr).
{ intros w3 r E3.
  pose proof (step_at_groups 0 w1 g Hg0) as Hgr. rewrite E3, Hpg in Hgr. cbn in Hgr.
  unfold step_at in E3. cbn -[step_group] in E3.
  rewrite Hg0 in E3. cbn -[step_group] in E3.
  match type of E3 with context [step_group ?g' ?w0] =>
    destruct (adam_step_group_at false g' w0 p gr Hbg Hd Hr) as (Hs3 & Hd3 & Hg3);
      [by rewrite default_initial_lr_params..|done|done|];
    destruct (step_group g' w0) as [w3' r3] end.
  cbn in Hs3, Hd3, Hg3.
  assert (w3' = w3) as -> by (by destruct r3 as [[]|e]; simplify_eq).
  assert (Hentry : adam_entry false
            {| mem := mem w1;
               param_groups := <[0%nat := default_initial_lr g]> (param_groups w1);
               state := state w1 |} p
            = adam_entry false w1 p).
  { by apply adam_entry_same. }
  rewrite Hentry in *.
  assert (Hsa : forall s t, adam_state_after (default_initial_lr g) s t
                            = adam_state_after g s t).
  { intros s t. unfold default_initial_lr. by destruct (initial_lr g). }
  assert (Hva : forall s t u,
            adam_value_after (default_initial_lr g)
              (default (lr (default_initial_lr g)) (initial_lr (default_initial_lr g))) s t u
            = adam_value_after g (default (lr g) (initial_lr g)) s t u).
  { intros s t u. unfold default_initial_lr.
    destruct (initial_lr g) eqn:Ei; [by rewrite Ei|]. done. }
  rewrite Hsa in Hs3. rewrite Hva in Hd3. rewrite Hg in Hg3. done. }
destruct (step_at 0 w1) as [w3 r3].
destruct (Hat w3 r3 eq_refl) as (Hg3 & Hs3 & Hd3 & Hgr3).
destruct (adam_loop_unlisted p (seq 1 (length rest)) w3) as [Hm4 Hs4].
{ intros k g' Hk Hg'. apply elem_of_seq in Hk as [Hk Hk'].
  rewrite Hg3 in Hg'. destruct k as [|k]; [lia|]. cbn in Hg'.
  by apply (proj1 (Forall_lookup _ _) Hun k g'). }
pose proof (adam_loop_groups_other (seq 1 (length rest)) w3 0) as Hg4.
rewrite Hg3 in Hg4. cbn [lookup list_lookup] in Hg4.
destruct r3 as [[]|e]; cbn -[for_each step_at]; [|by rewrite Hg3].
destruct (for_each _ _ w3) as [w4 [[]|e]]; cbn in Hm4, Hs4, Hg4 |- *;
  (rewrite Hm4, Hs4, Hg4; [done|]; rewrite elem_of_seq; lia).
Qed.
End AdamReportAfterStep.

(** X17.  Without weight decay and without amsgrad, the step tensor that
    [report_per_parameter_metrics] derives after a step is the update of
    that step, for a parameter of the first parameter group, the group the
    report takes lr, eps, weight_decay, initial_lr and betas from.  The
    parameter has a dense gradient of its own shape after the closure,
    requires one and is listed once, the moments its state holds have its
    shape, and the group has 0 <= beta1 < 1 and 0 <= beta2 <= 1.  Then, on
    the world the step leaves, the report builds a step tensor [t] from the
    first group and the parameter's state and runs the catalogue on it,
    and the value of the parameter is its value after the closure minus
    [t]. *)
Theorem step_tensor_is_update_without_decay (g : DecoupledAdamW.group)
    (rest : list DecoupledAdamW.group) (closure : option closure_t)
    (w : DecoupledAdamW.world) (p : nat) (gr : gradient) :
  DecoupledAdamW.param_groups w = g :: rest ->
  DecoupledAdamW.weight_decay g = 0 -> betas_ok false g ->
  Forall (fun g' => p ∉ DecoupledAdamW.params g') rest ->
  NoDup (DecoupledAdamW.params g) -> p ∈ DecoupledAdamW.params g ->
  dense (DecoupledAdamW.mem (DecoupledAdamW.run_closure closure w).1) ->
  grad (DecoupledAdamW.mem (DecoupledAdamW.run_closure closure w).1 p) = Some gr ->
  requires_grad (DecoupledAdamW.mem (DecoupledAdamW.run_closure closure w).1 p) = true ->
  length (values gr)
    = length (data (DecoupledAdamW.mem (DecoupledAdamW.run_closure closure w).1 p)) ->
  (forall s, DecoupledAdamW.state w !! p = Some s ->
     length (DecoupledAdamW.exp_avg s)
       = length (data (DecoupledAdamW.mem (DecoupledAdamW.run_closure closure w).1 p)) /\
     length (DecoupledAdamW.exp_avg_sq s)
       = length (data (DecoupledAdamW.mem (DecoupledAdamW.run_closure closure w).1 p))) ->
  let before := data (DecoupledAdamW.mem (DecoupledAdamW.run_closure closure w).1 p) in
  let w' := (DecoupledAdamW.step closure w).1 in
  exists g0 initial_lr s' t,
    DecoupledAdamW.param_groups w' !! 0%nat = Some g0 /\
    DecoupledAdamW.initial_lr g0 = Some initial_lr /\
    DecoupledAdamW.state w' !! p = Some s' /\
    DecoupledAdamW.step_tensor_of (DecoupledAdamW.lr g0) (DecoupledAdamW.eps g0)
      (DecoupledAdamW.weight_decay g0) initial_lr
      (DecoupledAdamW.betas g0).1 (DecoupledAdamW.betas g0).2
      (DecoupledAdamW.mem w' p) s' = Ok t /\
    (forall name m,
       DecoupledAdamW.report_per_parameter_metrics w' p name m
       = for_each DecoupledAdamW.metric_functions
           (fun mf => let! v := lift (mf.2 (DecoupledAdamW.mem w' p) s' t) in
                      setitem (mf.1 +:+ "/" +:+ name) v) m) /\
    data (DecoupledAdamW.mem w' p) = add_ before t (- (1)).
Proof.
  intros Hgs Hwd Hok Hun Hnd Hp Hd Hg Hrq Hlg Hls before w'.
  destruct (adam_first_group_at g rest closure w p gr Hgs Hok Hun Hnd Hp Hd Hg Hrq)
    as (Hg0 & Hs' & Hd' & _).
  fold w' in Hg0, Hs', Hd'. fold before in Hd'.
  destruct (default_initial_lr_fields g) as (Hlr & Heps & Hwd0 & Hbetas & Hilr).
  destruct (run_closure_spec closure w) as (w1 & loss & E & Hst & _).
  set (s0 := adam_entry false (DecoupledAdamW.run_closure closure w).1 p) in *.
  destruct (adam_entry_lengths (DecoupledAdamW.run_closure closure w).1 p (length before)
              eq_refl) as [Hlm Hlv].
  { rewrite E. cbn. rewrite Hst. exact Hls. }
  fold s0 in Hlm, Hlv.
  destruct Hok as (Hflag & Hb1 & Hb2).
  assert (Hstep : (1 <= S (DecoupledAdamW.steps s0))%nat) by (apply le_n_S, Nat.le_0_l).
  destruct (bias_corrections_ok (DecoupledAdamW.betas g).1 (DecoupledAdamW.betas g).2
              (S (DecoupledAdamW.steps s0)) Hb1 Hb2 Hstep) as [Hbc2 Hbc1].
  assert (Ht : exists t,
    DecoupledAdamW.step_tensor_of (DecoupledAdamW.lr g) (DecoupledAdamW.eps g) 0
      (default (DecoupledAdamW.lr g) (DecoupledAdamW.initial_lr g))
      (DecoupledAdamW.betas g).1 (DecoupledAdamW.betas g).2
      (DecoupledAdamW.mem w' p) (adam_state_after g s0 (values gr)) = Ok t /\
    data (DecoupledAdamW.mem w' p) = add_ before t (- (1))).
  { unfold DecoupledAdamW.step_tensor_of. cbn -[math_sqrt float_div pow].
    rewrite math_sqrt_ok, float_div_ok by done. eexists. split; [reflexivity|].
    rewrite Hd' at 2. rewrite Hd' at 1.
    unfold adam_value_after, adam_state_after. rewrite Hflag.
    cbn -[pow]. unfold decayed. rewrite Hwd.
    destruct (Req_dec_T 0 0); [|done].
    apply update_from_step_tensor.
    - rewrite adam_exp_avg_length. unfold before in *. lia.
    - rewrite !length_map, adam_exp_avg_sq_length. unfold before in *. lia. }
  destruct Ht as (t & Ht & Hval).
  exists (DecoupledAdamW.default_initial_lr g),
    (default (DecoupledAdamW.lr g) (DecoupledAdamW.initial_lr g)),
    (adam_state_after g s0 (values gr)), t.
  rewrite Hlr, Heps, Hwd0, Hbetas, Hwd.
  split; [done|]. split; [done|]. split; [done|]. split; [done|]. split; [|done].
  intros name m. unfold DecoupledAdamW.report_per_parameter_metrics.
  cbn -[for_each DecoupledAdamW.metric_functions DecoupledAdamW.step_tensor_of].
  rewrite Hg0.
  cbn -[for_each DecoupledAdamW.metric_functions DecoupledAdamW.step_tensor_of].
  rewrite Hilr, Hlr, Heps, Hwd0, Hbetas, Hwd.
  cbn -[for_each DecoupledAdamW.metric_functions DecoupledAdamW.step_tensor_of].
  destruct (DecoupledAdamW.betas g) as [beta1 beta2].
  rewrite Hs'.
  cbn -[for_each DecoupledAdamW.metric_functions DecoupledAdamW.step_tensor_of].
  cbn [fst snd] in Ht. rewrite Ht. done.
Qed.

(** A first step without decay on [one_gradient], parameter 0 being the
    only parameter of the only group. *)
Lemma step_tensor_is_update_without_decay_witness :
  exists s' t,
    (forall name m,
       DecoupledAdamW.report_per_parameter_metrics adam_plain_stepped 0 name m
       = for_each DecoupledAdamW.metric_functions
           (fun mf =>
              let! v := lift (mf.2 (DecoupledAdamW.mem adam_plain_stepped 0%nat) s' t) in
              setitem (mf.1 +:+ "/" +:+ name) v) m) /\
    data (DecoupledAdamW.mem adam_plain_stepped 0%nat) = add_ [4] t (- (1)).
Proof.
  assert (Hok : betas_ok false adam_plain_group).
  { unfold betas_ok, adam_plain_group. cbn. repeat split; lra. }
  assert (Hnd : NoDup (DecoupledAdamW.params adam_plain_group)) by apply NoDup_singleton.
  assert (Hin : 0%nat ∈ DecoupledAdamW.params adam_plain_group) by (by left).
  assert (Hd : dense one_gradient).
  { intros p gr. unfold one_gradient.
    destruct (p =? 0)%nat; cbn; [|done]. by intros [= <-]. }
  assert (Hls : forall s, (∅ : gmap nat DecoupledAdamW.pstate) !! 0%nat = Some s ->
            length (DecoupledAdamW.exp_avg s) = 1%nat /\
            length (DecoupledAdamW.exp_avg_sq s) = 1%nat).
  { intros s H. by rewrite lookup_empty in H. }
  destruct (step_tensor_is_update_without_decay adam_plain_group [] None adam_plain_world 0
              {| is_sparse := false; values := [1] |}
              eq_refl eq_refl Hok (Forall_nil_2 _) Hnd Hin Hd eq_refl eq_refl eq_refl Hls)
    as (g0 & ilr & s' & t & _ & _ & _ & _ & Hrep & Hval).
  exists s', t. by split.
Defined.
